(** * Campus Planner: validation, storage, query, search and sort layers

    A shallow embedding of [src/js/storage.js] (which holds the storage
    module, the UI module and the validation module of the planner) and of
    the parts of [src/js/app.js] that call them, together with the
    properties the specification states about them.

    JavaScript strings are sequences of UTF-16 code units, modelled as
    [list N].  Runtime values are the JSON data the planner stores and reads
    back, plus [undefined].  Numbers are the integer-valued ones.  A
    conversion that throws a TypeError is [None]. *)

From Stdlib Require Import ZArith NArith List Ascii String Lia Bool.
From Stdlib Require Import Permutation DecimalString Sorted.
From Stdlib Require DecimalZ DecimalPos.
From stdpp Require Import gmap list sorting.

Local Set Warnings "-register-all".
Local Open Scope Z_scope.

(** ** JavaScript strings and values *)

Module JS.

Abbreviation jsstring := (list N).

(** A string literal of the source, as code units. *)
Definition lit (s : string) : jsstring :=
  map N_of_ascii (list_ascii_of_string s).

Inductive value : Type :=
| VUndef
| VNull
| VBool (b : bool)
| VNum (n : Z)
| VStr (s : jsstring)
| VArr (l : list value)
| VObj (m : gmap jsstring value).

(** An object as the planner uses it: own string-keyed properties. *)
Abbreviation obj := (gmap jsstring value).

(** [WhiteSpace] and [LineTerminator] of ECMAScript: what [String.prototype.trim]
    strips and what [\s] matches. *)
Definition is_space (c : N) : bool :=
  ((9 <=? c) && (c <=? 13) || (c =? 32) || (c =? 160) || (c =? 5760)
   || (8192 <=? c) && (c <=? 8202) || (c =? 8232) || (c =? 8233)
   || (c =? 8239) || (c =? 8287) || (c =? 12288) || (c =? 65279))%N.

Definition is_digit (c : N) : bool := ((48 <=? c) && (c <=? 57))%N.
Definition is_upper (c : N) : bool := ((65 <=? c) && (c <=? 90))%N.
Definition is_lower (c : N) : bool := ((97 <=? c) && (c <=? 122))%N.
Definition is_alpha (c : N) : bool := is_upper c || is_lower c.

(** [\w] without the unicode flag: [[A-Za-z0-9_]]. *)
Definition is_word (c : N) : bool := is_alpha c || is_digit c || (c =? 95)%N.

Fixpoint trimStart (s : jsstring) : jsstring :=
  match s with
  | c :: s' => if is_space c then trimStart s' else s
  | [] => []
  end.

Definition trimEnd (s : jsstring) : jsstring := rev (trimStart (rev s)).

Definition trim (s : jsstring) : jsstring := trimEnd (trimStart s).

(** *** Numbers

    A number is held as an integer [n] and stands for the Number value of
    [n]: the double nearest to [n], ties going to the even one.  Up to 2^53
    in magnitude that is [n] itself.  Where no double is that large the
    value is an infinity, held as [infinity], a magnitude no double
    reaches. *)

Definition infinity : Z := 2 ^ 1024.

(** A non-negative integer rounded to 53 significant bits. *)
Definition round53 (a : Z) : Z :=
  let e := Z.log2 a - 52 in
  if e <=? 0 then a
  else
    let q := Z.shiftr a e in
    let r := a - Z.shiftl q e in
    let half := Z.shiftl 1 (e - 1) in
    let q' := if (half <? r) || ((r =? half) && Z.odd q) then q + 1 else q in
    Z.shiftl q' e.

Definition Number_of (n : Z) : Z :=
  Z.sgn n * Z.min (round53 (Z.abs n)) infinity.

(** The decimal digits of an integer, with its sign. *)
Definition decimal (n : Z) : jsstring :=
  lit (NilZero.string_of_int (Z.to_int n)).

Definition digit_count (x : Z) : Z := Z.of_nat (length (decimal x)).

(** The numerals [s] of [k] digits for which [s * 10^(n-k)] reads back as
    the double [x]: they are among the two next to [x / 10^(n-k)]. *)
Definition numerals (x k n : Z) : list (Z * Z) :=
  if n <? k then []
  else
    let p := 10 ^ (n - k) in
    List.filter
      (fun sn => (10 ^ (k - 1) <=? fst sn) && (fst sn <? 10 ^ k)
                 && (Number_of (fst sn * p) =? x))
      [(x / p, n); (x / p + 1, n)].

(** Of two numerals of [k] digits the one nearer to [x], the even one when
    they are as near. *)
Definition nearer (x k : Z) (a b : Z * Z) : Z * Z :=
  let da := Z.abs (fst a * 10 ^ (snd a - k) - x) in
  let db := Z.abs (fst b * 10 ^ (snd b - k) - x) in
  if da <? db then a
  else if db <? da then b
  else if Z.even (fst a) then a else b.

(** The shortest numeral that reads back as the double [x], from [k] digits
    on: the numeral, the number of its digits and the number of digits of
    the integer part it stands for.  Seventeen digits always do. *)
Fixpoint shortest (fuel : nat) (x k : Z) : Z * Z * Z :=
  match fuel with
  | O => (x, digit_count x, digit_count x)
  | S fuel' =>
      let nd := digit_count x in
      match numerals x k nd ++ numerals x k (nd + 1) with
      | [] => shortest fuel' x (k + 1)
      | c :: cs => let '(s, n) := fold_left (nearer x k) cs c in (s, k, n)
      end
  end.

(** The text of a double from 2^53 on: the digits of the shortest numeral,
    filled up with zeros below 10^21 and in exponent form from there. *)
Definition big_number_text (x : Z) : jsstring :=
  let '(s, k, n) := shortest 17 x 1 in
  if n <=? 21 then decimal (s * 10 ^ (n - k))
  else
    match decimal s with
    | [] => []
    | d :: ds =>
        d :: (match ds with [] => [] | _ => lit "." ++ ds end)
        ++ lit "e+" ++ decimal (n - 1)
    end.

(** [Number::toString] in radix 10, on an integer-valued number. *)
Definition number_to_string (n : Z) : jsstring :=
  let x := Number_of n in
  if Z.abs x <? 2 ^ 53 then decimal x
  else
    (if x <? 0 then lit "-" else [])
    ++ (if Z.abs x =? infinity then lit "Infinity"
        else big_number_text (Z.abs x)).

Fixpoint join (sep : jsstring) (parts : list jsstring) : jsstring :=
  match parts with
  | [] => []
  | [p] => p
  | p :: rest => p ++ sep ++ join sep rest
  end.

Definition k_toString : jsstring := lit "toString".

(** [String(v)]: the abstract operation ToString; [None] is a TypeError.  An
    array joins the texts of its elements.  An object is rendered by the
    [toString] it finds: that of [Object.prototype], unless it has an own
    property of that name.  In data such a property is never a function, and
    then neither it nor [valueOf] gives a primitive: the conversion
    throws. *)
Fixpoint ToString (v : value) : option jsstring :=
  match v with
  | VUndef => Some (lit "undefined")
  | VNull => Some (lit "null")
  | VBool true => Some (lit "true")
  | VBool false => Some (lit "false")
  | VNum n => Some (number_to_string n)
  | VStr s => Some s
  | VArr l =>
      parts ← mapM (fun e => match e with
                             | VUndef | VNull => Some []
                             | _ => ToString e
                             end) l;
      Some (join (lit ",") parts)
  | VObj m =>
      if bool_decide (is_Some (m !! k_toString)) then None
      else Some (lit "[object Object]")
  end.

(** ToBoolean. *)
Definition truthy (v : value) : bool :=
  match v with
  | VUndef | VNull => false
  | VBool b => b
  | VNum n => negb (n =? 0)
  | VStr s => negb (Nat.eqb (length s) 0)
  | VArr _ | VObj _ => true
  end.

Definition is_string (v : value) : bool :=
  match v with VStr _ => true | _ => false end.

(** Strict equality [===] on the primitives the planner compares. *)
Definition strict_eq_str (v : value) (s : jsstring) : bool :=
  match v with
  | VStr t => bool_decide (t = s)
  | _ => false
  end.

(** [o.k] on an object: the own property or [undefined]. *)
Definition get (o : obj) (k : jsstring) : value := default VUndef (o !! k).

(** [a || b]. *)
Definition or_else (a b : value) : value := if truthy a then a else b.

(** [a || b] on the results of two tests of which either may throw: [b] is
    evaluated only when [a] is false. *)
Definition or_test (a b : option bool) : option bool :=
  match a with
  | Some false => b
  | _ => a
  end.

(** [l.filter(p)] for a callback that may throw: the first exception ends
    the loop. *)
Fixpoint filter_throwing {A : Type} (p : A -> option bool) (l : list A)
  : option (list A) :=
  match l with
  | [] => Some []
  | x :: l' =>
      match p x with
      | None => None
      | Some keep =>
          rest ← filter_throwing p l';
          Some (if keep then x :: rest else rest)
      end
  end.

(** *** What JSON keeps

    [JSON.parse(JSON.stringify(v))], for a value other than [undefined]: a
    property whose value is [undefined] is left out, [undefined] in an array
    becomes [null], and so does a number that is an infinity. *)
Fixpoint through_JSON (v : value) : value :=
  match v with
  | VNum n => if Z.abs (Number_of n) =? infinity then VNull else v
  | VArr l =>
      VArr ((fun e => match e with
                      | VUndef => VNull
                      | _ => through_JSON e
                      end) <$> l)
  | VObj m =>
      VObj (omap (fun e => match e with
                           | VUndef => None
                           | _ => Some (through_JSON e)
                           end) m)
  | _ => v
  end.

(** The same on the properties of an object. *)
Definition through_JSON_obj (o : obj) : obj :=
  omap (fun e => match e with
                 | VUndef => None
                 | _ => Some (through_JSON e)
                 end) o.

(** Data that JSON keeps as it is. *)
Definition JSON_data (o : obj) : Prop := through_JSON_obj o = o.

(** A property value that JSON keeps as it is. *)
Definition JSON_value (v : value) : Prop := v <> VUndef /\ through_JSON v = v.

(** The number of constructors of a value, for induction. *)
Fixpoint value_size (v : value) : nat :=
  match v with
  | VArr l => S (list_sum (value_size <$> l))
  | VObj m => S (map_fold (fun _ e acc => (value_size e + acc)%nat) 0%nat m)
  | _ => 1
  end.

End JS.

Import JS.

(** ** Regular expressions of the pattern library

    The anchored patterns are regular expressions over character classes;
    [test] on them is a full match, decided with Brzozowski derivatives. *)

Module Regex.

Inductive re : Type :=
| Void
| Eps
| Cls (p : N -> bool)
| Seq (a b : re)
| Or (a b : re)
| Rep (a : re).

Definition Plus (a : re) : re := Seq a (Rep a).

Fixpoint nullable (r : re) : bool :=
  match r with
  | Void => false
  | Eps => true
  | Cls _ => false
  | Seq a b => nullable a && nullable b
  | Or a b => nullable a || nullable b
  | Rep _ => true
  end.

Fixpoint deriv (c : N) (r : re) : re :=
  match r with
  | Void => Void
  | Eps => Void
  | Cls p => if p c then Eps else Void
  | Seq a b =>
      if nullable a then Or (Seq (deriv c a) b) (deriv c b)
      else Seq (deriv c a) b
  | Or a b => Or (deriv c a) (deriv c b)
  | Rep a => Seq (deriv c a) (Rep a)
  end.

Fixpoint full_match (r : re) (s : jsstring) : bool :=
  match s with
  | [] => nullable r
  | c :: s' => full_match (deriv c r) s'
  end.

(** The language of a pattern, for reasoning. *)
Inductive Lang : re -> jsstring -> Prop :=
| L_eps : Lang Eps []
| L_cls p c : p c = true -> Lang (Cls p) [c]
| L_seq a b s t : Lang a s -> Lang b t -> Lang (Seq a b) (s ++ t)
| L_or_l a b s : Lang a s -> Lang (Or a b) s
| L_or_r a b s : Lang b s -> Lang (Or a b) s
| L_rep_nil a : Lang (Rep a) []
| L_rep_more a s t : Lang a s -> Lang (Rep a) t -> Lang (Rep a) (s ++ t).

End Regex.

Import Regex.

(** ** Dates of the runtime

    Time values are milliseconds since the epoch, as in ECMAScript; an
    invalid date is [None].  The local zone has a fixed offset [LocalTZA]
    from UTC.  [Date.parse] reads the date-only form [YYYY-MM-DD] of a real
    calendar day as UTC midnight; every other text goes to the engine's own
    heuristics [legacy_parse]. *)

Module DateTime.

Definition msPerDay : Z := 86400000.

Definition Day (t : Z) : Z := t / msPerDay.
Definition TimeWithinDay (t : Z) : Z := t mod msPerDay.

Definition is_leap (y : Z) : bool :=
  (y mod 4 =? 0) && (negb (y mod 100 =? 0) || (y mod 400 =? 0)).

Definition DaysInYear (y : Z) : Z := if is_leap y then 366 else 365.

Definition DayFromYear (y : Z) : Z :=
  365 * (y - 1970) + (y - 1969) / 4 - (y - 1901) / 100 + (y - 1601) / 400.

(** The largest year that starts on or before day [d], found upwards from an
    estimate below it. *)
Fixpoint year_search (fuel : nat) (y d : Z) : Z :=
  match fuel with
  | O => y
  | S f => if DayFromYear (y + 1) <=? d then year_search f (y + 1) d else y
  end.

Definition YearFromDay (d : Z) : Z :=
  year_search (Z.to_nat (Z.abs d / 100000 + 3))
              (1970 + (if 0 <=? d then d / 366 else d / 365)) d.

Definition YearFromTime (t : Z) : Z := YearFromDay (Day t).

Definition DayWithinYear (t : Z) : Z := Day t - DayFromYear (YearFromTime t).

(** First day of month [m] (0 to 11) within a year. *)
Definition month_start (leap : bool) (m : Z) : Z :=
  let l := if leap then 1 else 0 in
  match m with
  | 0 => 0
  | 1 => 31
  | 2 => 59 + l
  | 3 => 90 + l
  | 4 => 120 + l
  | 5 => 151 + l
  | 6 => 181 + l
  | 7 => 212 + l
  | 8 => 243 + l
  | 9 => 273 + l
  | 10 => 304 + l
  | _ => 334 + l
  end.

Definition month_of_day (leap : bool) (d : Z) : Z :=
  if d <? month_start leap 1 then 0
  else if d <? month_start leap 2 then 1
  else if d <? month_start leap 3 then 2
  else if d <? month_start leap 4 then 3
  else if d <? month_start leap 5 then 4
  else if d <? month_start leap 6 then 5
  else if d <? month_start leap 7 then 6
  else if d <? month_start leap 8 then 7
  else if d <? month_start leap 9 then 8
  else if d <? month_start leap 10 then 9
  else if d <? month_start leap 11 then 10
  else 11.

Definition MonthFromTime (t : Z) : Z :=
  month_of_day (is_leap (YearFromTime t)) (DayWithinYear t).

Definition DateFromTime (t : Z) : Z :=
  DayWithinYear t
  - month_start (is_leap (YearFromTime t)) (MonthFromTime t) + 1.

(** [MakeDay(year, month, date)] with [month] counted from 0. *)
Definition MakeDay (year month date : Z) : Z :=
  let ym := year + month / 12 in
  let mn := month mod 12 in
  DayFromYear ym + month_start (is_leap ym) mn + date - 1.

Definition MakeDate (day time : Z) : Z := day * msPerDay + time.

Definition days_in_month (y m : Z) : Z :=
  match m with
  | 1 | 3 | 5 | 7 | 8 | 10 | 12 => 31
  | 4 | 6 | 9 | 11 => 30
  | 2 => if is_leap y then 29 else 28
  | _ => 0
  end.

(** A day of the calendar, with the month counted from 1. *)
Definition real_date (y m d : Z) : Prop :=
  1 <= m <= 12 /\ 1 <= d <= days_in_month y m.

Definition real_dateb (y m d : Z) : bool :=
  (1 <=? m) && (m <=? 12) && (1 <=? d) && (d <=? days_in_month y m).

(** Value of a run of decimal digits. *)
Definition digits_value (s : jsstring) : Z :=
  fold_left (fun acc c => 10 * acc + (Z.of_N c - 48)) s 0.

(** The date-only form: four digits, two digits, two digits. *)
Definition parse_date_only (s : jsstring) : option (Z * Z * Z) :=
  match s with
  | [y1; y2; y3; y4; h1; m1; m2; h2; d1; d2] =>
      if (h1 =? 45)%N && (h2 =? 45)%N
         && forallb is_digit [y1; y2; y3; y4; m1; m2; d1; d2]
      then Some (digits_value [y1; y2; y3; y4], digits_value [m1; m2],
                 digits_value [d1; d2])
      else None
  | _ => None
  end.

Section Zone.

Variable LocalTZA : Z.
Variable legacy_parse : jsstring -> option Z.

Definition LocalTime (t : Z) : Z := t + LocalTZA.
Definition UTC (t : Z) : Z := t - LocalTZA.

(** [Date.parse(s)] *)
Definition Date_parse (s : jsstring) : option Z :=
  match parse_date_only s with
  | Some (y, m, d) =>
      if real_dateb y m d then Some (MakeDate (MakeDay y (m - 1) d) 0)
      else legacy_parse s
  | None => legacy_parse s
  end.

(** [TimeClip]: a time value lies within 8.64e15 milliseconds of the
    epoch. *)
Definition TimeClip (t : Z) : option Z :=
  if Z.abs t <=? 8640000000000000 then Some t else None.

(** [new Date(v)] with one argument: the time value of the date, [None]
    within for an invalid date; the outer [None] is the TypeError of a value
    that has no primitive.  A string is parsed, and so is the text of an
    array or of an object. *)
Definition Date_of_value (v : value) : option (option Z) :=
  match v with
  | VUndef => Some None
  | VNull => Some (Some 0)
  | VBool b => Some (Some (if b then 1 else 0))
  | VNum n => Some (TimeClip (Number_of n))
  | VStr s => Some (Date_parse s)
  | VArr _ | VObj _ => s ← ToString v; Some (Date_parse s)
  end.

(** [new Date(year, month, date)]: local midnight; a year from 0 to 99 means
    1900 plus that year. *)
Definition Date_of_fields (year month date : Z) : Z :=
  let full := if (0 <=? year) && (year <=? 99) then 1900 + year else year in
  UTC (MakeDate (MakeDay full month date) 0).

Definition getFullYear (t : Z) : Z := YearFromTime (LocalTime t).
Definition getMonth (t : Z) : Z := MonthFromTime (LocalTime t).
Definition getDate (t : Z) : Z := DateFromTime (LocalTime t).

(** [d.setFullYear(y)] *)
Definition setFullYear (t y : Z) : Z :=
  let l := LocalTime t in
  UTC (MakeDate (MakeDay y (MonthFromTime l) (DateFromTime l)) (TimeWithinDay l)).

(** [d.setHours(0, 0, 0, 0)] *)
Definition setHours0 (t : Z) : Z :=
  UTC (MakeDate (Day (LocalTime t)) 0).

(** [d.setDate(n)] *)
Definition setDate (t n : Z) : Z :=
  let l := LocalTime t in
  UTC (MakeDate (MakeDay (YearFromTime l) (MonthFromTime l) n) (TimeWithinDay l)).

End Zone.

End DateTime.

Import DateTime.

(** ** The validation module *)

Module Validators.

Record result : Type := { valid : bool; error : jsstring }.

Definition reject (msg : string) : result := {| valid := false; error := lit msg |}.
Definition accept : result := {| valid := true; error := [] |}.

(** The validators return [Some] of their result; [None] stands for a thrown
    exception.  [v.trim()] throws a TypeError unless [v] is a string. *)
Definition trim_of (v : value) : option jsstring :=
  match v with
  | VStr s => Some (trim s)
  | _ => None
  end.

(** [v !== s] for a string [s]. *)
Definition strict_ne_str (v : value) (s : jsstring) : bool := negb (strict_eq_str v s).

Definition not_space (c : N) : bool := negb (is_space c).

(** [/^\S+(?:\s\S+)*$/] *)
Definition TITLE_REGEX : re :=
  Seq (Plus (Cls not_space)) (Rep (Seq (Cls is_space) (Plus (Cls not_space)))).

(** Canonicalize of a case-insensitive pattern without the unicode flag, on
    the characters [\w] can capture: ASCII letters fold to upper case.  A
    code unit from 128 up never folds to one below 128, so against a
    captured [\w] character it compares as itself. *)
Definition canon (c : N) : N := if is_lower c then (c - 32)%N else c.

Definition ci_eqb (a b : jsstring) : bool :=
  bool_decide (map canon a = map canon b).

(** [\b] between two neighbours; outside the string counts as a non-word. *)
Definition at_boundary (before after : option N) : bool :=
  xorb (from_option is_word false before) (from_option is_word false after).

(** One attempt of [/\b(\w+)\s+\1\b/i] at a start position: [before] is the
    code unit left of the position, [rest] the text from it.  The group
    tries its longest extent first and backs off, and so does [\s+]. *)
Definition dup_word_at (before : option N) (rest : jsstring) : bool :=
  at_boundary before (head rest) &&
  existsb (fun k =>
    let w := take k rest in
    let r1 := drop k rest in
    forallb is_word w &&
    existsb (fun j =>
      let r2 := drop j r1 in
      forallb is_space (take j r1) &&
      (Nat.leb k (length r2)) &&
      ci_eqb w (take k r2) &&
      at_boundary (last (take k r2)) (head (drop k r2)))
      (rev (seq 1 (length r1))))
    (rev (seq 1 (length rest))).

Fixpoint dup_word_from (before : option N) (rest : jsstring) : bool :=
  dup_word_at before rest ||
  match rest with
  | [] => false
  | c :: rest' => dup_word_from (Some c) rest'
  end.

(** [DUPLICATE_WORD_REGEX.test(s)] *)
Definition DUPLICATE_WORD_test (s : jsstring) : bool := dup_word_from None s.

(** [validateTitle] *)
Definition validateTitle (title : value) : option result :=
  if negb (truthy title) || negb (is_string title) then
    Some (reject "Title is required")
  else
    trimmed ← trim_of title;
    if (length trimmed <? 3)%nat then
      Some (reject "Title must be at least 3 characters")
    else if (100 <? length trimmed)%nat then
      Some (reject "Title must not exceed 100 characters")
    else if strict_ne_str title trimmed then
      Some (reject "Title cannot have leading or trailing spaces")
    else
      text ← ToString title;
      if negb (full_match TITLE_REGEX text) then
        Some (reject "Title cannot contain consecutive spaces")
      else if DUPLICATE_WORD_test text then
        Some (reject "Title contains duplicate words")
      else Some accept.

(** [/^[1-9]\d*$/] *)
Definition DURATION_REGEX : re :=
  Seq (Cls (fun c => (49 <=? c) && (c <=? 57))%N) (Rep (Cls is_digit)).

Definition chr (k : N) : re := Cls (N.eqb k).
Definition range (lo hi : N) : re := Cls (fun c => (lo <=? c) && (c <=? hi))%N.

(** [/^\d{4}-(0[1-9]|1[0-2])-(0[1-9]|[12]\d|3[01])$/] *)
Definition DATE_REGEX : re :=
  Seq (Cls is_digit) (Seq (Cls is_digit) (Seq (Cls is_digit) (Seq (Cls is_digit)
  (Seq (chr 45)
  (Seq (Or (Seq (chr 48) (range 49 57)) (Seq (chr 49) (range 48 50)))
  (Seq (chr 45)
       (Or (Seq (chr 48) (range 49 57))
       (Or (Seq (range 49 50) (Cls is_digit))
           (Seq (chr 51) (range 48 49)))))))))).

(** [/^[A-Za-z]+(?:[ -][A-Za-z]+)*$/] *)
Definition TAG_REGEX : re :=
  Seq (Plus (Cls is_alpha))
      (Rep (Seq (Cls (fun c => (c =? 32) || (c =? 45))%N) (Plus (Cls is_alpha)))).

Fixpoint take_digits (s : jsstring) : jsstring :=
  match s with
  | c :: s' => if is_digit c then c :: take_digits s' else []
  | [] => []
  end.

(** [parseInt(s, 10)]: leading space is skipped, a sign is read, then the
    longest run of digits, and the result is the Number value of the integer
    read; [None] is NaN. *)
Definition parseInt10 (s : jsstring) : option Z :=
  let s1 := trimStart s in
  let '(sign, s2) :=
    match s1 with
    | 45%N :: r => (-1, r)
    | 43%N :: r => (1, r)
    | _ => (1, s1)
    end in
  match take_digits s2 with
  | [] => None
  | ds => Some (Number_of (sign * digits_value ds))
  end.

(** [validateDuration] *)
Definition validateDuration (duration : value) : option result :=
  match duration with
  | VNull | VUndef | VStr [] => Some (reject "Duration is required")
  | _ =>
    text ← ToString duration;
    durationStr ← trim_of (VStr text);
    if negb (full_match DURATION_REGEX durationStr) then
      Some (reject "Duration must be a positive number (e.g., 120)")
    else
      match parseInt10 durationStr with
      | None => Some (reject "Duration must be greater than 0")
      | Some numValue =>
          if numValue <=? 0 then Some (reject "Duration must be greater than 0")
          else if 1440 <? numValue then
            Some (reject "Duration cannot exceed 24 hours (1440 minutes)")
          else Some accept
      end
  end.

(** [s.split(sep)] for a one-unit separator. *)
Fixpoint split_on (sep : N) (s : jsstring) : list jsstring :=
  match s with
  | [] => [[]]
  | c :: s' =>
      if (c =? sep)%N then [] :: split_on sep s'
      else match split_on sep s' with
           | p :: ps => (c :: p) :: ps
           | [] => [[c]]
           end
  end.

Section Clock.

Variable LocalTZA : Z.

(** [validateDueDate]; [t_today], [t_past] and [t_future] are what the three
    calls of [new Date()] return, in the order of the source.  [Number] is
    applied to runs of digits only, since the pattern has passed. *)
Definition validateDueDateAt (t_today t_past t_future : Z) (date : value)
  : option result :=
  if negb (truthy date) || negb (is_string date) then
    Some (reject "Due date is required")
  else
    trimmed ← trim_of date;
    if negb (full_match DATE_REGEX trimmed) then
      Some (reject "Date must be in YYYY-MM-DD format")
    else
      match map digits_value (split_on 45 trimmed) with
      | [year; month; day] =>
          let dateObj := Date_of_fields LocalTZA year (month - 1) day in
          if negb (getFullYear LocalTZA dateObj =? year)
             || negb (getMonth LocalTZA dateObj =? month - 1)
             || negb (getDate LocalTZA dateObj =? day) then
            Some (reject "Invalid date (e.g., Feb 30 does not exist)")
          else
            let today := setHours0 LocalTZA t_today in
            let oneYearAgo :=
              setHours0 LocalTZA
                (setFullYear LocalTZA t_past (getFullYear LocalTZA t_past - 1)) in
            if dateObj <? oneYearAgo then
              Some (reject "Date cannot be more than 1 year in the past")
            else
              let twoYearsFromNow :=
                setFullYear LocalTZA t_future (getFullYear LocalTZA t_future + 2) in
              if twoYearsFromNow <? dateObj then
                Some (reject "Date cannot be more than 2 years in the future")
              else Some accept
      | _ => Some (reject "Invalid date (e.g., Feb 30 does not exist)")
      end.

(** The three readings taken at one instant. *)
Definition validateDueDate (now : Z) (date : value) : option result :=
  validateDueDateAt now now now date.

End Clock.

(** [validateTag] *)
Definition validateTag (tag : value) : option result :=
  if negb (truthy tag) || negb (is_string tag) then
    Some (reject "Tag is required")
  else
    trimmed ← trim_of tag;
    if (length trimmed <? 3)%nat then
      Some (reject "Tag must be at least 3 characters")
    else if (30 <? length trimmed)%nat then
      Some (reject "Tag must not exceed 30 characters")
    else if negb (full_match TAG_REGEX trimmed) then
      Some (reject "Tag can only contain letters, spaces, or hyphens")
    else Some accept.

Definition validPriorities : list jsstring := [lit "High"; lit "Medium"; lit "Low"].

(** [Array.prototype.includes]: SameValueZero against string elements. *)
Definition includes (l : list jsstring) (v : value) : bool :=
  existsb (strict_eq_str v) l.

(** [validatePriority] *)
Definition validatePriority (priority : value) : option result :=
  if negb (truthy priority) || negb (includes validPriorities priority) then
    Some (reject "Priority must be High, Medium, or Low")
  else Some accept.

(** A result carries a reason exactly when it is a rejection. *)
Definition reasoned (r : result) : Prop := valid r = false <-> error r <> [].

(** A validator returned, and with a reasoned result. *)
Definition returns_reasoned (o : option result) : Prop :=
  exists r, o = Some r /\ reasoned r.

End Validators.

Import Validators.

(** ** What the specification says about titles *)

Module TitleSpec.

(** No leading and no trailing space. *)
Definition no_edge_space (s : jsstring) : Prop :=
  from_option is_space false (head s) = false /\
  from_option is_space false (last s) = false.

(** No two neighbouring spaces. *)
Definition no_double_space (s : jsstring) : Prop :=
  forall i a b,
    s !! i = Some a -> s !! S i = Some b ->
    is_space a = true -> is_space b = true -> False.

(** A word, a run of spaces and the same word again up to ASCII case, both
    occurrences delimited as words. *)
Definition repeated_word (s : jsstring) : Prop :=
  exists p w g w' r,
    s = p ++ w ++ g ++ w' ++ r /\
    w <> [] /\ Forall (fun c => is_word c = true) w /\
    g <> [] /\ Forall (fun c => is_space c = true) g /\
    map canon w = map canon w' /\
    from_option is_word false (last p) = false /\
    from_option is_word false (head r) = false.

(** The shape as a scan: [prev] tells whether the code unit just read was a
    space. *)
Fixpoint well_spaced (prev : bool) (s : jsstring) : bool :=
  match s with
  | [] => negb prev
  | c :: s' =>
      if is_space c then negb prev && well_spaced true s'
      else well_spaced false s'
  end.

(** The code unit left of the text that follows [p], [b] being the one left
    of [p]. *)
Definition before_of (b : option N) (p : jsstring) : option N :=
  match last p with Some c => Some c | None => b end.

(** [no_double_space], computed. *)
Fixpoint no_double_spaceb (s : jsstring) : bool :=
  match s with
  | a :: (b :: _) as s' => negb (is_space a && is_space b) && no_double_spaceb s'
  | _ => true
  end.

End TitleSpec.

(** ** What the specification says about due dates *)

Module DueDateSpec.

(** Day number of the local calendar day of [now], moved by [dy] years; the
    29th of February of a year without one counts as the 1st of March. *)
Definition anniversary (tza now dy : Z) : Z :=
  let l := now + tza in
  MakeDay (YearFromTime l + dy) (MonthFromTime l) (DateFromTime l).

(** From one year in the past to two years in the future. *)
Definition in_window (tza now y m d : Z) : Prop :=
  anniversary tza now (-1) <= MakeDay y (m - 1) d <= anniversary tza now 2.

End DueDateSpec.

(** Clock readings for the examples: ten in the morning, UTC, of the 2nd of
    November 2026 and of the 15th of June 2024; the zone two hours east. *)
Definition t_2026_11_02 : Z := MakeDate (MakeDay 2026 10 2) 36000000.
Definition t_2024_06_15 : Z := MakeDate (MakeDay 2024 5 15) 36000000.
Definition two_hours_east : Z := 7200000.

(** ** The storage module

    [localStorage] keeps the task array under one key, as the text
    [JSON.stringify] makes of it.  The text is held as an array it is the
    text of: [saveTasks] keeps of the tasks what JSON writes, and [loadTasks]
    gives what [JSON.parse] reads from the text, so nothing that JSON drops
    ever comes back.  The item is [None] when the key is absent or its text
    does not parse to an array.  A write can fail (the quota); [saveTasks]
    writes the tasks and then the version, so its outcome says which of the
    two writes threw, if any. *)

Module Storage.

Record storage : Type := {
  tasks_item : option (list obj);
  settings_item : option value;
  version_item : option jsstring
}.

Definition empty_storage : storage :=
  {| tasks_item := None; settings_item := None; version_item := None |}.

Definition CURRENT_VERSION : jsstring := lit "1.0.0".

Inductive write_outcome : Type :=
| WriteOk
| TasksWriteFails
| VersionWriteFails.

(** [JSON.stringify(tasks)], and [JSON.parse] of such a text. *)
Definition JSON_stringify (tasks : list obj) : list obj :=
  through_JSON_obj <$> tasks.
Definition JSON_parse (text : list obj) : list obj :=
  through_JSON_obj <$> text.

(** [loadTasks] *)
Definition loadTasks (st : storage) : list obj :=
  match tasks_item st with
  | None => []
  | Some data => JSON_parse data
  end.

(** [saveTasks] *)
Definition saveTasks (w : write_outcome) (tasks : list obj) (st : storage)
  : bool * storage :=
  match w with
  | TasksWriteFails => (false, st)
  | VersionWriteFails =>
      (false, {| tasks_item := Some (JSON_stringify tasks);
                 settings_item := settings_item st;
                 version_item := version_item st |})
  | WriteOk =>
      (true, {| tasks_item := Some (JSON_stringify tasks);
                settings_item := settings_item st;
                version_item := Some CURRENT_VERSION |})
  end.

(** [saveSettings], called with an object or an array; [ok] tells whether
    the write goes through. *)
Definition saveSettings (ok : bool) (settings : value) (st : storage)
  : bool * storage :=
  if ok then
    (true, {| tasks_item := tasks_item st;
              settings_item := Some (through_JSON settings);
              version_item := version_item st |})
  else (false, st).

Definition k_id : jsstring := lit "id".
Definition k_title : jsstring := lit "title".
Definition k_dueDate : jsstring := lit "dueDate".
Definition k_duration : jsstring := lit "duration".
Definition k_tag : jsstring := lit "tag".
Definition k_status : jsstring := lit "status".
Definition k_completed : jsstring := lit "completed".
Definition k_completedAt : jsstring := lit "completedAt".
Definition k_createdAt : jsstring := lit "createdAt".
Definition k_updatedAt : jsstring := lit "updatedAt".
Definition k_location : jsstring := lit "location".
Definition k_tasks : jsstring := lit "tasks".
Definition k_settings : jsstring := lit "settings".

(** [addTask]: [id] is what [generateId] returns and [created], [updated]
    are the two timestamps read from the clock.  In the object literal a
    later property replaces an earlier one of the same name. *)
Definition new_task (id created updated : jsstring) (taskData : obj) : obj :=
  <[k_updatedAt := VStr updated]>
    (<[k_createdAt := VStr created]>
       (<[k_completed := VBool false]>
          (<[k_status := or_else (get taskData k_status) (VStr (lit "Todo"))]>
             (taskData ∪ {[k_id := VStr id]})))).

Definition addTask (w : write_outcome) (id created updated : jsstring)
    (taskData : obj) (st : storage) : option obj * storage :=
  let tasks := loadTasks st in
  let task := new_task id created updated taskData in
  let '(saved, st') := saveTasks w (tasks ++ [task]) st in
  if saved then (Some task, st') else (None, st').

(** [tasks.findIndex((t) => t.id === id)] *)
Fixpoint findIndex (id : jsstring) (tasks : list obj) : option nat :=
  match tasks with
  | [] => None
  | t :: rest =>
      if strict_eq_str (get t k_id) id then Some 0%nat
      else S <$> findIndex id rest
  end.

(** [updateTask] *)
Definition updateTask (w : write_outcome) (updated : jsstring) (id : jsstring)
    (updates : obj) (st : storage) : option obj * storage :=
  let tasks := loadTasks st in
  match findIndex id tasks with
  | None => (None, st)
  | Some index =>
      match tasks !! index with
      | None => (None, st)
      | Some old =>
          let task := <[k_updatedAt := VStr updated]> (updates ∪ old) in
          let '(saved, st') := saveTasks w (<[index := task]> tasks) st in
          if saved then (Some task, st') else (None, st')
      end
  end.

(** [completeTask] *)
Definition completeTask (w : write_outcome) (completedAt updated : jsstring)
    (id : jsstring) (st : storage) : option obj * storage :=
  updateTask w updated id
    (<[k_completedAt := VStr completedAt]>
       (<[k_completed := VBool true]>
          {[k_status := VStr (lit "Completed")]})) st.

(** [uncompleteTask] *)
Definition uncompleteTask (w : write_outcome) (updated : jsstring)
    (id : jsstring) (st : storage) : option obj * storage :=
  updateTask w updated id
    (<[k_completedAt := VNull]>
       (<[k_completed := VBool false]>
          {[k_status := VStr (lit "Todo")]})) st.

(** The lifecycle operations as steps on the storage. *)
Inductive op : Type :=
| OpAdd (w : write_outcome) (id created updated : jsstring) (taskData : obj)
| OpUpdate (w : write_outcome) (updated id : jsstring) (updates : obj)
| OpComplete (w : write_outcome) (completedAt updated id : jsstring)
| OpUncomplete (w : write_outcome) (updated id : jsstring).

Definition step (o : op) (st : storage) : storage :=
  match o with
  | OpAdd w id c u d => snd (addTask w id c u d st)
  | OpUpdate w u id upd => snd (updateTask w u id upd st)
  | OpComplete w c u id => snd (completeTask w c u id st)
  | OpUncomplete w u id => snd (uncompleteTask w u id st)
  end.

Definition run (ops : list op) (st : storage) : storage :=
  fold_left (fun s o => step o s) ops st.

(** [completed == true] iff [status == "Completed"]. *)
Definition consistent (t : obj) : Prop :=
  get t k_completed = VBool true <-> get t k_status = VStr (lit "Completed").

(** Every stored task is consistent. *)
Definition coherent (st : storage) : Prop := Forall consistent (loadTasks st).

(** Operations that leave the two fields to the lifecycle: task data whose
    status is not ["Completed"], and updates that carry neither field. *)
Definition plain_op (o : op) : Prop :=
  match o with
  | OpAdd _ _ _ _ taskData => get taskData k_status <> VStr (lit "Completed")
  | OpUpdate _ _ _ updates =>
      updates !! k_status = None /\ updates !! k_completed = None
  | OpComplete _ _ _ _ | OpUncomplete _ _ _ => True
  end.

(** What an operation hands back to its caller. *)
Definition produced (o : op) (st : storage) : option obj :=
  match o with
  | OpAdd w id c u d => fst (addTask w id c u d st)
  | OpUpdate w u id upd => fst (updateTask w u id upd st)
  | OpComplete w c u id => fst (completeTask w c u id st)
  | OpUncomplete w u id => fst (uncompleteTask w u id st)
  end.

(** *** Import *)

Record import_result : Type := { success : bool; message : jsstring }.

Definition requiredFields : list jsstring :=
  [k_id; k_title; k_dueDate; k_duration; k_tag].

(** [field in task]: [None] is the TypeError of [in] on a primitive.  None
    of the five names is a member of [Object.prototype] or of an array. *)
Definition has_field (field : jsstring) (task : value) : option bool :=
  match task with
  | VObj m => Some (bool_decide (is_Some (m !! field)))
  | VArr _ => Some false
  | _ => None
  end.

Inductive field_check : Type :=
| FieldsPresent
| FieldMissing (field : jsstring)
| InThrows (task : value).

Fixpoint check_fields (fields : list jsstring) (task : value) : field_check :=
  match fields with
  | [] => FieldsPresent
  | f :: rest =>
      match has_field f task with
      | None => InThrows task
      | Some false => FieldMissing f
      | Some true => check_fields rest task
      end
  end.

Fixpoint check_tasks (tasks : list value) : field_check :=
  match tasks with
  | [] => FieldsPresent
  | t :: rest =>
      match check_fields requiredFields t with
      | FieldsPresent => check_tasks rest
      | other => other
      end
  end.

(** The objects of an array whose elements passed the check. *)
Definition as_objects (tasks : list value) : list obj :=
  omap (fun v => match v with VObj m => Some m | _ => None end) tasks.

Definition is_object (v : value) : bool :=
  match v with VObj _ | VArr _ => true | _ => false end.

(** A record carries the five required keys. *)
Definition has_required (t : obj) : Prop :=
  Forall (fun f => is_Some (t !! f)) requiredFields.

(** A record with the five required keys whose values no validator takes. *)
Definition unvalidated_task : obj :=
  list_to_map [(k_id, VStr (lit "t1")); (k_title, VStr []);
               (k_dueDate, VStr (lit "soon")); (k_duration, VNum 0);
               (k_tag, VStr (lit "x"))].

Section ImportData.

(** The text of the TypeError that [in] throws, which is the engine's. *)
Variable in_error_message : value -> jsstring.

(** [importData]; [ws] tells whether the write of the settings goes
    through. *)
Definition importData (w : write_outcome) (ws : bool) (data : value)
    (st : storage) : import_result * storage :=
  match data with
  | VObj m =>
      match get m k_tasks with
      | VArr tasks =>
          match check_tasks tasks with
          | FieldMissing f =>
              ({| success := false;
                  message := lit "Task missing required field: " ++ f |}, st)
          | InThrows t =>
              ({| success := false; message := in_error_message t |}, st)
          | FieldsPresent =>
              let '(saved, st1) := saveTasks w (as_objects tasks) st in
              if saved then
                let settings := get m k_settings in
                let st2 :=
                  if truthy settings && is_object settings
                  then snd (saveSettings ws settings st1) else st1 in
                ({| success := true;
                    message := lit "Successfully imported "
                               ++ number_to_string (Z.of_nat (length tasks))
                               ++ lit " tasks" |}, st2)
              else
                ({| success := false; message := lit "Failed to save tasks" |}, st1)
          end
      | _ =>
          ({| success := false;
              message := lit "Missing or invalid tasks array" |}, st)
      end
  | VArr _ =>
      ({| success := false; message := lit "Missing or invalid tasks array" |}, st)
  | _ => ({| success := false; message := lit "Invalid data format" |}, st)
  end.

End ImportData.

End Storage.

Import Storage.

(** ** Queries of the storage module *)

Module Queries.

Section Zone.

Variable LocalTZA : Z.
Variable legacy_parse : jsstring -> option Z.

(** [a >= b] and [a <= b] between a date that may be invalid and a valid
    one: a comparison with NaN is false. *)
Definition date_ge (a : option Z) (b : Z) : bool :=
  match a with Some x => b <=? x | None => false end.
Definition date_le (a : option Z) (b : Z) : bool :=
  match a with Some x => x <=? b | None => false end.

(** [getTasksDueInDays]; [days] is [None] when the argument is left out.
    The [catch] returns an empty array. *)
Definition getTasksDueInDays (now : Z) (days : option Z) (st : storage)
  : list obj :=
  let days := default 7 days in
  let tasks := loadTasks st in
  let today := setHours0 LocalTZA now in
  let futureDate := setDate LocalTZA today (getDate LocalTZA today + days) in
  default []
    (filter_throwing
       (fun t =>
          dueDate ← Date_of_value legacy_parse (get t k_dueDate);
          Some (date_ge dueDate today && date_le dueDate futureDate
                && negb (truthy (get t k_completed))))
       tasks).

End Zone.

(** The names every object literal inherits from [Object.prototype]; under
    each of them [grouped[name]] is a function, or the prototype itself,
    before anything is stored there. *)
Definition object_prototype_members : list jsstring :=
  [lit "constructor"; lit "__defineGetter__"; lit "__defineSetter__";
   lit "hasOwnProperty"; lit "__lookupGetter__"; lit "__lookupSetter__";
   lit "isPrototypeOf"; lit "propertyIsEnumerable"; lit "toString";
   lit "valueOf"; lit "__proto__"; lit "toLocaleString"].

(** One turn of the [forEach] of [getTasksByTagGrouped]; [None] is a
    TypeError: that of a tag that has no text to be a property name, or that
    of calling [push] on an inherited member. *)
Definition group_step (grouped : gmap jsstring (list obj)) (t : obj)
  : option (gmap jsstring (list obj)) :=
  key ← ToString (get t k_tag);
  match grouped !! key with
  | Some group => Some (<[key := group ++ [t]]> grouped)
  | None =>
      if bool_decide (key ∈ object_prototype_members) then None
      else Some (<[key := [t]]> grouped)
  end.

Fixpoint group_all (grouped : gmap jsstring (list obj)) (tasks : list obj)
  : option (gmap jsstring (list obj)) :=
  match tasks with
  | [] => Some grouped
  | t :: rest =>
      match group_step grouped t with
      | Some grouped' => group_all grouped' rest
      | None => None
      end
  end.

(** [getTasksByTagGrouped]: the [catch] returns an empty object. *)
Definition getTasksByTagGrouped (st : storage) : gmap jsstring (list obj) :=
  default ∅ (group_all ∅ (loadTasks st)).

(** All groups, one after the other. *)
Definition flatten (grouped : gmap jsstring (list obj)) : list obj :=
  concat (snd <$> map_to_list grouped).

(** The property name a task is grouped under, when its tag has a text. *)
Definition group_key (t : obj) : option jsstring := ToString (get t k_tag).

(** The tasks of a list that carry a key, in their order. *)
Definition tagged (k : jsstring) (tasks : list obj) : list obj :=
  List.filter (fun t => bool_decide (group_key t = Some k)) tasks.

(** The key of a task is no name inherited from [Object.prototype]. *)
Definition plain_key (t : obj) : Prop :=
  forall k, group_key t = Some k -> k ∉ object_prototype_members.

End Queries.

Import Queries.

(** ** Search, highlight and sort *)

Module Search.

(** A compiled pattern without the global and sticky flags, as the search
    box and [compileRegex] build them: [exec] gives the start and the length
    of the first match in a text. *)
Record regexp : Type := { exec : jsstring -> option (nat * nat) }.

(** [regex.test(v)], which converts [v] to a string first. *)
Definition test (r : regexp) (v : value) : option bool :=
  s ← ToString v;
  Some match exec r s with Some _ => true | None => false end.

Fixpoint prefixb (p s : jsstring) : bool :=
  match p, s with
  | [], _ => true
  | a :: p', b :: s' => (a =? b)%N && prefixb p' s'
  | _ :: _, [] => false
  end.

Fixpoint index_of (p s : jsstring) : option nat :=
  if prefixb p s then Some 0%nat
  else match s with
       | [] => None
       | _ :: s' => S <$> index_of p s'
       end.

(** The pattern compiled from a text without special characters, matching
    case. *)
Definition literal (p : jsstring) : regexp :=
  {| exec := fun s => (fun i => (i, length p)) <$> index_of p s |}.

Definition not_completed (t : obj) : bool := negb (truthy (get t k_completed)).

(** The status that [renderTaskCard] and [renderTaskRow] show in the badge of
    a task: [task.status || "Todo"]. *)
Definition status_badge (t : obj) : value :=
  or_else (get t k_status) (VStr (lit "Todo")).

(** [filterTasksByRegex]: the tasks it hands to [renderTasks]; [None] is an
    exception, which nothing catches. *)
Definition filterTasksByRegex (regex : option regexp) (st : storage)
  : option (list obj) :=
  let tasks := List.filter not_completed (loadTasks st) in
  match regex with
  | None => Some tasks
  | Some r =>
      filter_throwing
        (fun t =>
           or_test (test r (get t k_title))
          (or_test (test r (get t k_tag))
          (or_test (test r (get t k_dueDate))
          (or_test (test r (or_else (get t k_status) (VStr [])))
                   (test r (or_else (get t k_location) (VStr [])))))))
        tasks
  end.

(** The entity a special character is replaced with. *)
Definition escape_char (c : N) : jsstring :=
  if (c =? 38)%N then lit "&amp;"
  else if (c =? 60)%N then lit "&lt;"
  else if (c =? 62)%N then lit "&gt;"
  else if (c =? 34)%N then lit "&quot;"
  else if (c =? 39)%N then lit "&#39;"
  else [c].

Definition escape_html (s : jsstring) : jsstring := flat_map escape_char s.

(** [s.replace(regex, (match) => `<mark>${match}</mark>`)] for a pattern
    without the global flag: the first match only. *)
Definition mark_first (r : regexp) (s : jsstring) : jsstring :=
  match exec r s with
  | Some (i, n) =>
      take i s ++ lit "<mark>" ++ take n (drop i s) ++ lit "</mark>"
      ++ drop (i + n) s
  | None => s
  end.

(** [highlightMatches]: the [catch] returns the text as it came. *)
Definition highlightMatches (text : value) (regex : option regexp) : value :=
  match regex with
  | None => text
  | Some r =>
      if negb (truthy text) then text
      else match ToString text with
           | Some s => VStr (mark_first r (escape_html s))
           | None => text
           end
  end.

End Search.

Import Search.

Module Sort.

(** [a < b] on strings: by code units, a proper prefix first. *)
Fixpoint str_lt (a b : jsstring) : bool :=
  match a, b with
  | _, [] => false
  | [], _ :: _ => true
  | x :: a', y :: b' => (x <? y)%N || ((x =? y)%N && str_lt a' b')
  end.

(** [a < b] on numbers, [None] being NaN. *)
Definition num_lt (a b : option Z) : bool :=
  match a, b with
  | Some x, Some y => x <? y
  | _, _ => false
  end.

Definition is_hex (c : N) : bool :=
  (is_digit c || (65 <=? c) && (c <=? 70) || (97 <=? c) && (c <=? 102))%N.

Definition hex_value (c : N) : Z :=
  if is_digit c then Z.of_N c - 48
  else if (c <=? 70)%N then Z.of_N c - 55
  else Z.of_N c - 87.

Fixpoint take_hex (s : jsstring) : jsstring :=
  match s with
  | c :: s' => if is_hex c then c :: take_hex s' else []
  | [] => []
  end.

(** [parseInt] of a string without a radix: leading space is skipped, a
    sign is read, then hexadecimal digits after [0x] or else decimal digits,
    and the result is the Number value of the integer read; [None] is
    NaN. *)
Definition parseInt_of_string (s : jsstring) : option Z :=
  let s1 := trimStart s in
  let '(sign, s2) :=
    match s1 with
    | 45%N :: r => (-1, r)
    | 43%N :: r => (1, r)
    | _ => (1, s1)
    end in
  match s2 with
  | 48%N :: x :: r =>
      if ((x =? 120) || (x =? 88))%N then
        match take_hex r with
        | [] => None
        | ds =>
            Some (Number_of
                    (sign * fold_left (fun acc c => 16 * acc + hex_value c) ds 0))
        end
      else
        match take_digits s2 with
        | [] => None
        | ds => Some (Number_of (sign * digits_value ds))
        end
  | _ =>
      match take_digits s2 with
      | [] => None
      | ds => Some (Number_of (sign * digits_value ds))
      end
  end.

(** [parseInt(v)]: the text of [v] is parsed; the outer [None] is the
    TypeError of a value that has no text. *)
Definition parseInt (v : value) : option (option Z) :=
  s ← ToString v; Some (parseInt_of_string s).

(** ASCII letters to lower case, the other code units unchanged. *)
Definition ascii_lower (s : jsstring) : jsstring :=
  map (fun c => if is_upper c then (c + 32)%N else c) s.

(** *** The sort of the engine

    V8 sorts an array shorter than 64 elements by taking the run it starts
    with, reversed when it descends, and inserting every further element by
    binary search.  A comparator that throws ends the sort: [None]. *)

Section EngineSort.

Context {A : Type}.
Variable comparefn : A -> A -> option Z.

(** The rest of the run after [prev]: what belongs to it and what is left. *)
Fixpoint run_rest (descending : bool) (prev : A) (l : list A)
  : option (list A * list A) :=
  match l with
  | [] => Some ([], [])
  | x :: l' =>
      order ← comparefn x prev;
      if (if descending then 0 <=? order else order <? 0) then Some ([], l)
      else '(run, rest) ← run_rest descending x l'; Some (x :: run, rest)
  end.

Definition count_and_make_run (l : list A) : option (list A * list A) :=
  match l with
  | [] => Some ([], [])
  | [x] => Some ([x], [])
  | low :: x :: l' =>
      order ← comparefn x low;
      let descending := order <? 0 in
      '(run, rest) ← run_rest descending x l';
      let whole := low :: x :: run in
      Some (if descending then rev whole else whole, rest)
  end.

(** Binary search of the place of [pivot] among [sorted]. *)
Fixpoint search_place (fuel : nat) (pivot : A) (sorted : list A)
    (left right : nat) : option nat :=
  match fuel with
  | O => Some left
  | S fuel' =>
      if (left <? right)%nat then
        let mid := (left + (right - left) / 2)%nat in
        match sorted !! mid with
        | None => Some left
        | Some x =>
            order ← comparefn pivot x;
            if order <? 0 then search_place fuel' pivot sorted left mid
            else search_place fuel' pivot sorted (mid + 1) right
        end
      else Some left
  end.

Definition binary_insert (sorted : list A) (pivot : A) : option (list A) :=
  place ← search_place (S (length sorted)) pivot sorted 0 (length sorted);
  Some (take place sorted ++ pivot :: drop place sorted).

Fixpoint insert_all (sorted rest : list A) : option (list A) :=
  match rest with
  | [] => Some sorted
  | pivot :: rest' =>
      sorted' ← binary_insert sorted pivot; insert_all sorted' rest'
  end.

Definition v8_sort (l : list A) : option (list A) :=
  '(run, rest) ← count_and_make_run l; insert_all run rest.

End EngineSort.

Section SortTasks.

Variable legacy_parse : jsstring -> option Z.

(** [String.prototype.toLowerCase] of the engine. *)
Variable toLowerCase : jsstring -> jsstring.

(** [Array.prototype.sort] of the engine, on a copy of the array. *)
Variable array_sort : (obj -> obj -> option Z) -> list obj -> option (list obj).

(** [x.title.toLowerCase()]: a TypeError unless the title is a string. *)
Definition lower_title (t : obj) : option jsstring :=
  match get t k_title with
  | VStr s => Some (toLowerCase s)
  | _ => None
  end.

Definition decide_order (order : jsstring) (a_gt_b a_lt_b : bool) : Z :=
  if bool_decide (order = lit "asc") then (if a_gt_b then 1 else -1)
  else (if a_lt_b then 1 else -1).

(** The comparator of [sortTasks]. *)
Definition compareTasks (field order : jsstring) (a b : obj) : option Z :=
  if bool_decide (field = k_dueDate) then
    aVal ← Date_of_value legacy_parse (get a k_dueDate);
    bVal ← Date_of_value legacy_parse (get b k_dueDate);
    Some (decide_order order (num_lt bVal aVal) (num_lt aVal bVal))
  else if bool_decide (field = k_title) then
    aVal ← lower_title a;
    bVal ← lower_title b;
    Some (decide_order order (str_lt bVal aVal) (str_lt aVal bVal))
  else if bool_decide (field = k_duration) then
    aVal ← parseInt (get a k_duration);
    bVal ← parseInt (get b k_duration);
    Some (decide_order order (num_lt bVal aVal) (num_lt aVal bVal))
  else Some 0.

(** [sortTasks]: the sorted copy it hands to [renderTasks]; [order] is
    [None] when the argument is left out. *)
Definition sortTasks (field : jsstring) (order : option jsstring)
    (st : storage) : option (list obj) :=
  let order := default (lit "asc") order in
  let tasks := List.filter not_completed (loadTasks st) in
  array_sort (compareTasks field order) tasks.

End SortTasks.

End Sort.

Import Sort.

(** ** What the specification says about sorting *)

Module SortSpec.

Inductive sort_key : Type :=
| KeyNum (n : Z)
| KeyStr (s : jsstring).

Definition key_lt (a b : sort_key) : Prop :=
  match a, b with
  | KeyNum x, KeyNum y => x < y
  | KeyStr x, KeyStr y => str_lt x y = true
  | _, _ => False
  end.

(** [key_lt], computed. *)
Definition key_ltb (a b : sort_key) : bool :=
  match a, b with
  | KeyNum x, KeyNum y => x <? y
  | KeyStr x, KeyStr y => str_lt x y
  | _, _ => false
  end.

(** Two keys of one field: both numbers or both strings. *)
Definition same_kind (a b : sort_key) : Prop :=
  match a, b with
  | KeyNum _, KeyNum _ | KeyStr _, KeyStr _ => True
  | _, _ => False
  end.

Section Keys.

Variable legacy_parse : jsstring -> option Z.
Variable toLowerCase : jsstring -> jsstring.

(** The key of a task under a sort field: the due date as a time value, the
    title in lower case, the duration as the number [parseInt] reads; none
    when the field holds no such thing. *)
Definition key_of (field : jsstring) (t : obj) : option sort_key :=
  if bool_decide (field = k_dueDate) then
    KeyNum <$> mjoin (Date_of_value legacy_parse (get t k_dueDate))
  else if bool_decide (field = k_title) then
    match get t k_title with
    | VStr s => Some (KeyStr (toLowerCase s))
    | _ => None
    end
  else if bool_decide (field = k_duration) then
    KeyNum <$> mjoin (parseInt (get t k_duration))
  else None.

(** [a] comes strictly before [b] in the order asked for. *)
Definition before (field order : jsstring) (a b : obj) : Prop :=
  exists ka kb,
    key_of field a = Some ka /\ key_of field b = Some kb /\
    if bool_decide (order = lit "asc") then key_lt ka kb else key_lt kb ka.

(** Every task has a key and no two tasks share one. *)
Definition distinct_keys (field : jsstring) (tasks : list obj) : Prop :=
  Forall (fun t => is_Some (key_of field t)) tasks /\
  NoDup (key_of field <$> tasks).

End Keys.

(** What every engine's sort does on distinct elements that the comparator
    orders consistently: it returns them sorted. *)
Definition sorts_distinct
    (array_sort : (obj -> obj -> option Z) -> list obj -> option (list obj))
  : Prop :=
  forall (comparefn : obj -> obj -> option Z) (lt : obj -> obj -> Prop)
         (l : list obj),
    NoDup l ->
    (forall x y z, lt x y -> lt y z -> lt x z) ->
    (forall x y, x ∈ l -> y ∈ l -> x <> y ->
                 exists c, comparefn x y = Some c /\
                           ((c < 0 /\ lt x y) \/ (0 < c /\ lt y x))) ->
    exists l', array_sort comparefn l = Some l' /\ l' ≡ₚ l /\ StronglySorted lt l'.

Section Runs.

Context {A : Type}.
Variable lt : A -> A -> Prop.

(** The order a run of the engine's sort is read in. *)
Definition run_order (descending : bool) (a b : A) : Prop :=
  if descending then lt b a else lt a b.

(** In a binary search for the place of [pivot]: left of [left] everything
    is below the pivot, from [right] on everything is above it. *)
Definition brackets (pivot : A) (sorted : list A) (left right : nat) : Prop :=
  (forall i x, sorted !! i = Some x -> (i < left)%nat -> lt x pivot) /\
  (forall i x, sorted !! i = Some x -> (right <= i)%nat -> lt pivot x).

End Runs.

End SortSpec.

(** A task for the examples, its title being its id, and a storage that
    holds the given tasks. *)
Definition task_of (id : string) (minutes : Z) : obj :=
  list_to_map [(k_id, VStr (lit id)); (k_title, VStr (lit id));
               (k_duration, VNum minutes)].

Definition storage_of (tasks : list obj) : storage :=
  {| tasks_item := Some tasks; settings_item := None; version_item := None |}.

(** ** The rest of the storage module: single tasks *)

Module Tasks.

(** [t.id === id] for a string [id]. *)
Definition has_id (id : jsstring) (t : obj) : bool := strict_eq_str (get t k_id) id.

(** [deleteTask] *)
Definition deleteTask (w : write_outcome) (id : jsstring) (st : storage)
  : bool * storage :=
  let tasks := loadTasks st in
  let filtered := List.filter (fun t => negb (has_id id t)) tasks in
  if (length filtered =? length tasks)%nat then (false, st)
  else saveTasks w filtered st.

(** [getTask]: [None] is [null]. *)
Definition getTask (id : jsstring) (st : storage) : option obj :=
  List.find (has_id id) (loadTasks st).

(** [clearTasks] *)
Definition clearTasks (st : storage) : bool * storage :=
  (true, {| tasks_item := None;
            settings_item := settings_item st;
            version_item := version_item st |}).

(** [generateId]: [timestamp] is what [Date.now()] returns and [random] the
    floor of [Math.random() * 10000]; [prefix] is [None] when the argument is
    left out. *)
Definition generateId (prefix : option jsstring) (timestamp random : Z)
  : jsstring :=
  default (lit "task") prefix ++ lit "_" ++ number_to_string timestamp
  ++ lit "_" ++ number_to_string random.

End Tasks.

Import Tasks.

(** ** The rest of the storage module: queries and statistics *)

Module Statistics.

(** [a >= b] and [a <= b] on time values, [None] being an invalid date. *)
Definition num_le (a b : option Z) : bool :=
  match a, b with
  | Some x, Some y => x <=? y
  | _, _ => false
  end.

Section Zone.

Variable legacy_parse : jsstring -> option Z.

(** [getTasksByDateRange], called with two [Date] objects.  The [catch]
    returns an empty array. *)
Definition getTasksByDateRange (startDate endDate : option Z) (st : storage)
  : list obj :=
  default []
    (filter_throwing
       (fun t =>
          taskDate ← Date_of_value legacy_parse (get t k_dueDate);
          Some (num_le startDate taskDate && num_le taskDate endDate))
       (loadTasks st)).

End Zone.

(** [getTasksByTag], called with a string. *)
Definition getTasksByTag (tag : jsstring) (st : storage) : list obj :=
  List.filter (fun t => strict_eq_str (get t k_tag) tag) (loadTasks st).

(** [getTasksByStatus], called with a string. *)
Definition getTasksByStatus (status : jsstring) (st : storage) : list obj :=
  List.filter (fun t => strict_eq_str (get t k_status) status) (loadTasks st).

(** [v === true] *)
Definition strict_eq_true (v : value) : bool :=
  match v with VBool true => true | _ => false end.

(** [getCompletedTasks] *)
Definition getCompletedTasks (st : storage) : list obj :=
  List.filter (fun t => strict_eq_true (get t k_completed)) (loadTasks st).

(** [a + b] on numbers, [None] being NaN.  The sum is kept exact, which is
    what [+] gives while it stays below 2^53 in magnitude. *)
Definition num_add (a b : option Z) : option Z :=
  match a, b with
  | Some x, Some y => Some (x + y)
  | _, _ => None
  end.

(** The [reduce] of [calculateTotalDuration] from a sum on; the outer [None]
    is the TypeError of a duration that has no text. *)
Fixpoint add_durations (sum : option Z) (data : list obj) : option (option Z) :=
  match data with
  | [] => Some sum
  | t :: rest =>
      minutes ← parseInt (get t k_duration);
      add_durations (num_add sum minutes) rest
  end.

(** [calculateTotalDuration]; [tasks] is [None] when the argument is left
    out or [null].  The [catch] returns 0. *)
Definition calculateTotalDuration (tasks : option (list obj)) (st : storage)
  : option Z :=
  let data := default (loadTasks st) tasks in
  default (Some 0) (add_durations (Some 0) data).

(** [(v || 0) + 1]: a sum of numbers, or a concatenation as soon as one side
    is a string or turns into one; [None] is the TypeError of an object that
    has no primitive. *)
Definition plus_one (v : value) : option value :=
  match or_else v (VNum 0) with
  | VNum n => Some (VNum (n + 1))
  | VBool b => Some (VNum ((if b then 1 else 0) + 1))
  | VStr s => Some (VStr (s ++ lit "1"))
  | VArr _ | VObj _ => s ← ToString v; Some (VStr (s ++ lit "1"))
  | VNull | VUndef => Some (VNum 1)
  end.

(** What the counts hold while the loop runs: numbers, and the texts that
    come of inherited members. *)
Definition countable (v : value) : Prop :=
  (exists n, v = VNum n) \/ (exists s, v = VStr s).

Section Counts.

(** The text the engine renders the member of [Object.prototype] of a given
    name with. *)
Variable member_text : jsstring -> jsstring.

(** One turn of the [forEach] of [getTaskCountsByTag]; [None] is the
    TypeError of a tag that has no text to be a property name.  Under a name
    inherited from [Object.prototype] the first read finds the inherited
    member, which is truthy and is turned into text by [+]; assigning to
    [__proto__] a text stores nothing. *)
Definition count_step (counts : gmap jsstring value) (t : obj)
  : option (gmap jsstring value) :=
  key ← ToString (get t k_tag);
  match counts !! key with
  | Some v => count ← plus_one v; Some (<[key := count]> counts)
  | None =>
      if bool_decide (key = lit "__proto__") then Some counts
      else if bool_decide (key ∈ object_prototype_members) then
        Some (<[key := VStr (member_text key ++ lit "1")]> counts)
      else count ← plus_one VUndef; Some (<[key := count]> counts)
  end.

Fixpoint count_all (counts : gmap jsstring value) (tasks : list obj)
  : option (gmap jsstring value) :=
  match tasks with
  | [] => Some counts
  | t :: rest =>
      match count_step counts t with
      | Some counts' => count_all counts' rest
      | None => None
      end
  end.

(** [getTaskCountsByTag]: the [catch] returns an empty object. *)
Definition getTaskCountsByTag (st : storage) : gmap jsstring value :=
  default ∅ (count_all ∅ (loadTasks st)).

End Counts.

End Statistics.

Import Statistics.

(** ** The rest of the validation module *)

Module Helpers.

Definition k_priority : jsstring := lit "priority".

(** What [validateTask] returns: the source's [valid] and [errors], an error
    being a field name and a message. *)
Module Checked.
Record t : Type := { valid : bool; errors : list (jsstring * jsstring) }.
End Checked.

(** [if (!r.valid) errors.push({ field, message: r.error })] *)
Definition push_unless_valid (field : jsstring) (r : result)
    (errors : list (jsstring * jsstring)) : list (jsstring * jsstring) :=
  if valid r then errors else errors ++ [(field, error r)].

Section Clock.

Variable LocalTZA : Z.

(** The errors [validateTask] collects; [t_today], [t_past] and [t_future]
    are the clock readings of [validateDueDate].  [None] stands for a thrown
    exception, as in the validators. *)
Definition task_errors (t_today t_past t_future : Z) (task : obj)
  : option (list (jsstring * jsstring)) :=
  titleResult ← validateTitle (get task k_title);
  let errors := push_unless_valid k_title titleResult [] in
  durationResult ← validateDuration (get task k_duration);
  let errors := push_unless_valid k_duration durationResult errors in
  dateResult ← validateDueDateAt LocalTZA t_today t_past t_future (get task k_dueDate);
  let errors := push_unless_valid k_dueDate dateResult errors in
  tagResult ← validateTag (get task k_tag);
  let errors := push_unless_valid k_tag tagResult errors in
  if truthy (get task k_priority) then
    priorityResult ← validatePriority (get task k_priority);
    Some (push_unless_valid k_priority priorityResult errors)
  else Some errors.

(** [validateTask] *)
Definition validateTask (t_today t_past t_future : Z) (task : obj)
  : option Checked.t :=
  errors ← task_errors t_today t_past t_future task;
  Some {| Checked.valid := Nat.eqb (length errors) 0; Checked.errors := errors |}.

End Clock.

(** [sanitizeInput] *)
Definition sanitizeInput (input : value) : jsstring :=
  match input with
  | VStr s =>
      take 200 (List.filter (fun c => negb ((c =? 60) || (c =? 62))%N) (trim s))
  | _ => []
  end.

(** [minutesToHours] on a number: [Math.floor] of the quotient, and the
    remainder of [%], which has the sign of the dividend. *)
Definition minutesToHours (minutes : Z) : jsstring :=
  let hours := minutes / 60 in
  let mins := Z.rem minutes 60 in
  if hours =? 0 then number_to_string mins ++ lit "min"
  else if mins =? 0 then number_to_string hours ++ lit "h"
  else number_to_string hours ++ lit "h " ++ number_to_string mins ++ lit "min".

(** What [text.match(TAG_FILTER_REGEX)] captures, [/^@tag:(\w+)$/i]: the
    letters of [tag] in either case, then word characters to the end. *)
Definition TAG_FILTER_match (text : jsstring) : option jsstring :=
  match text with
  | c1 :: c2 :: c3 :: c4 :: c5 :: w =>
      if (c1 =? 64)%N && (canon c2 =? 84)%N && (canon c3 =? 65)%N
         && (canon c4 =? 71)%N && (c5 =? 58)%N
         && negb (Nat.eqb (length w) 0) && forallb is_word w
      then Some w else None
  | _ => None
  end.

Section Engine.

(** [String.prototype.toLowerCase] of the engine. *)
Variable toLowerCase : jsstring -> jsstring.

(** [matchesTagFilter], called with a string; [None] is the TypeError of
    [task.tag.toLowerCase()] on a tag that is not a string. *)
Definition matchesTagFilter (text : jsstring) (task : obj) : option bool :=
  match TAG_FILTER_match text with
  | None => Some false
  | Some w =>
      let filterTag := toLowerCase w in
      match get task k_tag with
      | VStr tag => Some (bool_decide (toLowerCase tag = filterTag))
      | _ => None
      end
  end.

End Engine.

(** One attempt of [/\b\d{2}:\d{2}\b/] at a start position: [before] is the
    code unit left of the position, [rest] the text from it. *)
Definition time_token_at (before : option N) (rest : jsstring) : bool :=
  match rest with
  | d1 :: d2 :: c :: d3 :: d4 :: after =>
      at_boundary before (Some d1)
      && is_digit d1 && is_digit d2 && (c =? 58)%N && is_digit d3 && is_digit d4
      && at_boundary (Some d4) (head after)
  | _ => false
  end.

Fixpoint time_token_from (before : option N) (rest : jsstring) : bool :=
  time_token_at before rest ||
  match rest with
  | [] => false
  | c :: rest' => time_token_from (Some c) rest'
  end.

(** [hasTimeToken]; [None] is the TypeError of [String(text)]. *)
Definition hasTimeToken (text : value) : option bool :=
  s ← ToString text; Some (time_token_from None s).

(** [hasDuplicateWords]; [None] is the TypeError of [String(text)]. *)
Definition hasDuplicateWords (text : value) : option bool :=
  s ← ToString text; Some (DUPLICATE_WORD_test s).

End Helpers.

Import Helpers.

(** ** What the helpers of the validation module look for *)

Module HelperSpec.

(** Two digits, a colon and two digits, with no word character on either
    side. *)
Definition time_token (s : jsstring) : Prop :=
  exists p d1 d2 d3 d4 r,
    s = p ++ [d1; d2; 58%N; d3; d4] ++ r /\
    Forall (fun c => is_digit c = true) [d1; d2; d3; d4] /\
    from_option is_word false (last p) = false /\
    from_option is_word false (head r) = false.

End HelperSpec.

Import HelperSpec.

(** ** The rest of the storage module: settings and export *)

Module Transfer.

Definition k_timeUnit : jsstring := lit "timeUnit".
Definition k_weeklyTarget : jsstring := lit "weeklyTarget".
Definition k_theme : jsstring := lit "theme".
Definition k_version : jsstring := lit "version".
Definition k_exportDate : jsstring := lit "exportDate".

(** The [defaults] of [loadSettings]. *)
Definition defaults : obj :=
  list_to_map [(k_timeUnit, VStr (lit "minutes")); (k_weeklyTarget, VNum 40);
               (k_theme, VStr (lit "light"))].

(** The elements of an array or the code units of a string under their
    indices. *)
Definition indexed (l : list value) : obj :=
  list_to_map (imap (fun i v => (number_to_string (Z.of_nat i), v)) l).

(** What [{...v}] copies: the own properties of an object, the elements of an
    array, the code units of a string, nothing of another value. *)
Definition spread (v : value) : obj :=
  match v with
  | VObj m => m
  | VArr l => indexed l
  | VStr s => indexed ((fun c => VStr [c]) <$> s)
  | _ => ∅
  end.

(** [loadSettings]: the stored settings over the defaults.  The settings
    item holds a value it is the JSON text of, like the task item, and is
    [None] when the key is absent or its text does not parse. *)
Definition loadSettings (st : storage) : obj :=
  match settings_item st with
  | None => defaults
  | Some settings => spread (through_JSON settings) ∪ defaults
  end.

(** [exportData]; [exportDate] is the timestamp read from the clock. *)
Definition exportData (exportDate : jsstring) (st : storage) : value :=
  VObj (list_to_map [(k_version, VStr CURRENT_VERSION);
                     (k_exportDate, VStr exportDate);
                     (k_tasks, VArr (VObj <$> loadTasks st));
                     (k_settings, VObj (loadSettings st))]).

End Transfer.

Import Transfer.

(** ** The task form and the handlers of the application *)

Module App.

(** The values of the six inputs of the task form. *)
Record form : Type := {
  title_input : jsstring;
  dueDate_input : jsstring;
  duration_input : jsstring;
  tag_input : jsstring;
  priority_input : jsstring;
  location_input : jsstring
}.

(** The [formData] of [handleTaskSubmit]. *)
Definition formData (f : form) : obj :=
  list_to_map [(k_title, VStr (trim (title_input f)));
               (k_dueDate, VStr (trim (dueDate_input f)));
               (k_duration, VStr (trim (duration_input f)));
               (k_tag, VStr (tag_input f));
               (k_priority, VStr (priority_input f));
               (k_location, VStr (trim (location_input f)))].

Inductive submitted : Type :=
| ErrorsShown (errors : list (jsstring * jsstring))
| TaskSaved (task : obj)
| SaveFailed.

Section Clock.

Variable LocalTZA : Z.

(** [validateTaskForm] *)
Definition validateTaskForm (t_today t_past t_future : Z) (data : obj)
  : option (list (jsstring * jsstring)) :=
  titleResult ← validateTitle (get data k_title);
  let errors := push_unless_valid k_title titleResult [] in
  durationResult ← validateDuration (get data k_duration);
  let errors := push_unless_valid k_duration durationResult errors in
  dateResult ← validateDueDateAt LocalTZA t_today t_past t_future (get data k_dueDate);
  let errors := push_unless_valid k_dueDate dateResult errors in
  tagResult ← validateTag (get data k_tag);
  let errors := push_unless_valid k_tag tagResult errors in
  if truthy (get data k_priority) then
    priorityResult ← validatePriority (get data k_priority);
    Some (push_unless_valid k_priority priorityResult errors)
  else Some errors.

(** [handleTaskSubmit]: what it shows and what it leaves in the storage.
    [editingId] is the [id] parameter of the page address, [None] when there
    is none, and an empty one counts as none; [id], [created] and [updated]
    are the generated id and the clock readings of the save that follows. *)
Definition handleTaskSubmit (t_today t_past t_future : Z) (w : write_outcome)
    (id created updated : jsstring) (editingId : option jsstring) (f : form)
    (st : storage) : option (submitted * storage) :=
  let data := formData f in
  errors ← validateTaskForm t_today t_past t_future data;
  if (0 <? length errors)%nat then Some (ErrorsShown errors, st)
  else
    let '(result, st') :=
      match editingId with
      | Some (c :: e) => updateTask w updated (c :: e) data st
      | _ => addTask w id created updated data st
      end in
    match result with
    | Some task => Some (TaskSaved task, st')
    | None => Some (SaveFailed, st')
    end.

(** [saveSettingsData]: what it stores.  [weeklyTarget] is the number that
    [parseFloat] reads from the input, integer-valued as every number here,
    [None] being NaN, which JSON stores as [null]. *)
Definition saveSettingsData (ok : bool) (timeUnit : jsstring)
    (weeklyTarget : option Z) (st : storage) : bool * storage :=
  saveSettings ok
    (VObj (list_to_map [(k_timeUnit, VStr timeUnit);
                        (k_weeklyTarget, from_option VNum VNull weeklyTarget)]))
    st.

(** What the user can do to the storage: submit the task form, complete a
    task, undo that, delete a task, clear the tasks, import a file, save the
    settings form.  The data of an import is what [JSON.parse] reads from
    the file: the file is held as a value it is the JSON text of. *)
Inductive event : Type :=
| Submit (t_today t_past t_future : Z) (w : write_outcome)
         (id created updated : jsstring) (editingId : option jsstring) (f : form)
| Complete (w : write_outcome) (completedAt updated id : jsstring)
| Uncomplete (w : write_outcome) (updated id : jsstring)
| Delete (w : write_outcome) (id : jsstring)
| Clear
| Import (in_error_message : value -> jsstring) (w : write_outcome) (ws : bool)
         (data : value)
| SaveSettings (ok : bool) (timeUnit : jsstring) (weeklyTarget : option Z).

Definition react (e : event) (st : storage) : storage :=
  match e with
  | Submit t0 t1 t2 w id c u editingId f =>
      match handleTaskSubmit t0 t1 t2 w id c u editingId f st with
      | Some (_, st') => st'
      | None => st
      end
  | Complete w c u id => snd (completeTask w c u id st)
  | Uncomplete w u id => snd (uncompleteTask w u id st)
  | Delete w id => snd (deleteTask w id st)
  | Clear => snd (clearTasks st)
  | Import msg w ws data => snd (importData msg w ws (through_JSON data) st)
  | SaveSettings ok timeUnit weeklyTarget =>
      snd (saveSettingsData ok timeUnit weeklyTarget st)
  end.

Definition session (events : list event) (st : storage) : storage :=
  fold_left (fun s e => react e s) events st.

End Clock.

End App.

Import App.

(** ** What the task list shows *)

Module Display.

Section Engine.

Variable legacy_parse : jsstring -> option Z.

(** [Array.prototype.sort] of the engine, on a copy of the array. *)
Variable array_sort : (obj -> obj -> option Z) -> list obj -> option (list obj).

(** [(a, b) => new Date(a.dueDate) - new Date(b.dueDate)]: a difference that
    is NaN counts as zero in a sort; [None] is the TypeError of a due date
    that has no primitive. *)
Definition by_due_date (a b : obj) : option Z :=
  aDate ← Date_of_value legacy_parse (get a k_dueDate);
  bDate ← Date_of_value legacy_parse (get b k_dueDate);
  Some match aDate, bDate with
       | Some x, Some y => x - y
       | _, _ => 0
       end.

(** [renderTasks]: the tasks in the order their cards and rows are appended;
    [tasks] is [None] when the argument is left out or [null]. *)
Definition renderTasks (tasks : option (list obj)) (st : storage)
  : option (list obj) :=
  let data := default (List.filter not_completed (loadTasks st)) tasks in
  if Nat.eqb (length data) 0 then Some []
  else array_sort by_due_date data.

End Engine.

End Display.

Import Display.

(** Two tasks for the examples: the one that comes first by title is due
    last. *)
Definition essay_task : obj :=
  list_to_map [(k_id, VStr (lit "t1")); (k_title, VStr (lit "Essay"));
               (k_dueDate, VStr (lit "2026-12-05"))].

Definition quiz_task : obj :=
  list_to_map [(k_id, VStr (lit "t2")); (k_title, VStr (lit "Quiz"));
               (k_dueDate, VStr (lit "2026-12-01"))].

(** ** What the specification says about tags *)

Module TagSpec.

Definition is_separator (c : N) : bool := ((c =? 32) || (c =? 45))%N.

(** Letters, and single spaces or hyphens that stand between letters: every
    code unit is a letter or a separator, the first and the last are
    letters, and no two separators are neighbours. *)
Definition tag_text (t : jsstring) : Prop :=
  Forall (fun c => is_alpha c = true \/ is_separator c = true) t /\
  from_option is_alpha false (head t) = true /\
  from_option is_alpha false (last t) = true /\
  (forall i a b, t !! i = Some a -> t !! S i = Some b ->
                 is_separator a = true -> is_separator b = true -> False).

(** The shape as a scan: [after_letter] tells whether the code unit just
    read was a letter. *)
Fixpoint tag_scan (after_letter : bool) (t : jsstring) : bool :=
  match t with
  | [] => after_letter
  | c :: r =>
      if is_alpha c then tag_scan true r
      else is_separator c && after_letter && tag_scan false r
  end.

End TagSpec.

(** * Properties *)

Ltac divmod := Z.div_mod_to_equations; lia.

Lemma month_cases m :
  0 <= m <= 11 ->
  m = 0 \/ m = 1 \/ m = 2 \/ m = 3 \/ m = 4 \/ m = 5 \/ m = 6 \/ m = 7 \/
  m = 8 \/ m = 9 \/ m = 10 \/ m = 11.
Proof. lia. Qed.

Ltac each_month H :=
  apply month_cases in H;
  destruct H as [->|[->|[->|[->|[->|[->|[->|[->|[->|[->|[->| ->]]]]]]]]]]].

Ltac zconst :=
  repeat match goal with
         | |- context [Z.add (Zpos ?a) (Zpos ?b)] =>
             let r := eval vm_compute in (Z.add (Zpos a) (Zpos b)) in
             change (Z.add (Zpos a) (Zpos b)) with r
         | |- context [Z.add Z0 (Zpos ?b)] =>
             change (Z.add Z0 (Zpos b)) with (Zpos b)
         end.

Ltac zconst_in H :=
  repeat match type of H with
         | context [Z.add (Zpos ?a) (Zpos ?b)] =>
             let r := eval vm_compute in (Z.add (Zpos a) (Zpos b)) in
             change (Z.add (Zpos a) (Zpos b)) with r in H
         | context [Z.add Z0 (Zpos ?b)] =>
             change (Z.add Z0 (Zpos b)) with (Zpos b) in H
         end.

(** ** The examples of the specification, run on the code *)

Section Examples.

Example validateTitle_rejections :
  validateTitle (VStr []) = Some (reject "Title is required") /\
  validateTitle (VStr (lit "ab"))
  = Some (reject "Title must be at least 3 characters") /\
  validateTitle (VStr (lit " abc"))
  = Some (reject "Title cannot have leading or trailing spaces") /\
  validateTitle (VStr (lit "abc  def"))
  = Some (reject "Title cannot contain consecutive spaces") /\
  validateTitle (VStr (lit "go go now"))
  = Some (reject "Title contains duplicate words").
Proof. repeat split; vm_compute; reflexivity. Qed.

(** The words of the duplicate-word pattern are runs of [\w], so a hyphen
    ends one. *)
Example validateTitle_hyphenated :
  validateTitle (VStr (lit "a-b b-c"))
  = Some (reject "Title contains duplicate words").
Proof. vm_compute. reflexivity. Qed.

Example validateDuration_examples :
  valid <$> validateDuration (VStr (lit "0")) = Some false /\
  valid <$> validateDuration (VStr (lit "-5")) = Some false /\
  valid <$> validateDuration (VStr (lit "1441")) = Some false /\
  valid <$> validateDuration (VStr (lit "abc")) = Some false /\
  validateDuration (VStr (lit "1")) = Some accept /\
  validateDuration (VStr (lit "1440")) = Some accept.
Proof. repeat split; vm_compute; reflexivity. Qed.

Example validateTag_examples :
  validateTag (VStr (lit "AI"))
  = Some (reject "Tag must be at least 3 characters") /\
  validateTag (VStr (lit "Health & Fitness"))
  = Some (reject "Tag can only contain letters, spaces, or hyphens") /\
  validateTag (VStr (lit "Health-Fitness")) = Some accept.
Proof. repeat split; vm_compute; reflexivity. Qed.

Example validatePriority_examples :
  validatePriority (VStr (lit "High")) = Some accept /\
  validatePriority (VStr (lit "high"))
  = Some (reject "Priority must be High, Medium, or Low").
Proof. split; vm_compute; reflexivity. Qed.

(** The fields of a day: the 29th of February 2024, the day after it under
    the name of the 30th, the epoch, the instant before it, and years far
    from it. *)
Example calendar_fields :
  (let t := MakeDate (MakeDay 2024 1 29) 0 in
   (YearFromTime t, MonthFromTime t, DateFromTime t)) = (2024, 1, 29) /\
  (let t := MakeDate (MakeDay 2024 1 30) 0 in
   (YearFromTime t, MonthFromTime t, DateFromTime t)) = (2024, 2, 1) /\
  (YearFromTime 0, MonthFromTime 0, DateFromTime 0) = (1970, 0, 1) /\
  (YearFromTime (-1), MonthFromTime (-1), DateFromTime (-1)) = (1969, 11, 31) /\
  YearFromDay (MakeDay 275000 5 7) = 275000 /\
  YearFromDay (MakeDay (-270000) 0 1) = -270000.
Proof. repeat split; vm_compute; reflexivity. Qed.

(** The window of [validateDueDate] on the 2nd of November 2026: its first
    and last day and the days next to them. *)
Example validateDueDate_window_ends :
  validateDueDate two_hours_east t_2026_11_02 (VStr (lit "2025-11-02"))
  = Some accept /\
  validateDueDate two_hours_east t_2026_11_02 (VStr (lit "2025-11-01"))
  = Some (reject "Date cannot be more than 1 year in the past") /\
  validateDueDate two_hours_east t_2026_11_02 (VStr (lit "2028-11-02"))
  = Some accept /\
  validateDueDate two_hours_east t_2026_11_02 (VStr (lit "2028-11-03"))
  = Some (reject "Date cannot be more than 2 years in the future").
Proof. repeat split; vm_compute; reflexivity. Qed.

End Examples.

(** ** Derivatives decide the language *)

Section RegexFacts.

Lemma nullable_Lang r : nullable r = true <-> Lang r [].
Proof.
  induction r as [| |p|a IHa b IHb|a IHa b IHb|a IHa]; simpl.
  - split; [discriminate|intros H; inv H].
  - split; [constructor|reflexivity].
  - split; [discriminate|intros H; inv H].
  - rewrite andb_true_iff, IHa, IHb. split.
    + intros [Ha Hb]. change (@nil N) with (@nil N ++ []). now constructor.
    + intros H. inversion H as [| |? ? u v Hu Hv E1 E2| | | |].
      apply app_eq_nil in E2 as [-> ->]. tauto.
  - rewrite orb_true_iff, IHa, IHb. split.
    + intros [Ha|Hb]; [now apply L_or_l|now apply L_or_r].
    + intros H. inv H; tauto.
  - split; [constructor|reflexivity].
Qed.

Lemma Lang_rep_cons a c s :
  Lang (Rep a) (c :: s) ->
  exists u v, s = u ++ v /\ Lang a (c :: u) /\ Lang (Rep a) v.
Proof.
  intros H. remember (Rep a) as r eqn:Er. remember (c :: s) as w eqn:Ew.
  revert s Ew.
  induction H as [| | | | | |a' u v Hu _ Hv IHv]; intros s0 Ew; try discriminate.
  injection Er as ->.
  destruct u as [|d u]; simpl in Ew.
  - apply IHv; [reflexivity|assumption].
  - injection Ew as -> <-. exists u, v. auto.
Qed.

Lemma Lang_seq_inv a b w :
  Lang (Seq a b) w -> exists u v, w = u ++ v /\ Lang a u /\ Lang b v.
Proof. intros H. inv H. eauto. Qed.

Lemma Lang_seq_cons a b c u v :
  Lang a (c :: u) -> Lang b v -> Lang (Seq a b) (c :: u ++ v).
Proof. intros Ha Hb. change (c :: u ++ v) with ((c :: u) ++ v). now constructor. Qed.

Lemma deriv_Lang c r s : Lang (deriv c r) s <-> Lang r (c :: s).
Proof.
  revert s.
  induction r as [| |p|a IHa b IHb|a IHa b IHb|a IHa]; intros s; simpl.
  - split; intros H; inv H.
  - split; intros H; inv H.
  - destruct (p c) eqn:Hp; split; intros H; inv H; try congruence; now constructor.
  - destruct (nullable a) eqn:Hn; split; intros H.
    + inv H.
      * match goal with E : Lang (Seq _ _) _ |- _ =>
          apply Lang_seq_inv in E as (u & v & -> & Hu & Hv) end.
        apply Lang_seq_cons; [apply IHa|]; assumption.
      * change (c :: s) with ([] ++ c :: s).
        constructor; [apply nullable_Lang|apply IHb]; assumption.
    + apply Lang_seq_inv in H as (u & v & Huv & Hu & Hv).
      destruct u as [|d u]; simpl in Huv; subst.
      * apply L_or_r, IHb. assumption.
      * injection Huv as -> ->. apply L_or_l. constructor; [apply IHa|]; assumption.
    + apply Lang_seq_inv in H as (u & v & -> & Hu & Hv).
      apply Lang_seq_cons; [apply IHa|]; assumption.
    + apply Lang_seq_inv in H as (u & v & Huv & Hu & Hv).
      destruct u as [|d u]; simpl in Huv; subst.
      * apply nullable_Lang in Hu. congruence.
      * injection Huv as -> ->. constructor; [apply IHa|]; assumption.
  - split; intros H; inv H;
      solve [apply L_or_l, IHa; assumption | apply L_or_r, IHb; assumption].
  - split; intros H.
    + apply Lang_seq_inv in H as (u & v & -> & Hu & Hv).
      change (c :: u ++ v) with ((c :: u) ++ v).
      apply L_rep_more; [apply IHa|]; assumption.
    + apply Lang_rep_cons in H as (u & v & -> & Hu & Hv).
      constructor; [apply IHa|]; assumption.
Qed.

Lemma full_match_Lang r s : full_match r s = true <-> Lang r s.
Proof.
  revert r. induction s as [|c s IH]; intros r; simpl.
  - apply nullable_Lang.
  - rewrite IH. apply deriv_Lang.
Qed.

End RegexFacts.

(** ** Titles *)

Section TitleFacts.

Import TitleSpec.

Lemma is_word_canon c : is_word (canon c) = is_word c.
Proof.
  unfold canon. destruct (is_lower c) eqn:Hl; [|reflexivity].
  assert (Hu : is_upper (c - 32) = true).
  { unfold is_lower in Hl. apply andb_true_iff in Hl as [H1 H2].
    apply N.leb_le in H1, H2. unfold is_upper.
    apply andb_true_iff. split; apply N.leb_le; lia. }
  unfold is_word, is_alpha. rewrite Hu, Hl. now rewrite orb_true_r.
Qed.

Lemma canon_word_all w w' :
  map canon w = map canon w' ->
  Forall (fun c => is_word c = true) w -> Forall (fun c => is_word c = true) w'.
Proof.
  revert w'. induction w as [|c w IH]; intros [|d w'] E Hw; try discriminate.
  - constructor.
  - simpl in E. injection E as E1 E2. inv Hw. constructor.
    + rewrite <- is_word_canon, <- E1, is_word_canon. assumption.
    + now apply IH.
Qed.

Lemma head_rev_last (s : jsstring) : head (rev s) = last s.
Proof.
  destruct s as [|x l _] using rev_ind; [reflexivity|].
  rewrite rev_app_distr, last_snoc. reflexivity.
Qed.

Lemma trimStart_id s :
  from_option is_space false (head s) = false -> trimStart s = s.
Proof. destruct s as [|c s]; simpl; [reflexivity|]. now intros ->. Qed.

Lemma trim_id s : no_edge_space s -> trim s = s.
Proof.
  intros [Hh Hl]. unfold trim, trimEnd. rewrite (trimStart_id s Hh).
  rewrite trimStart_id, rev_involutive; [reflexivity|].
  now rewrite head_rev_last.
Qed.

Let NS := Cls not_space.
Let R := Rep (Seq (Cls is_space) (Plus NS)).

Lemma well_spaced_Lang s :
  (well_spaced false s = true -> Lang (Seq (Rep NS) R) s) /\
  (well_spaced true s = true -> Lang (Seq (Plus NS) R) s).
Proof.
  induction s as [|c s [IH1 IH2]]; simpl.
  - split; [|discriminate]. intros _.
    change (@nil N) with (@nil N ++ []). constructor; constructor.
  - destruct (is_space c) eqn:Hc; simpl.
    + split; [|discriminate]. intros H.
      apply IH2, Lang_seq_inv in H as (u & v & -> & Hu & Hv).
      change (c :: u ++ v) with ([] ++ (([c] ++ u) ++ v)).
      constructor; [constructor|].
      apply L_rep_more; [|assumption].
      constructor; [now constructor|assumption].
    + assert (Hns : Lang NS [c]) by (constructor; unfold not_space; now rewrite Hc).
      split; intros H; apply IH1, Lang_seq_inv in H as (u & v & -> & Hu & Hv).
      * change (c :: u ++ v) with (([c] ++ u) ++ v).
        constructor; [|assumption]. now apply L_rep_more.
      * change (c :: u ++ v) with (([c] ++ u) ++ v).
        constructor; [|assumption]. now constructor.
Qed.

Lemma spaced_scan prev s :
  from_option is_space false (last (prev :: s)) = false ->
  no_double_space (prev :: s) ->
  well_spaced (is_space prev) s = true.
Proof.
  revert prev. induction s as [|c s IH]; intros prev Hl Hd; simpl.
  - simpl in Hl. now rewrite Hl.
  - assert (Hd' : no_double_space (c :: s)).
    { intros i a b Ha Hb. apply (Hd (S i) a b); assumption. }
    specialize (IH c Hl Hd').
    destruct (is_space c) eqn:Hc; [|assumption].
    rewrite IH, andb_true_r.
    destruct (is_space prev) eqn:Hp; [|reflexivity].
    exfalso. apply (Hd 0%nat prev c); auto.
Qed.

Lemma title_shape_matches s :
  s <> [] -> no_edge_space s -> no_double_space s ->
  full_match TITLE_REGEX s = true.
Proof.
  intros Hne [Hh Hl] Hd. destruct s as [|c s]; [congruence|]. simpl in Hh.
  apply full_match_Lang.
  pose proof (spaced_scan c s Hl Hd) as Hw. rewrite Hh in Hw.
  apply well_spaced_Lang, Lang_seq_inv in Hw as (u & v & -> & Hu & Hv).
  change (c :: u ++ v) with (([c] ++ u) ++ v).
  constructor; [|assumption].
  constructor; [|assumption]. constructor. unfold not_space. now rewrite Hh.
Qed.

Lemma forallb_Forall_true (f : N -> bool) l :
  forallb f l = true <-> Forall (fun c => f c = true) l.
Proof.
  induction l as [|c l IH]; simpl.
  - split; [constructor|reflexivity].
  - rewrite andb_true_iff, IH. split.
    + intros [? ?]. now constructor.
    + intros H. now inv H.
Qed.

Lemma at_boundary_word_r before c :
  at_boundary before (Some c) = true -> is_word c = true ->
  from_option is_word false before = false.
Proof. unfold at_boundary. simpl. intros H Hc. rewrite Hc in H. now destruct (from_option _ _ _). Qed.

Lemma at_boundary_word_l c after :
  at_boundary (Some c) after = true -> is_word c = true ->
  from_option is_word false after = false.
Proof. unfold at_boundary. simpl. intros H Hc. rewrite Hc in H. now destruct (from_option _ _ _). Qed.

Lemma dup_word_at_sound before rest :
  dup_word_at before rest = true ->
  exists w g w' r,
    rest = w ++ g ++ w' ++ r /\
    w <> [] /\ Forall (fun c => is_word c = true) w /\
    g <> [] /\ Forall (fun c => is_space c = true) g /\
    map canon w = map canon w' /\
    from_option is_word false before = false /\
    from_option is_word false (head r) = false.
Proof.
  unfold dup_word_at. intros H.
  apply andb_true_iff in H as [Hb H].
  apply existsb_exists in H as (k & Hk & H).
  apply in_rev, in_seq in Hk.
  apply andb_true_iff in H as [Hw H].
  apply existsb_exists in H as (j & Hj & H).
  apply in_rev, in_seq in Hj.
  repeat (apply andb_true_iff in H as [H ?]).
  rename H into Hg.
  match goal with E : ci_eqb _ _ = true |- _ =>
    apply bool_decide_eq_true in E; rename E into Hci end.
  match goal with E : Nat.leb _ _ = true |- _ =>
    apply Nat.leb_le in E; rename E into Hlen end.
  match goal with E : at_boundary _ _ = true |- _ => rename E into Hb2 end.
  apply forallb_Forall_true in Hw.
  apply forallb_Forall_true in Hg.
  set (w := take k rest) in *. set (r1 := drop k rest) in *.
  set (g := take j r1) in *. set (r2 := drop j r1) in *.
  set (w' := take k r2) in *. set (r := drop k r2) in *.
  assert (Hw' : Forall (fun c => is_word c = true) w') by (eapply canon_word_all; eauto).
  assert (Lw : length w = k) by (subst w; rewrite length_take; lia).
  assert (Lw' : length w' = k) by (subst w'; rewrite length_take; lia).
  assert (Lg : length g = j) by (subst g; rewrite length_take; lia).
  exists w, g, w', r. repeat split; try assumption.
  - subst w g w' r r2 r1. now rewrite !take_drop.
  - intros E. rewrite E in Lw. simpl in Lw. lia.
  - intros E. rewrite E in Lg. simpl in Lg. lia.
  - destruct rest as [|c rest']; [simpl in Hk; lia|].
    simpl in Hb. apply (at_boundary_word_r _ c Hb).
    subst w. destruct k; [lia|]. simpl in Hw. now inv Hw.
  - destruct w' as [|d w''] using rev_ind; [simpl in Lw'; lia|].
    rewrite last_snoc in Hb2. apply (at_boundary_word_l d _ Hb2).
    apply Forall_app in Hw' as [_ Hd]. now inv Hd.
Qed.

Lemma dup_word_from_sound pre rest :
  dup_word_from (last pre) rest = true -> repeated_word (pre ++ rest).
Proof.
  revert pre. induction rest as [|c rest IH]; intros pre H; simpl in H.
  - rewrite orb_false_r in H.
    apply dup_word_at_sound in H as (w & g & w' & r & E & H).
    exists pre, w, g, w', r. now rewrite <- E.
  - apply orb_true_iff in H as [H|H].
    + apply dup_word_at_sound in H as (w & g & w' & r & E & H).
      exists pre, w, g, w', r. now rewrite <- E.
    + specialize (IH (pre ++ [c])). rewrite last_snoc in IH.
      rewrite <- app_assoc in IH. now apply IH.
Qed.

Lemma DUPLICATE_WORD_test_sound s :
  DUPLICATE_WORD_test s = true -> repeated_word s.
Proof. intros H. now apply (dup_word_from_sound []). Qed.

End TitleFacts.

Section TitleComplete.

Import TitleSpec.

Lemma dup_word_from_skip rest p b :
  dup_word_at (before_of b p) rest = true -> dup_word_from b (p ++ rest) = true.
Proof.
  revert b. induction p as [|c p IH]; intros b H; simpl.
  - unfold before_of in H. simpl in H. destruct rest; simpl; now rewrite H.
  - apply orb_true_iff. right. apply IH.
    unfold before_of in *. destruct p as [|d p]; [assumption|].
    change (last (c :: d :: p)) with (last (d :: p)) in H.
    destruct (last (d :: p)) eqn:E; [assumption|].
    apply last_None in E. discriminate.
Qed.

Lemma Forall_forallb_true (f : N -> bool) l :
  Forall (fun c => f c = true) l -> forallb f l = true.
Proof. induction 1; simpl; [reflexivity|]. now apply andb_true_iff. Qed.

Lemma dup_word_at_complete before w g w' r :
  w <> [] -> Forall (fun c => is_word c = true) w ->
  g <> [] -> Forall (fun c => is_space c = true) g ->
  map canon w = map canon w' ->
  from_option is_word false before = false ->
  from_option is_word false (head r) = false ->
  dup_word_at before (w ++ g ++ w' ++ r) = true.
Proof.
  intros Hw0 Hw Hg0 Hg Hci Hb Hr.
  assert (Hlen : length w' = length w).
  { apply (f_equal length) in Hci. rewrite !length_map in Hci. lia. }
  assert (Hw' : Forall (fun c => is_word c = true) w') by (eapply canon_word_all; eauto).
  unfold dup_word_at. apply andb_true_iff. split.
  - destruct w as [|c w]; [congruence|]. simpl. inv Hw.
    unfold at_boundary. simpl. rewrite Hb. simpl. assumption.
  - apply existsb_exists. exists (length w). split.
    { apply in_rev. rewrite rev_involutive. apply in_seq.
      rewrite length_app. destruct w; [congruence|simpl; lia]. }
    rewrite take_app_length, drop_app_length.
    apply andb_true_iff. split; [now apply Forall_forallb_true|].
    apply existsb_exists. exists (length g). split.
    { apply in_rev. rewrite rev_involutive. apply in_seq.
      rewrite length_app. destruct g; [congruence|simpl; lia]. }
    rewrite take_app_length, drop_app_length.
    rewrite <- Hlen, take_app_length, drop_app_length.
    repeat (apply andb_true_iff; split).
    + now apply Forall_forallb_true.
    + apply Nat.leb_le. rewrite length_app. lia.
    + unfold ci_eqb. now apply bool_decide_eq_true.
    + destruct w' as [|d w''] using rev_ind.
      { destruct w; [congruence|discriminate]. }
      rewrite last_snoc. apply Forall_app in Hw' as [_ Hd]. inv Hd.
      unfold at_boundary. simpl. rewrite Hr.
      match goal with E : is_word d = true |- _ => now rewrite E end.
Qed.

Lemma DUPLICATE_WORD_test_iff s :
  DUPLICATE_WORD_test s = true <-> repeated_word s.
Proof.
  split; [apply DUPLICATE_WORD_test_sound|].
  intros (p & w & g & w' & r & -> & Hw0 & Hw & Hg0 & Hg & Hci & Hp & Hr).
  apply dup_word_from_skip. apply dup_word_at_complete; try assumption.
  unfold before_of. now destruct (last p).
Qed.

Lemma no_double_spaceb_ok s : no_double_spaceb s = true -> no_double_space s.
Proof.
  induction s as [|a s IH]; intros H i x y Hx Hy Sx Sy.
  - discriminate.
  - destruct s as [|b s]; [destruct i; discriminate|].
    simpl in H. apply andb_true_iff in H as [H1 H2].
    destruct i as [|i].
    + simpl in Hx, Hy. simplify_eq. rewrite Sx, Sy in H1. discriminate.
    + apply (IH H2 i x y); assumption.
Qed.

End TitleComplete.

(** C3. A title of 3 to 100 code units with no leading or trailing space, no
    doubled space and no immediately repeated word is accepted by
    [validateTitle]; the empty title, ["ab"], [" abc"], ["abc  def"] and
    ["go go now"] are rejected. *)
Theorem validateTitle_accepts_well_formed :
  (forall s : jsstring,
      (3 <= length s <= 100)%nat ->
      TitleSpec.no_edge_space s ->
      TitleSpec.no_double_space s ->
      ~ TitleSpec.repeated_word s ->
      validateTitle (VStr s) = Some accept) /\
  valid <$> validateTitle (VStr (lit "")) = Some false /\
  valid <$> validateTitle (VStr (lit "ab")) = Some false /\
  valid <$> validateTitle (VStr (lit " abc")) = Some false /\
  valid <$> validateTitle (VStr (lit "abc  def")) = Some false /\
  valid <$> validateTitle (VStr (lit "go go now")) = Some false.
Proof.
  split; [|repeat split; vm_compute; reflexivity].
  intros s [Hlo Hhi] He Hd Hr.
  unfold validateTitle.
  assert (Hne : s <> []) by (intros ->; simpl in Hlo; lia).
  assert (Ht : truthy (VStr s) = true).
  { simpl. destruct s; [congruence|reflexivity]. }
  rewrite Ht. cbn [negb orb is_string ToString trim_of mbind option_bind].
  rewrite (trim_id s He).
  destruct (Nat.ltb_spec (length s) 3); [lia|].
  destruct (Nat.ltb_spec 100 (length s)); [lia|].
  unfold strict_ne_str, strict_eq_str.
  rewrite bool_decide_eq_true_2 by reflexivity. cbn [negb].
  rewrite (title_shape_matches s Hne He Hd). cbn [negb].
  destruct (DUPLICATE_WORD_test s) eqn:Hdup; [|reflexivity].
  exfalso. apply Hr. now apply DUPLICATE_WORD_test_iff.
Qed.

Lemma validateTitle_accepts_well_formed_witness :
  validateTitle (VStr (lit "Read chapter 4")) = Some accept.
Proof.
  apply (proj1 validateTitle_accepts_well_formed).
  - vm_compute. lia.
  - split; reflexivity.
  - apply no_double_spaceb_ok. vm_compute. reflexivity.
  - intros H. apply DUPLICATE_WORD_test_iff in H. vm_compute in H. discriminate.
Defined.

(** ** The validators on arbitrary values *)

Section ValidatorTotality.

Lemma reasoned_accept : reasoned accept.
Proof. split; [discriminate|intros H; now contradiction H]. Qed.

Lemma reasoned_reject a msg : reasoned (reject (String a msg)).
Proof. split; [intros _; discriminate|reflexivity]. Qed.

Ltac settle :=
  repeat case_match;
  solve [ eexists; split;
          [reflexivity
          |first [apply reasoned_accept
                 |apply reasoned_reject
                 |split; [intros _; discriminate|reflexivity]]] ].

Lemma validateTitle_total v : returns_reasoned (validateTitle v).
Proof. unfold validateTitle. destruct v; simpl; rewrite ?orb_true_r; settle. Qed.

Lemma validateDuration_total v :
  is_Some (ToString v) -> returns_reasoned (validateDuration v).
Proof.
  intros [s Hs]. unfold validateDuration. rewrite Hs.
  cbn [mbind option_bind trim_of]. settle.
Qed.

Lemma validateDueDateAt_total tza t0 t1 t2 v :
  returns_reasoned (validateDueDateAt tza t0 t1 t2 v).
Proof.
  unfold validateDueDateAt.
  destruct (negb (truthy v) || negb (is_string v)) eqn:G; [settle|].
  destruct v; simpl in G; rewrite ?orb_true_r in G; try discriminate G.
  cbn [trim_of mbind option_bind]. settle.
Qed.

Lemma validateTag_total v : returns_reasoned (validateTag v).
Proof. unfold validateTag. destruct v; simpl; rewrite ?orb_true_r; settle. Qed.

Lemma validatePriority_total v : returns_reasoned (validatePriority v).
Proof. unfold validatePriority. settle. Qed.

Lemma validateDuration_by_rendering v s :
  is_string v = false -> ToString v = Some s ->
  valid <$> validateDuration v = valid <$> validateDuration (VStr s).
Proof.
  intros Hv Hs.
  destruct v as [| |[|]|n|t|l|m]; try discriminate Hv;
    try (injection Hs as <-; reflexivity).
  - unfold validateDuration. rewrite Hs. cbn [ToString mbind option_bind].
    now destruct s.
  - unfold validateDuration. rewrite Hs. cbn [ToString mbind option_bind].
    now destruct s.
  - unfold validateDuration. rewrite Hs. cbn [ToString mbind option_bind].
    now destruct s.
Qed.

End ValidatorTotality.

(** C9, as the code has it.  [validateTitle], [validateDueDate],
    [validateTag] and [validatePriority] return a result on every value and
    never throw, and so does [validateDuration] on every value that
    [String()] renders; a result has a reason exactly when it is a
    rejection.  A value that is not a string is rejected by [validateTitle],
    [validateDueDate], [validateTag] and [validatePriority] with their fixed
    reasons; [validateDuration] rejects [null] and [undefined] as missing and
    judges any other value by its [String()] rendering. *)
Theorem validators_total_and_reject_absent :
  forall (tza t0 t1 t2 : Z) (v : value),
    (returns_reasoned (validateTitle v) /\
     (is_Some (ToString v) -> returns_reasoned (validateDuration v)) /\
     returns_reasoned (validateDueDateAt tza t0 t1 t2 v) /\
     returns_reasoned (validateTag v) /\
     returns_reasoned (validatePriority v)) /\
    (is_string v = false ->
     validateTitle v = Some (reject "Title is required") /\
     validateDueDateAt tza t0 t1 t2 v = Some (reject "Due date is required") /\
     validateTag v = Some (reject "Tag is required") /\
     validatePriority v = Some (reject "Priority must be High, Medium, or Low")) /\
    (v = VUndef \/ v = VNull ->
     validateDuration v = Some (reject "Duration is required")) /\
    (is_string v = false ->
     forall s, ToString v = Some s ->
     valid <$> validateDuration v = valid <$> validateDuration (VStr s)).
Proof.
  intros tza t0 t1 t2 v. repeat split.
  - apply validateTitle_total.
  - apply validateDuration_total.
  - apply validateDueDateAt_total.
  - apply validateTag_total.
  - apply validatePriority_total.
  - destruct v; try discriminate; unfold validateTitle; simpl;
      now rewrite ?orb_true_r.
  - destruct v; try discriminate; unfold validateDueDateAt; simpl;
      now rewrite ?orb_true_r.
  - destruct v; try discriminate; unfold validateTag; simpl;
      now rewrite ?orb_true_r.
  - destruct v; try discriminate; unfold validatePriority; simpl;
      now rewrite ?orb_true_r.
  - intros [-> | ->]; reflexivity.
  - intros Hv s Hs. now apply validateDuration_by_rendering.
Qed.

Lemma validators_total_and_reject_absent_witness :
  validateTitle (VNum 7) = Some (reject "Title is required") /\
  validateDuration VNull = Some (reject "Duration is required") /\
  valid <$> validateDuration (VObj ∅) = Some false.
Proof.
  pose proof (validators_total_and_reject_absent 0 0 0 0 (VNum 7)) as (_ & H & _).
  pose proof (validators_total_and_reject_absent 0 0 0 0 VNull) as (_ & _ & H' & _).
  pose proof (validators_total_and_reject_absent 0 0 0 0 (VObj ∅)) as (_ & _ & _ & H'').
  split; [exact (proj1 (H eq_refl))|].
  split; [exact (H' (or_intror eq_refl))|].
  rewrite (H'' eq_refl (lit "[object Object]") eq_refl). vm_compute. reflexivity.
Defined.

(** C9, as stated, fails: a number is not the string the validator is
    meant for, and [validateDuration] accepts it. *)
Lemma validateDuration_accepts_a_number :
  is_string (VNum 120) = false /\
  validateDuration (VNum 120) = Some accept /\
  validateDuration (VArr [VNum 120]) = Some accept.
Proof. repeat split; vm_compute; reflexivity. Qed.

(** ** Number values *)

Section NumberFacts.

Lemma round53_small (a : Z) : 0 <= a < 2 ^ 53 -> round53 a = a.
Proof.
  intros [H0 H1]. unfold round53.
  assert (Z.log2 a - 52 <= 0).
  { destruct (Z.eq_dec a 0) as [->|Hne]; [vm_compute; discriminate|].
    assert (Z.log2 a < 53) by (apply Z.log2_lt_pow2; lia). lia. }
  destruct (Z.leb_spec (Z.log2 a - 52) 0); [reflexivity|lia].
Qed.

Lemma round53_big (a : Z) : 2 ^ 53 <= a -> 2 ^ 53 <= round53 a.
Proof.
  intros H. unfold round53.
  assert (Ha : 0 < a) by (pose proof (Z.pow_pos_nonneg 2 53); lia).
  assert (Hl : 53 <= Z.log2 a) by (apply Z.log2_le_pow2; lia).
  destruct (Z.leb_spec (Z.log2 a - 52) 0); [lia|].
  set (e := Z.log2 a - 52) in *.
  rewrite !Z.shiftl_mul_pow2, Z.shiftr_div_pow2 by lia.
  assert (Hp : 2 ^ Z.log2 a <= a) by (apply Z.log2_spec; lia).
  assert (He : 2 ^ Z.log2 a = 2 ^ 52 * 2 ^ e).
  { rewrite <- Z.pow_add_r by lia. f_equal. lia. }
  assert (H2 : 2 <= 2 ^ e).
  { change 2 with (2 ^ 1) at 1. apply Z.pow_le_mono_r; lia. }
  assert (Hq : 2 ^ 52 <= a / 2 ^ e).
  { apply Z.div_le_lower_bound; lia. }
  assert (Hq' : a / 2 ^ e <=
                (if (2 ^ (e - 1) * 1 <? a - a / 2 ^ e * 2 ^ e)
                    || (a - a / 2 ^ e * 2 ^ e =? 2 ^ (e - 1) * 1)
                       && Z.odd (a / 2 ^ e)
                 then a / 2 ^ e + 1 else a / 2 ^ e)).
  { destruct (_ || _); lia. }
  rewrite Z.mul_1_l in *.
  change (2 ^ 53) with (2 ^ 52 * 2).
  etransitivity; [|apply Z.mul_le_mono_nonneg_r; [lia|]].
  2: { etransitivity; [exact Hq|]. rewrite Z.mul_1_r in Hq'. exact Hq'. }
  apply Z.mul_le_mono_nonneg_l; lia.
Qed.

Lemma Number_of_small (n : Z) : Z.abs n < 2 ^ 53 -> Number_of n = n.
Proof.
  intros H. unfold Number_of. rewrite round53_small by lia.
  rewrite Z.min_l by (unfold infinity; pose proof (Z.pow_le_mono_r 2 53 1024); lia).
  rewrite Z.mul_comm. apply Z.abs_sgn.
Qed.

Lemma Number_of_big (n : Z) : 2 ^ 53 <= n -> 2 ^ 53 <= Number_of n.
Proof.
  intros H. unfold Number_of.
  assert (0 < n) by (pose proof (Z.pow_pos_nonneg 2 53); lia).
  rewrite Z.sgn_pos, Z.abs_eq, Z.mul_1_l by lia.
  apply Z.min_glb; [now apply round53_big|].
  unfold infinity. apply Z.pow_le_mono_r; lia.
Qed.

Lemma number_to_string_small (n : Z) :
  Z.abs n < 2 ^ 53 -> number_to_string n = decimal n.
Proof.
  intros H. unfold number_to_string. rewrite Number_of_small by assumption.
  destruct (Z.ltb_spec (Z.abs n) (2 ^ 53)); [reflexivity|lia].
Qed.

End NumberFacts.

(** ** What JSON keeps *)

Section JSONFacts.

Lemma value_size_elem (l : list value) (e : value) :
  e ∈ l -> (value_size e < value_size (VArr l))%nat.
Proof.
  intros H.
  change (value_size (VArr l)) with (S (list_sum (value_size <$> l))).
  induction H as [e l|e x l _ IH]; rewrite fmap_cons;
    unfold list_sum in *; cbn [foldr]; lia.
Qed.

Lemma value_size_field (m : obj) (k : jsstring) (e : value) :
  m !! k = Some e -> (value_size e < value_size (VObj m))%nat.
Proof.
  intros H.
  change (value_size (VObj m))
    with (S (map_fold (fun _ e acc => (value_size e + acc)%nat) 0%nat m)).
  rewrite <- (insert_delete_id m k e H).
  rewrite map_fold_insert_L.
  - lia.
  - intros. lia.
  - apply lookup_delete_eq.
Qed.

(** Induction on a value, its elements and its property values. *)
Lemma value_nested_ind (P : value -> Prop) :
  P VUndef -> P VNull -> (forall b, P (VBool b)) -> (forall n, P (VNum n)) ->
  (forall s, P (VStr s)) ->
  (forall l, Forall P l -> P (VArr l)) ->
  (forall m : obj, map_Forall (fun _ e => P e) m -> P (VObj m)) ->
  forall v, P v.
Proof.
  intros HU HN HB HZ HS HA HO v.
  remember (value_size v) as n eqn:E. revert v E.
  induction n as [n IH] using lt_wf_ind. intros v ->.
  destruct v as [| |b|z|s|l|m]; auto.
  - apply HA, Forall_forall. intros e He.
    apply (IH (value_size e)); [now apply value_size_elem|reflexivity].
  - apply HO. intros k e He.
    apply (IH (value_size e)); [now apply (value_size_field m k)|reflexivity].
Qed.

Lemma through_JSON_defined (v : value) : v <> VUndef -> through_JSON v <> VUndef.
Proof. destruct v; cbn; try congruence. now destruct (_ =? _). Qed.

Lemma through_JSON_idemp (v : value) : through_JSON (through_JSON v) = through_JSON v.
Proof.
  induction v as [| | |n| |l IH|m IH] using value_nested_ind; try reflexivity.
  - cbn. destruct (Z.abs (Number_of n) =? infinity) eqn:E; [reflexivity|].
    cbn. now rewrite E.
  - cbn [through_JSON]. f_equal. rewrite <- list_fmap_compose.
    apply Forall_fmap_ext_1. eapply Forall_impl; [exact IH|].
    intros e He. cbn. destruct e; try reflexivity; try exact He.
    pose proof (through_JSON_defined (VNum n)) as D.
    destruct (through_JSON (VNum n)) eqn:E; try exact He.
    now contradiction D.
  - cbn [through_JSON]. f_equal. apply map_eq. intros k.
    rewrite !lookup_omap. destruct (m !! k) as [e|] eqn:E; [|reflexivity].
    cbn. specialize (IH k e E). cbn in IH.
    destruct e; try reflexivity; cbn [mbind option_bind].
    + pose proof (through_JSON_defined (VNum n)) as D.
      destruct (through_JSON (VNum n)) eqn:E'; try (now rewrite <- IH);
        try (now f_equal).
      now contradiction D.
    + cbn [through_JSON] in *. now rewrite IH.
    + cbn [through_JSON] in *. now rewrite IH.
Qed.

Lemma through_JSON_obj_lookup (o : obj) (k : jsstring) :
  through_JSON_obj o !! k
  = match o !! k with
    | None | Some VUndef => None
    | Some e => Some (through_JSON e)
    end.
Proof.
  unfold through_JSON_obj. rewrite lookup_omap.
  destruct (o !! k) as [[]|]; reflexivity.
Qed.

Lemma through_JSON_obj_idemp (o : obj) :
  through_JSON_obj (through_JSON_obj o) = through_JSON_obj o.
Proof.
  pose proof (through_JSON_idemp (VObj o)) as H. cbn [through_JSON] in H.
  now injection H.
Qed.

Lemma JSON_data_through (o : obj) : JSON_data (through_JSON_obj o).
Proof. apply through_JSON_obj_idemp. Qed.

Lemma JSON_data_lookup (o : obj) (k : jsstring) (v : value) :
  JSON_data o -> o !! k = Some v -> JSON_value v.
Proof.
  intros Ho Hk. pose proof (f_equal (fun m : obj => m !! k) Ho) as E.
  cbn beta in E. rewrite through_JSON_obj_lookup, Hk in E.
  destruct v; try discriminate E; split; try discriminate; congruence.
Qed.

Lemma JSON_data_get (o : obj) (k : jsstring) :
  JSON_data o -> through_JSON (get o k) = get o k.
Proof.
  intros Ho. unfold get. destruct (o !! k) as [v|] eqn:E; [|reflexivity].
  now destruct (JSON_data_lookup o k v Ho E).
Qed.

Lemma JSON_data_iff (o : obj) :
  JSON_data o <-> map_Forall (fun _ v => JSON_value v) o.
Proof.
  split.
  - intros Ho k v Hk. now apply (JSON_data_lookup o k).
  - intros Ho. apply map_eq. intros k. rewrite through_JSON_obj_lookup.
    destruct (o !! k) as [v|] eqn:E; [|reflexivity].
    destruct (Ho k v E) as [Hu Hv]. rewrite Hv. now destruct v.
Qed.

Lemma JSON_data_empty : JSON_data ∅.
Proof. apply JSON_data_iff, map_Forall_empty. Qed.

Lemma JSON_data_insert (o : obj) (k : jsstring) (v : value) :
  JSON_value v -> JSON_data o -> JSON_data (<[k := v]> o).
Proof.
  rewrite !JSON_data_iff. intros Hv Ho. now apply map_Forall_insert_2.
Qed.

Lemma JSON_data_union (a b : obj) :
  JSON_data a -> JSON_data b -> JSON_data (a ∪ b).
Proof.
  rewrite !JSON_data_iff. intros Ha Hb k v Hk.
  apply lookup_union_Some_raw in Hk as [Hk|[_ Hk]]; eauto.
Qed.

Lemma JSON_value_str (s : jsstring) : JSON_value (VStr s).
Proof. split; [discriminate|reflexivity]. Qed.

Lemma JSON_value_bool (b : bool) : JSON_value (VBool b).
Proof. split; [discriminate|reflexivity]. Qed.

Lemma JSON_value_null : JSON_value VNull.
Proof. split; [discriminate|reflexivity]. Qed.

Lemma JSON_value_through (v : value) : v <> VUndef -> JSON_value (through_JSON v).
Proof.
  intros H. split; [now apply through_JSON_defined|apply through_JSON_idemp].
Qed.

(** What is read of a property after the round trip: nothing new, and the
    same string or boolean as before. *)
Lemma get_through_JSON_obj (o : obj) (k : jsstring) :
  get (through_JSON_obj o) k
  = match get o k with
    | VUndef => VUndef
    | v => through_JSON v
    end.
Proof.
  unfold get. rewrite through_JSON_obj_lookup.
  destruct (o !! k) as [[]|]; reflexivity.
Qed.

Lemma through_JSON_is_str (v : value) (s : jsstring) :
  through_JSON v = VStr s <-> v = VStr s.
Proof.
  destruct v; cbn; try (split; congruence).
  destruct (_ =? _); split; congruence.
Qed.

Lemma through_JSON_is_bool (v : value) (b : bool) :
  through_JSON v = VBool b <-> v = VBool b.
Proof.
  destruct v; cbn; try (split; congruence).
  destruct (_ =? _); split; congruence.
Qed.

Lemma get_through_JSON_obj_str (o : obj) (k s : jsstring) :
  get (through_JSON_obj o) k = VStr s <-> get o k = VStr s.
Proof.
  rewrite get_through_JSON_obj.
  destruct (get o k) eqn:E; try (split; congruence);
    rewrite <- E at 1; rewrite through_JSON_is_str; now rewrite E.
Qed.

Lemma get_through_JSON_obj_bool (o : obj) (k : jsstring) (b : bool) :
  get (through_JSON_obj o) k = VBool b <-> get o k = VBool b.
Proof.
  rewrite get_through_JSON_obj.
  destruct (get o k) eqn:E; try (split; congruence);
    rewrite <- E at 1; rewrite through_JSON_is_bool; now rewrite E.
Qed.

Lemma through_JSON_all_data (l : list obj) :
  Forall JSON_data l -> through_JSON_obj <$> l = l.
Proof.
  induction 1 as [|o l Ho _ IH]; [reflexivity|].
  rewrite fmap_cons, IH. f_equal. exact Ho.
Qed.

Lemma through_JSON_all_idemp (l : list obj) :
  through_JSON_obj <$> (through_JSON_obj <$> l) = through_JSON_obj <$> l.
Proof.
  rewrite <- list_fmap_compose. apply list_fmap_ext. intros _ o _.
  apply through_JSON_obj_idemp.
Qed.

End JSONFacts.

(** ** Loops whose callback may throw *)

Section Throwing.

Context {A : Type}.
Implicit Types (p : A -> option bool) (l : list A).

(** When no call throws, the loop is the filter. *)
Lemma filter_throwing_total p (q : A -> bool) l :
  Forall (fun x => p x = Some (q x)) l ->
  filter_throwing p l = Some (List.filter q l).
Proof.
  induction 1 as [|x l Hx _ IH]; [reflexivity|].
  cbn [filter_throwing List.filter]. rewrite Hx, IH. reflexivity.
Qed.

(** One call that throws ends the loop. *)
Lemma filter_throwing_throws p l :
  Exists (fun x => p x = None) l -> filter_throwing p l = None.
Proof.
  induction 1 as [x l Hx|x l _ IH]; cbn [filter_throwing].
  - now rewrite Hx.
  - rewrite IH. now destruct (p x).
Qed.

(** When the loop ends normally no call threw, and it kept what the callback
    said to keep. *)
Lemma filter_throwing_returns p l l' :
  filter_throwing p l = Some l' ->
  exists q : A -> bool,
    Forall (fun x => p x = Some (q x)) l /\ l' = List.filter q l.
Proof.
  revert l'. induction l as [|x l IH]; intros l' H; cbn [filter_throwing] in H.
  - injection H as <-. exists (fun _ => true). split; [constructor|reflexivity].
  - destruct (p x) as [b|] eqn:Hx; [|discriminate H].
    destruct (filter_throwing p l) as [rest|] eqn:Hl; [|discriminate H].
    cbn in H. injection H as <-.
    destruct (IH rest eq_refl) as (q & Hq & ->).
    exists (fun y => default false (p y)). split.
    + constructor; [now rewrite Hx|].
      eapply Forall_impl; [exact Hq|]. intros y Hy. now rewrite Hy.
    + cbn [List.filter]. rewrite Hx. cbn [default from_option id].
      assert (E : List.filter q l = List.filter (fun y => default false (p y)) l).
      { clear -Hq. induction Hq as [|y l Hy _ IH]; [reflexivity|].
        cbn [List.filter]. rewrite Hy, IH. reflexivity. }
      now rewrite E.
Qed.

Lemma filter_throwing_In p l l' (x : A) :
  filter_throwing p l = Some l' -> In x l' <-> In x l /\ p x = Some true.
Proof.
  intros H. destruct (filter_throwing_returns p l l' H) as (q & Hq & ->).
  rewrite filter_In. rewrite Forall_forall in Hq. split.
  - intros [Hin Hx]. split; [assumption|].
    rewrite (Hq x) by now apply list_elem_of_In. now rewrite Hx.
  - intros [Hin Hx]. split; [assumption|].
    rewrite (Hq x) in Hx by now apply list_elem_of_In. congruence.
Qed.

Lemma filter_throwing_cases p l :
  (exists l', filter_throwing p l = Some l') \/ Exists (fun x => p x = None) l.
Proof.
  induction l as [|x l [[l' IH]|IH]]; cbn [filter_throwing].
  - left. eauto.
  - destruct (p x) as [b|] eqn:Hx; [|right; now left].
    rewrite IH. left. cbn. eauto.
  - right. now right.
Qed.

End Throwing.

(** ** The calendar of the runtime *)

Section Calendar.

Lemma is_leap_cases y :
  (is_leap y = true /\ y mod 4 = 0 /\ (y mod 100 <> 0 \/ y mod 400 = 0)) \/
  (is_leap y = false /\ (y mod 4 <> 0 \/ (y mod 100 = 0 /\ y mod 400 <> 0))).
Proof.
  unfold is_leap.
  destruct (Z.eqb_spec (y mod 4) 0), (Z.eqb_spec (y mod 100) 0),
    (Z.eqb_spec (y mod 400) 0); simpl; intuition lia.
Qed.

Lemma DayFromYear_succ y : DayFromYear (y + 1) = DayFromYear y + DaysInYear y.
Proof.
  unfold DayFromYear, DaysInYear.
  destruct (is_leap_cases y) as [(-> & H4 & H)|(-> & H)]; divmod.
Qed.

Lemma DaysInYear_bounds y : 365 <= DaysInYear y <= 366.
Proof. unfold DaysInYear. destruct (is_leap y); lia. Qed.

Lemma DayFromYear_mono y y' : y <= y' -> DayFromYear y <= DayFromYear y'.
Proof. unfold DayFromYear. intros H. divmod. Qed.

Lemma DayFromYear_lt y y' : y < y' -> DayFromYear y < DayFromYear y'.
Proof.
  intros H. pose proof (DayFromYear_mono (y + 1) y' ltac:(lia)).
  rewrite DayFromYear_succ in *. pose proof (DaysInYear_bounds y). lia.
Qed.

Lemma year_search_spec fuel : forall y d,
  DayFromYear y <= d -> d < DayFromYear (y + Z.of_nat fuel) ->
  DayFromYear (year_search fuel y d) <= d < DayFromYear (year_search fuel y d + 1).
Proof.
  induction fuel as [|f IH]; intros y d Hlo Hhi; simpl.
  - rewrite Z.add_0_r in Hhi. lia.
  - destruct (Z.leb_spec (DayFromYear (y + 1)) d) as [Hle|Hgt].
    + apply IH; [assumption|]. replace (y + 1 + Z.of_nat f) with (y + Z.of_nat (S f)) by lia.
      assumption.
    + lia.
Qed.

Lemma DayFromYear_lower y : 146097 * y - 287811697 < 400 * DayFromYear y.
Proof. unfold DayFromYear. divmod. Qed.

Lemma year_estimate_low d :
  DayFromYear (1970 + (if 0 <=? d then d / 366 else d / 365)) <= d.
Proof. unfold DayFromYear. destruct (Z.leb_spec 0 d); divmod. Qed.

Lemma year_estimate_high d :
  d < DayFromYear (1970 + (if 0 <=? d then d / 366 else d / 365)
                   + (Z.abs d / 100000 + 3)).
Proof.
  match goal with |- _ < DayFromYear ?y =>
    pose proof (DayFromYear_lower y) as Hl; revert Hl;
    generalize (DayFromYear y) end.
  intros D Hl. destruct (Z.leb_spec 0 d).
  - rewrite Z.abs_eq in Hl by lia. divmod.
  - rewrite Z.abs_neq in Hl by lia. divmod.
Qed.

Lemma YearFromDay_spec d :
  DayFromYear (YearFromDay d) <= d < DayFromYear (YearFromDay d + 1).
Proof.
  unfold YearFromDay. apply year_search_spec.
  - apply year_estimate_low.
  - rewrite Z2Nat.id; [apply year_estimate_high|].
    pose proof (Z.abs_nonneg d). divmod.
Qed.

Lemma YearFromDay_unique y d :
  DayFromYear y <= d < DayFromYear (y + 1) -> YearFromDay d = y.
Proof.
  intros [Hlo Hhi]. pose proof (YearFromDay_spec d) as [Hlo' Hhi'].
  destruct (Z.lt_trichotomy (YearFromDay d) y) as [Hlt|[Heq|Hgt]]; [|assumption|].
  - pose proof (DayFromYear_mono (YearFromDay d + 1) y ltac:(lia)). lia.
  - pose proof (DayFromYear_mono (y + 1) (YearFromDay d) ltac:(lia)). lia.
Qed.

End Calendar.

Section CivilRoundTrip.

Lemma Day_MakeDate day tw :
  0 <= tw < msPerDay -> Day (MakeDate day tw) = day.
Proof.
  intros H. unfold Day, MakeDate, msPerDay in *.
  rewrite Z.div_add_l by lia. rewrite Z.div_small by lia. lia.
Qed.

Lemma TimeWithinDay_MakeDate day tw :
  0 <= tw < msPerDay -> TimeWithinDay (MakeDate day tw) = tw.
Proof.
  intros H. unfold TimeWithinDay, MakeDate, msPerDay in *.
  rewrite Z.add_comm, Z.mod_add by lia. now apply Z.mod_small.
Qed.

Lemma MakeDay_in_year y m d :
  0 <= m <= 11 ->
  MakeDay y m d = DayFromYear y + month_start (is_leap y) m + d - 1.
Proof.
  intros H. unfold MakeDay.
  rewrite Z.div_small, Z.mod_small, Z.add_0_r by lia. reflexivity.
Qed.

(** A day of the year belongs to that year. *)
Lemma YearFromDay_in_year y k :
  0 <= k < DaysInYear y -> YearFromDay (DayFromYear y + k) = y.
Proof.
  intros H. apply YearFromDay_unique. rewrite DayFromYear_succ. lia.
Qed.

(** The fields of a calendar day come back from its time value. *)
Lemma civil_fields y m d tw :
  0 <= m <= 11 -> 1 <= d <= days_in_month y (m + 1) -> 0 <= tw < msPerDay ->
  let t := MakeDate (MakeDay y m d) tw in
  YearFromTime t = y /\ MonthFromTime t = m /\ DateFromTime t = d.
Proof.
  intros Hm Hd Htw t.
  assert (HY : YearFromTime t = y).
  { unfold YearFromTime, t. rewrite Day_MakeDate, MakeDay_in_year by assumption.
    replace (DayFromYear y + month_start (is_leap y) m + d - 1)
      with (DayFromYear y + (month_start (is_leap y) m + d - 1)) by lia.
    apply YearFromDay_in_year. unfold DaysInYear.
    each_month Hm; simpl in Hd |- *; destruct (is_leap y); simpl in *; lia. }
  assert (HD : DayWithinYear t = month_start (is_leap y) m + d - 1).
  { unfold DayWithinYear. rewrite HY. unfold t.
    rewrite Day_MakeDate, MakeDay_in_year by assumption. lia. }
  assert (HM : MonthFromTime t = m).
  { unfold MonthFromTime. rewrite HY, HD.
    each_month Hm; simpl in Hd |- *; destruct (is_leap y); simpl in *;
      unfold month_of_day; simpl;
      repeat match goal with
             | |- context [Z.ltb ?a ?b] => destruct (Z.ltb_spec a b); try lia
             end; reflexivity. }
  split; [assumption|]. split; [assumption|].
  unfold DateFromTime. rewrite HY, HD, HM. lia.
Qed.

(** A day number past the end of a month of 1 to 31 days lands in the next
    month of the same year. *)
Lemma civil_overflow y m d tw :
  0 <= m <= 11 -> days_in_month y (m + 1) < d <= 31 -> 0 <= tw < msPerDay ->
  let t := MakeDate (MakeDay y m d) tw in
  YearFromTime t = y /\ MonthFromTime t = m + 1.
Proof.
  intros Hm Hd Htw t.
  assert (E : MakeDay y m d = MakeDay y (m + 1) (d - days_in_month y (m + 1))
              /\ 0 <= m + 1 <= 11
              /\ 1 <= d - days_in_month y (m + 1) <= days_in_month y (m + 1 + 1)).
  { each_month Hm; simpl in Hd; try lia;
      (split; [|split];
       [rewrite !MakeDay_in_year by lia; zconst; cbn; destruct (is_leap y); cbn in *; lia
       |lia
       |zconst; cbn; destruct (is_leap y); cbn in *; lia]). }
  destruct E as (E & Hm' & Hd').
  unfold t. rewrite E.
  destruct (civil_fields y (m + 1) _ tw Hm' Hd' Htw) as (HY & HM & _).
  split; assumption.
Qed.

End CivilRoundTrip.

(** ** The date pattern *)

Section DateShape.

Ltac lang_inv :=
  repeat match goal with
         | H : Lang (Seq _ _) _ |- _ => inv H
         | H : Lang (Or _ _) _ |- _ => inv H
         | H : Lang (Cls _) _ |- _ => inv H
         end.

Lemma is_digit_Z c : is_digit c = true <-> 0 <= Z.of_N c - 48 <= 9.
Proof.
  unfold is_digit. rewrite andb_true_iff, !N.leb_le. lia.
Qed.

Lemma range_Z lo hi c :
  ((lo <=? c) && (c <=? hi))%N = true <-> Z.of_N lo <= Z.of_N c <= Z.of_N hi.
Proof. rewrite andb_true_iff, !N.leb_le. lia. Qed.

Lemma date_regex_parse s :
  full_match DATE_REGEX s = true ->
  exists y m d,
    parse_date_only s = Some (y, m, d) /\ 1 <= m <= 12 /\ 1 <= d <= 31 /\
    0 <= y <= 9999 /\
    map digits_value (split_on 45 s) = [y; m; d].
Proof.
  intros H. apply full_match_Lang in H.
  unfold DATE_REGEX, chr, range in H. lang_inv;
    repeat match goal with
           | E : N.eqb _ _ = true |- _ => apply N.eqb_eq in E; subst
           end;
    repeat match goal with
           | E : is_digit ?c = true |- _ =>
               let E' := fresh in
               pose proof (proj1 (is_digit_Z c) E) as E';
               assert ((c =? 45)%N = false) by (apply N.eqb_neq; lia);
               revert E
           | E : (_ && _)%bool = true |- _ =>
               let E' := fresh in
               pose proof (proj1 (range_Z _ _ _) E) as E';
               match type of E with
               | ((_ <=? ?c) && _)%N = true =>
                   assert (is_digit c = true) by (apply is_digit_Z; lia);
                   assert ((c =? 45)%N = false) by (apply N.eqb_neq; lia)
               end;
               clear E
           end;
    intros;
    eexists _, _, _; cbn [app parse_date_only forallb N.eqb Pos.eqb andb split_on map];
    repeat match goal with E : is_digit _ = true |- _ => rewrite E; clear E end;
    repeat match goal with E : N.eqb _ 45 = false |- _ => rewrite E; clear E end;
    cbn [andb map];
    (split; [reflexivity|]);
    unfold digits_value; cbn [fold_left]; change (Z.of_N 48) with 48;
      change (Z.of_N 49) with 49 in *; change (Z.of_N 50) with 50 in *;
      change (Z.of_N 51) with 51; change (Z.of_N 57) with 57 in *;
      repeat split; lia.
Qed.

Lemma Lang_cls_seq p b c v :
  p c = true -> Lang b v -> Lang (Seq (Cls p) b) (c :: v).
Proof.
  intros Hp Hb. change (c :: v) with ([c] ++ v). constructor; [now constructor|assumption].
Qed.

Lemma Lang_two p q c d :
  p c = true -> q d = true -> Lang (Seq (Cls p) (Cls q)) [c; d].
Proof. intros Hp Hq. apply Lang_cls_seq; [assumption|now constructor]. Qed.

Lemma parse_date_regex s y m d :
  parse_date_only s = Some (y, m, d) -> 1 <= m <= 12 -> 1 <= d <= 31 ->
  full_match DATE_REGEX s = true.
Proof.
  intros H Hm Hd.
  do 11 (destruct s as [|? s]; try discriminate H).
  unfold parse_date_only in H.
  match type of H with (if ?c then _ else _) = _ => destruct c eqn:G end;
    [|discriminate].
  cbn [forallb] in G.
  repeat match goal with
         | E : (_ && _)%bool = true |- _ => apply andb_true_iff in E as [? ?]
         end.
  repeat match goal with
         | E : N.eqb _ _ = true |- _ => apply N.eqb_eq in E; subst
         end.
  injection H as <- <- <-.
  unfold digits_value in Hm, Hd. cbn [fold_left] in Hm, Hd.
  repeat match goal with
         | E : is_digit ?c = true |- _ =>
             pose proof (proj1 (is_digit_Z c) E); revert E
         end.
  intros.
  apply full_match_Lang. unfold DATE_REGEX, chr, range.
  do 5 (apply Lang_cls_seq; [first [assumption|reflexivity]|]).
  match goal with |- Lang _ (?a :: ?b :: ?r) =>
    change (a :: b :: r) with ([a; b] ++ r) end.
  constructor.
  - assert (C : (Z.of_N n4 = 48 /\ 49 <= Z.of_N n5 <= 57)
                \/ (Z.of_N n4 = 49 /\ 48 <= Z.of_N n5 <= 50)) by lia.
    destruct C as [[C1 C2]|[C1 C2]]; [apply L_or_l|apply L_or_r];
      (apply Lang_two; [apply N.eqb_eq; lia|apply range_Z; lia]).
  - apply Lang_cls_seq; [reflexivity|].
    assert (C : (Z.of_N n7 = 48 /\ 49 <= Z.of_N n8 <= 57)
                \/ (49 <= Z.of_N n7 <= 50)
                \/ (Z.of_N n7 = 51 /\ 48 <= Z.of_N n8 <= 49)) by lia.
    destruct C as [[C1 C2]|[C1|[C1 C2]]].
    + apply L_or_l, Lang_two; [apply N.eqb_eq; lia|apply range_Z; lia].
    + apply L_or_r, L_or_l, Lang_two; [apply range_Z; lia|assumption].
    + apply L_or_r, L_or_r, Lang_two; [apply N.eqb_eq; lia|apply range_Z; lia].
Qed.

End DateShape.

(** ** Due dates *)

Section DueDateFacts.

Import DueDateSpec.

Variable tza : Z.

Lemma LocalTime_UTC t : LocalTime tza (UTC tza t) = t.
Proof. unfold LocalTime, UTC. lia. Qed.

Lemma TimeWithinDay_bounds t : 0 <= TimeWithinDay t < msPerDay.
Proof. unfold TimeWithinDay, msPerDay. apply Z.mod_pos_bound. lia. Qed.

Lemma DayWithinYear_bounds t :
  0 <= DayWithinYear t < DaysInYear (YearFromTime t).
Proof.
  unfold DayWithinYear, YearFromTime.
  pose proof (YearFromDay_spec (Day t)) as H.
  rewrite DayFromYear_succ in H. lia.
Qed.

Lemma civil_bounds t : 0 <= MonthFromTime t <= 11 /\ 1 <= DateFromTime t.
Proof.
  pose proof (DayWithinYear_bounds t) as H.
  unfold DateFromTime, MonthFromTime, DaysInYear in *.
  destruct (is_leap (YearFromTime t)); unfold month_of_day; cbn [month_start];
    repeat match goal with
           | |- context [Z.ltb ?a ?b] => destruct (Z.ltb_spec a b)
           end; cbn [month_start]; lia.
Qed.

(** The check that the fields of the reconstructed date are the ones read. *)
Lemma round_trip_check y m d :
  0 <= y -> 1 <= m <= 12 -> 1 <= d <= 31 ->
  let dateObj := Date_of_fields tza y (m - 1) d in
  negb (getFullYear tza dateObj =? y)
  || negb (getMonth tza dateObj =? m - 1)
  || negb (getDate tza dateObj =? d) = false
  <-> 100 <= y /\ d <= days_in_month y m.
Proof.
  intros Hy Hm Hd dateObj.
  unfold getFullYear, getMonth, getDate, dateObj, Date_of_fields.
  rewrite LocalTime_UTC.
  set (full := if (0 <=? y) && (y <=? 99) then 1900 + y else y).
  assert (Hfull : (y <= 99 /\ full = 1900 + y) \/ (100 <= y /\ full = y)).
  { unfold full. destruct (Z.leb_spec 0 y), (Z.leb_spec y 99); simpl; lia. }
  assert (Htw : 0 <= 0 < msPerDay) by (unfold msPerDay; lia).
  assert (Hm' : 0 <= m - 1 <= 11) by lia.
  rewrite !orb_false_iff, !negb_false_iff, !Z.eqb_eq.
  destruct (Z_le_gt_dec d (days_in_month full m)) as [Hin|Hout].
  - destruct (civil_fields full (m - 1) d 0 Hm') as (HY & HM & HD);
      [replace (m - 1 + 1) with m by lia; lia|assumption|].
    rewrite HY, HM, HD. destruct Hfull as [[? ->]|[? E]]; [lia|].
    rewrite E in *. tauto.
  - destruct (civil_overflow full (m - 1) d 0 Hm') as (HY & HM);
      [replace (m - 1 + 1) with m by lia; lia|assumption|].
    rewrite HY, HM. destruct Hfull as [[? ->]|[? E]]; [lia|].
    rewrite E in *. lia.
Qed.

Lemma one_year_ago now :
  setHours0 tza (setFullYear tza now (getFullYear tza now - 1))
  = UTC tza (MakeDate (anniversary tza now (-1)) 0).
Proof.
  unfold setHours0, setFullYear. rewrite LocalTime_UTC.
  rewrite Day_MakeDate by apply TimeWithinDay_bounds.
  unfold anniversary, getFullYear, LocalTime.
  now rewrite <- Z.add_opp_r.
Qed.

Lemma two_years_from now :
  setFullYear tza now (getFullYear tza now + 2)
  = UTC tza (MakeDate (anniversary tza now 2) (TimeWithinDay (LocalTime tza now))).
Proof. unfold setFullYear, anniversary, getFullYear, LocalTime. reflexivity. Qed.

Lemma before_midnight a b :
  (UTC tza (MakeDate a 0) <? UTC tza (MakeDate b 0)) = (a <? b).
Proof.
  unfold UTC, MakeDate, msPerDay.
  destruct (Z.ltb_spec a b), (Z.ltb_spec (a * 86400000 + 0 - tza) (b * 86400000 + 0 - tza));
    try reflexivity; lia.
Qed.

Lemma after_instant a b tw :
  0 <= tw < msPerDay ->
  (UTC tza (MakeDate a tw) <? UTC tza (MakeDate b 0)) = (a <? b).
Proof.
  unfold UTC, MakeDate, msPerDay. intros H.
  destruct (Z.ltb_spec a b), (Z.ltb_spec (a * 86400000 + tw - tza) (b * 86400000 + 0 - tza));
    try reflexivity; lia.
Qed.

Lemma truthy_nonempty (s : jsstring) : s <> [] -> truthy (VStr s) = true.
Proof. destruct s; [congruence|reflexivity]. Qed.

Lemma trim_nil : trim [] = [].
Proof. reflexivity. Qed.

(** The year of a clock not before 1970 and a year below 100. *)
Lemma early_year_out now y m d :
  0 <= now + tza -> 0 <= y <= 99 -> real_date y m d ->
  MakeDay y (m - 1) d < anniversary tza now (-1).
Proof.
  intros Hnow Hy [Hm Hd]. unfold anniversary.
  set (l := now + tza).
  destruct (civil_bounds l) as [HM HD].
  assert (HY : 1970 <= YearFromTime l).
  { unfold YearFromTime. pose proof (YearFromDay_spec (Day l)) as [_ Hhi].
    assert (0 <= Day l) by (unfold Day, msPerDay; apply Z.div_pos; lia).
    destruct (Z_lt_ge_dec (YearFromDay (Day l)) 1970) as [Hlt|]; [|lia].
    pose proof (DayFromYear_mono (YearFromDay (Day l) + 1) 1970 ltac:(lia)) as Hmono.
    change (DayFromYear 1970) with 0 in Hmono. lia. }
  rewrite !MakeDay_in_year by lia.
  pose proof (DayFromYear_mono (y + 1) 100 ltac:(lia)) as H1.
  pose proof (DayFromYear_mono 1969 (YearFromTime l + -1) ltac:(lia)) as H2.
  change (DayFromYear 100) with (-683003) in H1.
  change (DayFromYear 1969) with (-365) in H2.
  rewrite DayFromYear_succ in H1. unfold DaysInYear in H1.
  assert (0 <= month_start (is_leap (YearFromTime l + -1)) (MonthFromTime l)).
  { destruct (is_leap (YearFromTime l + -1)); each_month HM; cbn; lia. }
  assert (month_start (is_leap y) (m - 1) + d - 1 < (if is_leap y then 366 else 365)).
  { remember (m - 1) as k eqn:Ek.
    assert (Hk : 0 <= k <= 11) by lia.
    replace m with (k + 1) in Hd by lia. clear Ek Hm.
    each_month Hk; zconst_in Hd; cbn in Hd |- *; destruct (is_leap y);
      cbn in Hd |- *; lia. }
  lia.
Qed.

(** What [validateDueDate] computes once the text has the date shape. *)
Lemma validateDueDate_eval now s y m d :
  parse_date_only (trim s) = Some (y, m, d) -> 1 <= m <= 12 -> 1 <= d <= 31 ->
  validateDueDate tza now (VStr s) =
  if negb ((100 <=? y) && (d <=? days_in_month y m)) then
    Some (reject "Invalid date (e.g., Feb 30 does not exist)")
  else if MakeDay y (m - 1) d <? anniversary tza now (-1) then
    Some (reject "Date cannot be more than 1 year in the past")
  else if anniversary tza now 2 <? MakeDay y (m - 1) d then
    Some (reject "Date cannot be more than 2 years in the future")
  else Some accept.
Proof.
  intros Hp Hm Hd.
  assert (Hre : full_match DATE_REGEX (trim s) = true)
    by (eapply parse_date_regex; eauto).
  destruct (date_regex_parse _ Hre) as (y' & m' & d' & Hp' & _ & _ & Hy & Hsplit).
  rewrite Hp in Hp'. injection Hp' as <- <- <-.
  assert (Hs : s <> []) by (intros ->; discriminate Hp).
  unfold validateDueDate, validateDueDateAt.
  rewrite (truthy_nonempty s Hs).
  cbn [negb orb is_string trim_of mbind option_bind].
  rewrite Hre, Hsplit. cbn [negb].
  pose proof (round_trip_check y m d ltac:(lia) Hm Hd) as Hrt. cbn zeta in Hrt.
  destruct (negb (getFullYear tza (Date_of_fields tza y (m - 1) d) =? y)
            || negb (getMonth tza (Date_of_fields tza y (m - 1) d) =? m - 1)
            || negb (getDate tza (Date_of_fields tza y (m - 1) d) =? d)) eqn:Hchk.
  - destruct (Z.leb_spec 100 y), (Z.leb_spec d (days_in_month y m));
      try reflexivity.
    assert (true = false) by (apply Hrt; lia). discriminate.
  - destruct (proj1 Hrt eq_refl) as [H100 Hdim].
    destruct (Z.leb_spec 100 y); [|lia].
    destruct (Z.leb_spec d (days_in_month y m)); [|lia].
    cbn [andb negb].
    rewrite one_year_ago, two_years_from.
    unfold Date_of_fields.
    destruct (Z.leb_spec 0 y), (Z.leb_spec y 99); try lia. cbn [andb].
    rewrite before_midnight, after_instant by apply TimeWithinDay_bounds.
    reflexivity.
Qed.

(** Without the date shape nothing is accepted. *)
Lemma validateDueDate_shape now s :
  validateDueDate tza now (VStr s) = Some accept ->
  exists y m d,
    parse_date_only (trim s) = Some (y, m, d) /\ 1 <= m <= 12 /\ 1 <= d <= 31.
Proof.
  unfold validateDueDate, validateDueDateAt. intros H.
  destruct (negb (truthy (VStr s)) || negb (is_string (VStr s))); [discriminate|].
  cbn [trim_of mbind option_bind] in H.
  destruct (full_match DATE_REGEX (trim s)) eqn:Hre; [|discriminate].
  destruct (date_regex_parse _ Hre) as (y & m & d & Hp & Hm & Hd & _).
  eauto 6.
Qed.

End DueDateFacts.

(** C4, as the code has it.  With a local clock not before 1970,
    [validateDueDate] accepts a string exactly when, once trimmed, it has
    the shape YYYY-MM-DD, names a real calendar day, and that day lies
    between the calendar day of the clock reading one year earlier and the
    one two years later (both taken from one reading).  ["2024-02-30"] is
    rejected whatever the clock says; ["2024-02-29"] is accepted exactly when
    it lies in that window; a day outside the window is rejected. *)
Theorem validateDueDate_accepts_iff :
  forall tza now : Z,
    0 <= now + tza ->
    (forall s : jsstring,
        validateDueDate tza now (VStr s) = Some accept <->
        exists y m d,
          parse_date_only (trim s) = Some (y, m, d) /\
          real_date y m d /\
          DueDateSpec.in_window tza now y m d) /\
    valid <$> validateDueDate tza now (VStr (lit "2024-02-30")) = Some false /\
    (validateDueDate tza now (VStr (lit "2024-02-29")) = Some accept <->
     DueDateSpec.in_window tza now 2024 2 29) /\
    (forall (s : jsstring) y m d,
        parse_date_only (trim s) = Some (y, m, d) ->
        MakeDay y (m - 1) d < DueDateSpec.anniversary tza now (-1)
        \/ DueDateSpec.anniversary tza now 2 < MakeDay y (m - 1) d ->
        valid <$> validateDueDate tza now (VStr s) = Some false).
Proof.
  intros tza now Hnow.
  assert (Hiff : forall s : jsstring,
             validateDueDate tza now (VStr s) = Some accept <->
             exists y m d,
               parse_date_only (trim s) = Some (y, m, d) /\
               real_date y m d /\
               DueDateSpec.in_window tza now y m d).
  { intros s. split.
    - intros H. destruct (validateDueDate_shape tza now s H) as (y & m & d & Hp & Hm & Hd).
      exists y, m, d. split; [assumption|].
      rewrite (validateDueDate_eval tza now s y m d Hp Hm Hd) in H.
      destruct (Z.leb_spec 100 y); [|discriminate].
      destruct (Z.leb_spec d (days_in_month y m)); [|discriminate].
      cbn [andb negb] in H.
      destruct (Z.ltb_spec (MakeDay y (m - 1) d) (DueDateSpec.anniversary tza now (-1)));
        [discriminate|].
      destruct (Z.ltb_spec (DueDateSpec.anniversary tza now 2) (MakeDay y (m - 1) d));
        [discriminate|].
      unfold real_date, DueDateSpec.in_window. lia.
    - intros (y & m & d & Hp & [Hm Hd] & [Hlo Hhi]).
      assert (Hd31 : 1 <= d <= 31).
      { split; [lia|]. transitivity (days_in_month y m); [lia|].
        unfold days_in_month. repeat case_match; lia. }
      rewrite (validateDueDate_eval tza now s y m d Hp Hm Hd31).
      assert (Hre : full_match DATE_REGEX (trim s) = true)
        by (eapply parse_date_regex; eauto).
      destruct (date_regex_parse _ Hre) as (y' & m' & d' & Hp' & _ & _ & Hy & _).
      rewrite Hp in Hp'. injection Hp' as <- <- <-.
      assert (100 <= y).
      { destruct (Z_le_gt_dec 100 y); [assumption|].
        pose proof (early_year_out tza now y m d Hnow ltac:(lia) (conj Hm Hd)). lia. }
      destruct (Z.leb_spec 100 y); [|lia].
      destruct (Z.leb_spec d (days_in_month y m)); [|lia].
      cbn [andb negb].
      destruct (Z.ltb_spec (MakeDay y (m - 1) d) (DueDateSpec.anniversary tza now (-1)));
        [lia|].
      destruct (Z.ltb_spec (DueDateSpec.anniversary tza now 2) (MakeDay y (m - 1) d));
        [lia|reflexivity]. }
  split; [exact Hiff|]. split; [|split].
  - rewrite (validateDueDate_eval tza now _ 2024 2 30); [reflexivity|reflexivity|lia|lia].
  - rewrite Hiff. split.
    + intros (y & m & d & Hp & _ & Hw). vm_compute in Hp. injection Hp as <- <- <-.
      exact Hw.
    + intros Hw. exists 2024, 2, 29. split; [reflexivity|]. split; [|exact Hw].
      split; [lia|]. vm_compute. split; discriminate.
  - intros s y m d Hp Hout.
    assert (Hre : full_match DATE_REGEX (trim s) = true \/ full_match DATE_REGEX (trim s) = false)
      by (destruct (full_match DATE_REGEX (trim s)); auto).
    destruct Hre as [Hre|Hre].
    + destruct (date_regex_parse _ Hre) as (y' & m' & d' & Hp' & Hm & Hd & _).
      rewrite Hp in Hp'. injection Hp' as <- <- <-.
      rewrite (validateDueDate_eval tza now s y m d Hp Hm Hd).
      destruct (negb _); [reflexivity|].
      destruct (Z.ltb_spec (MakeDay y (m - 1) d) (DueDateSpec.anniversary tza now (-1)));
        [reflexivity|].
      destruct (Z.ltb_spec (DueDateSpec.anniversary tza now 2) (MakeDay y (m - 1) d));
        [reflexivity|lia].
    + unfold validateDueDate, validateDueDateAt.
      destruct (negb (truthy (VStr s)) || negb (is_string (VStr s))); [reflexivity|].
      cbn [trim_of mbind option_bind]. rewrite Hre. reflexivity.
Qed.

Lemma validateDueDate_accepts_iff_witness :
  valid <$> validateDueDate two_hours_east t_2026_11_02 (VStr (lit "2024-02-30")) = Some false /\
  validateDueDate two_hours_east t_2024_06_15 (VStr (lit "2024-02-29")) = Some accept.
Proof.
  assert (H1 : 0 <= t_2026_11_02 + two_hours_east) by (vm_compute; discriminate).
  assert (H2 : 0 <= t_2024_06_15 + two_hours_east) by (vm_compute; discriminate).
  split.
  - exact (proj1 (proj2 (validateDueDate_accepts_iff _ _ H1))).
  - apply (proj1 (proj2 (proj2 (validateDueDate_accepts_iff _ _ H2)))).
    vm_compute. split; discriminate.
Defined.

(** C4, as stated, fails: ["2024-02-29"] is a real day of a leap year, and
    on the 2nd of November 2026 it is rejected as more than one year past;
    and a text with spaces around the date, which has not the shape
    YYYY-MM-DD, is accepted. *)
Lemma validateDueDate_leap_day_rejected_when_old :
  validateDueDate two_hours_east t_2026_11_02 (VStr (lit "2024-02-29"))
  = Some (reject "Date cannot be more than 1 year in the past") /\
  parse_date_only (lit " 2026-12-01 ") = None /\
  full_match DATE_REGEX (lit " 2026-12-01 ") = false /\
  validateDueDate two_hours_east t_2026_11_02 (VStr (lit " 2026-12-01 "))
  = Some accept.
Proof. repeat split; vm_compute; reflexivity. Qed.

(** ** The lifecycle of a task *)

Section Lifecycle.

Ltac key_ne := let H := fresh in intros H; vm_compute in H; discriminate.

Lemma get_insert_ne (o : obj) (k k' : jsstring) (v : value) : k <> k' -> get (<[k := v]> o) k' = get o k'.
Proof. intros H. unfold get. now rewrite lookup_insert_ne. Qed.

Lemma get_insert_eq (o : obj) (k : jsstring) (v : value) : get (<[k := v]> o) k = v.
Proof. unfold get. now rewrite lookup_insert_eq. Qed.

Lemma get_union_l (a b : obj) (k : jsstring) (v : value) : a !! k = Some v -> get (a ∪ b) k = v.
Proof.
  intros H. unfold get. now rewrite (lookup_union_Some_l a b k v H).
Qed.

Lemma get_union_r (a b : obj) (k : jsstring) : a !! k = None -> get (a ∪ b) k = get b k.
Proof. intros H. unfold get. now rewrite lookup_union_r. Qed.

Lemma new_task_fields (id c u : jsstring) (d : obj) :
  get (new_task id c u d) k_completed = VBool false /\
  get (new_task id c u d) k_status = or_else (get d k_status) (VStr (lit "Todo")).
Proof.
  unfold new_task. split.
  - rewrite !get_insert_ne by key_ne. apply get_insert_eq.
  - rewrite !get_insert_ne by key_ne. apply get_insert_eq.
Qed.

Lemma new_task_consistent (id c u : jsstring) (d : obj) :
  get d k_status <> VStr (lit "Completed") -> consistent (new_task id c u d).
Proof.
  intros Hd. destruct (new_task_fields id c u d) as [Hc Hs].
  unfold consistent. rewrite Hc, Hs. split; [discriminate|].
  unfold or_else. destruct (truthy (get d k_status)); [congruence|discriminate].
Qed.

Lemma merged_consistent (u : jsstring) (updates old : obj) :
  updates !! k_status = None -> updates !! k_completed = None ->
  consistent old -> consistent (<[k_updatedAt := VStr u]> (updates ∪ old)).
Proof.
  intros Hs Hc Hold. unfold consistent.
  rewrite !get_insert_ne by key_ne. now rewrite !get_union_r.
Qed.

Lemma merged_flags (u : jsstring) (updates old : obj) (b : bool) (s : jsstring) :
  updates !! k_completed = Some (VBool b) ->
  updates !! k_status = Some (VStr s) ->
  (b = true <-> s = lit "Completed") ->
  consistent (<[k_updatedAt := VStr u]> (updates ∪ old)).
Proof.
  intros Hc Hs Hbs. unfold consistent.
  rewrite !get_insert_ne by key_ne.
  rewrite (get_union_l _ _ _ _ Hc), (get_union_l _ _ _ _ Hs).
  split; intros E; injection E as E; f_equal; tauto.
Qed.

(** What is read back after a save: the tasks as JSON keeps them. *)
Lemma loadTasks_saveTasks (w : write_outcome) (tasks : list obj) (st : storage) :
  loadTasks (snd (saveTasks w tasks st))
  = match w with
    | TasksWriteFails => loadTasks st
    | _ => through_JSON_obj <$> tasks
    end.
Proof.
  destruct w; cbn [saveTasks snd loadTasks tasks_item]; try reflexivity;
    apply through_JSON_all_idemp.
Qed.

Lemma saveTasks_saved (w : write_outcome) (tasks : list obj) (st : storage) :
  fst (saveTasks w tasks st) = true -> w = WriteOk.
Proof. destruct w; [reflexivity|discriminate..]. Qed.

(** Every task read from the storage is data that JSON keeps. *)
Lemma loadTasks_data (st : storage) : Forall JSON_data (loadTasks st).
Proof.
  unfold loadTasks, JSON_parse. destruct (tasks_item st) as [l|]; [|constructor].
  apply Forall_fmap, Forall_forall. intros o _. apply JSON_data_through.
Qed.

Lemma consistent_through_JSON (t : obj) :
  consistent t -> consistent (through_JSON_obj t).
Proof.
  unfold consistent.
  now rewrite get_through_JSON_obj_bool, get_through_JSON_obj_str.
Qed.

Lemma coherent_saveTasks (w : write_outcome) (tasks : list obj) (st : storage) :
  Forall consistent tasks -> coherent st ->
  coherent (snd (saveTasks w tasks st)).
Proof.
  intros Ht Hst. unfold coherent. rewrite loadTasks_saveTasks.
  destruct w; try assumption;
    apply Forall_fmap; eapply Forall_impl; eauto using consistent_through_JSON.
Qed.

(** What [updateTask] stores and returns, for an update that keeps tasks
    consistent. *)
Lemma updateTask_coherent (w : write_outcome) (u id : jsstring) (updates : obj)
    (st : storage) :
  (forall old, consistent old ->
               consistent (<[k_updatedAt := VStr u]> (updates ∪ old))) ->
  coherent st ->
  coherent (snd (updateTask w u id updates st)) /\
  (forall t, fst (updateTask w u id updates st) = Some t -> consistent t).
Proof.
  intros Hupd Hst. unfold updateTask.
  destruct (findIndex id (loadTasks st)) as [index|]; [|split; [assumption|discriminate]].
  destruct (loadTasks st !! index) as [old|] eqn:Hold;
    [|split; [assumption|discriminate]].
  assert (Hnew : consistent (<[k_updatedAt := VStr u]> (updates ∪ old))).
  { apply Hupd. unfold coherent in Hst. rewrite Forall_lookup in Hst. eauto. }
  assert (Hall : Forall consistent
                   (<[index := <[k_updatedAt := VStr u]> (updates ∪ old)]> (loadTasks st))).
  { apply Forall_insert; assumption. }
  pose proof (coherent_saveTasks w _ st Hall Hst) as Hsaved.
  destruct (saveTasks w _ st) as [[|] st'] eqn:E; cbn [fst snd] in *;
    (split; [assumption|]); intros t Et; simplify_eq; assumption.
Qed.

Lemma step_coherent (o : op) (st : storage) :
  plain_op o -> coherent st ->
  coherent (step o st) /\ (forall t, produced o st = Some t -> consistent t).
Proof.
  intros Hp Hst. destruct o as [w id c u d|w u id upd|w c u id|w u id]; simpl in *.
  - pose proof (new_task_consistent id c u d Hp) as Hnew.
    assert (Hall : Forall consistent (loadTasks st ++ [new_task id c u d])).
    { apply Forall_app. split; [assumption|]. now constructor. }
    pose proof (coherent_saveTasks w _ st Hall Hst) as Hsaved.
    unfold addTask.
    destruct (saveTasks w _ st) as [[|] st'] eqn:E; cbn [fst snd] in *;
      (split; [assumption|]); intros t Et; simplify_eq; assumption.
  - destruct Hp as [Hs Hc]. apply updateTask_coherent; [|assumption].
    intros old. now apply merged_consistent.
  - apply updateTask_coherent; [|assumption].
    intros old _. apply (merged_flags _ _ _ true (lit "Completed")); try reflexivity.
    tauto.
  - apply updateTask_coherent; [|assumption].
    intros old _. apply (merged_flags _ _ _ false (lit "Todo")); try reflexivity.
    split; discriminate.
Qed.

Lemma run_coherent (ops : list op) (st : storage) :
  Forall plain_op ops -> coherent st -> coherent (run ops st).
Proof.
  intros Hops. revert st. induction Hops as [|o ops Ho _ IH]; intros st Hst.
  - assumption.
  - simpl. apply IH. now apply step_coherent.
Qed.

End Lifecycle.

(** C1, as the code has it.  Starting from an empty storage, after any run
    of [addTask] with task data whose status is not ["Completed"],
    [updateTask] with updates that carry neither [status] nor [completed],
    [completeTask] and [uncompleteTask], whether or not a write fails, every
    stored task and every task an operation returns has [completed] equal
    to [true] exactly when [status] is ["Completed"]. *)
Theorem lifecycle_keeps_completed_mirror :
  forall (ops : list op) (o : op),
    Forall plain_op ops -> plain_op o ->
    let st := run ops empty_storage in
    Forall consistent (loadTasks st) /\
    Forall consistent (loadTasks (step o st)) /\
    (forall t, produced o st = Some t -> consistent t).
Proof.
  intros ops o Hops Ho st.
  assert (Hst : coherent st).
  { apply run_coherent; [assumption|]. constructor. }
  split; [exact Hst|]. now apply step_coherent.
Qed.

Lemma lifecycle_keeps_completed_mirror_witness :
  let form : obj := {[k_title := VStr (lit "Read chapter 4")]} in
  let ops := [OpAdd WriteOk (lit "task_1") (lit "t0") (lit "t0") form;
              OpComplete WriteOk (lit "t1") (lit "t1") (lit "task_1")] in
  Forall consistent (loadTasks (run ops empty_storage)).
Proof.
  intros form ops.
  refine (proj1 (lifecycle_keeps_completed_mirror ops
                   (OpUncomplete WriteOk (lit "t2") (lit "task_1")) _ _)).
  - repeat constructor. vm_compute. discriminate.
  - exact I.
Defined.

(** C1, as stated, fails: [addTask] keeps the status its caller gives and
    sets [completed] to [false] all the same. *)
Lemma lifecycle_status_from_caller_breaks_mirror :
  let taskData : obj := {[k_status := VStr (lit "Completed")]} in
  let st := step (OpAdd WriteOk (lit "task_1") (lit "t0") (lit "t0") taskData)
                 empty_storage in
  exists t, loadTasks st = [t] /\
            get t k_status = VStr (lit "Completed") /\
            get t k_completed = VBool false /\
            ~ consistent t.
Proof.
  eexists. split; [vm_compute; reflexivity|].
  split; [vm_compute; reflexivity|]. split; [vm_compute; reflexivity|].
  intros [_ H]. vm_compute in H. discriminate (H eq_refl).
Qed.

(** ** Import *)

Section ImportFacts.

Lemma check_fields_objects (fields : list jsstring) (t : obj) :
  match check_fields fields (VObj t) with
  | FieldsPresent => Forall (fun f => is_Some (t !! f)) fields
  | FieldMissing f => f ∈ fields /\ ~ Forall (fun f => is_Some (t !! f)) fields
  | InThrows _ => False
  end.
Proof.
  induction fields as [|f fields IH]; cbn [check_fields has_field]; [constructor|].
  case_bool_decide as E.
  - destruct (check_fields fields (VObj t)); [now constructor| |assumption].
    destruct IH as [Hin Hno]. split; [now right|]. intros H. inv H. auto.
  - split; [now left|]. intros H. inv H. auto.
Qed.

Lemma check_tasks_objects (tasks : list obj) :
  match check_tasks (VObj <$> tasks) with
  | FieldsPresent => Forall has_required tasks
  | FieldMissing f => f ∈ requiredFields /\ ~ Forall has_required tasks
  | InThrows _ => False
  end.
Proof.
  induction tasks as [|t tasks IH]; cbn [fmap list_fmap check_tasks]; [constructor|].
  pose proof (check_fields_objects requiredFields t) as Ht.
  destruct (check_fields requiredFields (VObj t)); [| |assumption].
  - destruct (check_tasks (VObj <$> tasks)); [now constructor| |assumption].
    destruct IH as [Hin Hno]. split; [assumption|]. intros H. inv H. auto.
  - destruct Ht as [Hin Hno]. split; [assumption|]. intros H. inv H. auto.
Qed.

Lemma as_objects_of_objects (tasks : list obj) : as_objects (VObj <$> tasks) = tasks.
Proof.
  unfold as_objects. induction tasks as [|t tasks IH]; [reflexivity|].
  cbn. now f_equal.
Qed.

Lemma saveSettings_keeps_tasks (ok : bool) (v : value) (st : storage) :
  loadTasks (snd (saveSettings ok v st)) = loadTasks st.
Proof. now destruct ok. Qed.

(** [importData] on data whose task array holds objects, the write of the
    tasks going through. *)
Lemma importData_of_objects (in_error_message : value -> jsstring) (ws : bool)
    (m : obj) (tasks : list obj) (st : storage) :
  m !! k_tasks = Some (VArr (VObj <$> tasks)) ->
  let r := importData in_error_message WriteOk ws (VObj m) st in
  (success (fst r) = true <-> Forall has_required tasks) /\
  (Forall has_required tasks ->
   loadTasks (snd r) = through_JSON_obj <$> tasks /\
   settings_item (snd r)
   = if truthy (get m k_settings) && is_object (get m k_settings) && ws
     then Some (through_JSON (get m k_settings)) else settings_item st) /\
  (~ Forall has_required tasks ->
   snd r = st /\
   exists f, f ∈ requiredFields /\
             message (fst r) = lit "Task missing required field: " ++ f).
Proof.
  intros Hm.
  assert (Hg : get m k_tasks = VArr (VObj <$> tasks)) by (unfold get; now rewrite Hm).
  unfold importData. rewrite Hg.
  pose proof (check_tasks_objects tasks) as Hc.
  destruct (check_tasks (VObj <$> tasks)) as [|f|t]; [| |contradiction].
  - rewrite as_objects_of_objects.
    pose proof (loadTasks_saveTasks WriteOk tasks st) as Hl.
    destruct (saveTasks WriteOk tasks st) as [saved st1] eqn:E.
    unfold saveTasks in E. injection E as <- E.
    assert (Hs : settings_item st1 = settings_item st) by now rewrite <- E.
    cbn [snd] in Hl. cbv zeta. split; [cbn; tauto|]. split; [|tauto]. intros _.
    destruct (truthy (get m k_settings) && is_object (get m k_settings));
      cbn [fst snd andb]; [|auto].
    rewrite saveSettings_keeps_tasks. split; [assumption|].
    destruct ws; cbn [saveSettings snd settings_item]; auto.
  - destruct Hc as [Hin Hno]. cbv zeta. cbn [fst snd success message].
    split; [split; [discriminate|tauto]|]. split; [tauto|]. eauto.
Qed.

(** Only objects pass the check of the five fields. *)
Lemma check_fields_required (t : value) :
  check_fields requiredFields t = FieldsPresent ->
  exists m, t = VObj m /\ has_required m.
Proof.
  intros H. destruct t as [| |b|n|s|l|m]; try discriminate H.
  exists m. split; [reflexivity|].
  pose proof (check_fields_objects requiredFields m) as Hm. now rewrite H in Hm.
Qed.

Lemma check_tasks_required (tasks : list value) :
  check_tasks tasks = FieldsPresent ->
  tasks = VObj <$> as_objects tasks /\ Forall has_required (as_objects tasks).
Proof.
  induction tasks as [|t tasks IH]; cbn [check_tasks]; [now split; [|constructor]|].
  destruct (check_fields requiredFields t) eqn:E; try discriminate.
  apply check_fields_required in E as (m & -> & Hm).
  intros H. destruct (IH H) as [E Hall]. unfold as_objects in *.
  cbn [omap list_omap]. split; [rewrite fmap_cons; now f_equal|].
  now constructor.
Qed.


End ImportFacts.




(** ** Search *)

(** C2 at a failing input.  The stored task has no [status], so its card and
    its row show the status ["Todo"], and the pattern matches ["Todo"]; the
    search filter tests the empty string for it and does not find the
    task. *)
Theorem filterTasksByRegex_absent_status_is_not_Todo :
  let t : obj := list_to_map [(k_title, VStr (lit "Read chapter 4"));
                              (k_tag, VStr (lit "Academic"));
                              (k_dueDate, VStr (lit "2026-12-01"))] in
  let st := {| tasks_item := Some [t]; settings_item := None;
               version_item := None |} in
  let r := literal (lit "Todo") in
  t !! k_status = None /\
  truthy (get t k_completed) = false /\
  status_badge t = VStr (lit "Todo") /\
  test r (status_badge t) = Some true /\
  filterTasksByRegex (Some r) st = Some [].
Proof. repeat split; vm_compute; reflexivity. Qed.

(** ** Highlight *)

(** C6 at a failing input.  The pattern [amp] does not match the text
    ["Q&A"], which the search filter tests as it is; [highlightMatches]
    matches after escaping and marks ["amp"] inside the entity that stands
    for [&]. *)
Theorem highlightMatches_marks_inside_an_entity :
  index_of (lit "amp") (lit "Q&A") = None /\
  test (literal (lit "amp")) (VStr (lit "Q&A")) = Some false /\
  highlightMatches (VStr (lit "Q&A")) (Some (literal (lit "amp")))
  = VStr (lit "Q&<mark>amp</mark>;A").
Proof. repeat split; vm_compute; reflexivity. Qed.

(** ** Tasks due soon *)

Section DueSoon.

Variable tza : Z.
Variable legacy_parse : jsstring -> option Z.

(** The day number of a time value is the day of its calendar fields. *)
Lemma MakeDay_of_fields t :
  MakeDay (YearFromTime t) (MonthFromTime t) (DateFromTime t) = Day t.
Proof.
  destruct (civil_bounds t) as [HM _].
  rewrite MakeDay_in_year by assumption.
  unfold DateFromTime, DayWithinYear. lia.
Qed.

Lemma MakeDay_add_days y m d n : MakeDay y m (d + n) = MakeDay y m d + n.
Proof. unfold MakeDay. lia. Qed.

Lemma local_midnight now :
  setHours0 tza now = Day (now + tza) * msPerDay - tza.
Proof. unfold setHours0, UTC, MakeDate, LocalTime. lia. Qed.

Lemma days_later now n :
  let today := setHours0 tza now in
  setDate tza today (getDate tza today + n)
  = (Day (now + tza) + n) * msPerDay - tza.
Proof.
  cbn zeta. unfold setDate, getDate, setHours0.
  rewrite !LocalTime_UTC.
  rewrite MakeDay_add_days, MakeDay_of_fields.
  rewrite TimeWithinDay_MakeDate, Day_MakeDate by (unfold msPerDay; lia).
  unfold UTC, MakeDate, LocalTime. lia.
Qed.

(** The tasks selected when every due date has a primitive: not completed,
    and due at an instant from local midnight today to local midnight [n]
    days later. *)
Lemma getTasksDueInDays_window (now : Z) (days : option Z) (st : storage) (t : obj) :
  Forall (fun t => is_Some (Date_of_value legacy_parse (get t k_dueDate)))
         (loadTasks st) ->
  let n := default 7 days in
  let midnight := Day (now + tza) * msPerDay - tza in
  t ∈ getTasksDueInDays tza legacy_parse now days st <->
  t ∈ loadTasks st /\ truthy (get t k_completed) = false /\
  exists due, Date_of_value legacy_parse (get t k_dueDate) = Some (Some due) /\
              midnight <= due <= midnight + n * msPerDay.
Proof.
  intros Hall. cbn zeta. unfold getTasksDueInDays.
  rewrite days_later, local_midnight.
  match goal with
  | |- context [filter_throwing ?p ?l] =>
      destruct (filter_throwing_cases p l) as [[l' E]|E]
  end.
  2: { exfalso. rewrite Exists_exists in E. destruct E as (x & Hx & E).
       rewrite Forall_forall in Hall. destruct (Hall x Hx) as [d Hd].
       rewrite Hd in E. discriminate E. }
  rewrite E. cbn [default from_option id].
  rewrite !list_elem_of_In, (filter_throwing_In _ _ _ t E).
  destruct (Date_of_value legacy_parse (get t k_dueDate)) as [[due|]|];
    cbn [mbind option_bind date_ge date_le andb].
  - unfold msPerDay. split.
    + intros (? & H). injection H as H.
      rewrite !andb_true_iff, negb_true_iff, !Z.leb_le in H.
      destruct H as ((? & ?) & ?). repeat split; try assumption.
      exists due. split; [reflexivity|lia].
    + intros (? & ? & due' & [= <-] & ?). split; [assumption|]. f_equal.
      rewrite !andb_true_iff, negb_true_iff, !Z.leb_le.
      repeat split; try assumption; lia.
  - split; [intros (? & H); discriminate H|].
    intros (? & ? & due & ? & ?). discriminate.
  - split; [intros (? & H); discriminate H|].
    intros (? & ? & due & ? & ?). discriminate.
Qed.

(** A date-only text of a real calendar day is read as UTC midnight. *)
Lemma Date_of_value_date_only (s : jsstring) (y m d : Z) :
  parse_date_only s = Some (y, m, d) -> real_dateb y m d = true ->
  Date_of_value legacy_parse (VStr s)
  = Some (Some (MakeDay y (m - 1) d * msPerDay)).
Proof.
  intros Hp Hr. unfold Date_of_value, Date_parse. rewrite Hp, Hr.
  unfold MakeDate. do 2 f_equal. lia.
Qed.

(** In days: the window the code selects depends on the side of UTC the
    zone lies on. *)
Lemma getTasksDueInDays_by_zone (now : Z) (days : option Z) (st : storage)
    (t : obj) (y m d : Z) :
  - msPerDay < tza < msPerDay ->
  Forall (fun t => is_Some (Date_of_value legacy_parse (get t k_dueDate)))
         (loadTasks st) ->
  t ∈ loadTasks st -> truthy (get t k_completed) = false ->
  (exists s, get t k_dueDate = VStr s /\ parse_date_only s = Some (y, m, d)) ->
  real_dateb y m d = true ->
  let n := default 7 days in
  let today := Day (now + tza) in
  let due := MakeDay y (m - 1) d in
  t ∈ getTasksDueInDays tza legacy_parse now days st <->
  (if 0 <? tza then today <= due <= today + n - 1
   else if tza <? 0 then today + 1 <= due <= today + n
   else today <= due <= today + n).
Proof.
  intros Htza Hall Hin Hc (s & Hs & Hp) Hr. cbn zeta.
  rewrite getTasksDueInDays_window by assumption. cbn zeta.
  rewrite Hs, (Date_of_value_date_only s y m d Hp Hr).
  unfold msPerDay in *.
  destruct (Z.ltb_spec 0 tza); [|destruct (Z.ltb_spec tza 0)].
  - split.
    + intros (_ & _ & due & [= <-] & H1). lia.
    + intros H1. repeat split; try assumption. eexists. split; [reflexivity|]. lia.
  - split.
    + intros (_ & _ & due & [= <-] & H1). lia.
    + intros H1. repeat split; try assumption. eexists. split; [reflexivity|]. lia.
  - split.
    + intros (_ & _ & due & [= <-] & H1). lia.
    + intros H1. repeat split; try assumption. eexists. split; [reflexivity|]. lia.
Qed.

End DueSoon.

(** C5 at a failing input.  The clock reads the 2nd of November 2026 and
    the stored task, not completed, is due on the 9th, seven days later.  In
    a zone two hours east of UTC [getTasksDueInDays(7)] leaves it out, and in
    a zone five hours west it leaves out a task due today; on UTC both are
    returned. *)
Theorem getTasksDueInDays_misses_window_ends_off_UTC :
  let due_in_7 : obj := list_to_map [(k_id, VStr (lit "t1"));
                                     (k_dueDate, VStr (lit "2026-11-09"));
                                     (k_completed, VBool false)] in
  let due_today : obj := list_to_map [(k_id, VStr (lit "t2"));
                                      (k_dueDate, VStr (lit "2026-11-02"));
                                      (k_completed, VBool false)] in
  let st := {| tasks_item := Some [due_in_7; due_today];
               settings_item := None; version_item := None |} in
  let no_parse : jsstring -> option Z := fun _ => None in
  getTasksDueInDays two_hours_east no_parse t_2026_11_02 (Some 7) st = [due_today] /\
  getTasksDueInDays (-18000000) no_parse t_2026_11_02 None st = [due_in_7] /\
  getTasksDueInDays 0 no_parse t_2026_11_02 (Some 7) st = [due_in_7; due_today].
Proof. repeat split; vm_compute; reflexivity. Qed.

(** ** Grouping by tag *)

Section Grouping.

Implicit Types (g : gmap jsstring (list obj)) (t : obj) (k : jsstring).

Lemma group_step_plain g t k :
  group_key t = Some k -> plain_key t ->
  group_step g t = Some (<[k := default [] (g !! k) ++ [t]]> g).
Proof.
  intros Hk Hp. unfold group_step. fold (group_key t). rewrite Hk.
  cbn [mbind option_bind].
  destruct (g !! k); [reflexivity|].
  rewrite bool_decide_eq_false_2; [reflexivity|]. now apply Hp.
Qed.

(** A tag that has no text ends the grouping, wherever it stands. *)
Lemma group_all_throws (tasks : list obj) : forall g,
  Exists (fun t => group_key t = None) tasks -> group_all g tasks = None.
Proof.
  induction tasks as [|t tasks IH]; intros g H; [inv H|].
  cbn [group_all]. destruct (group_step g t) as [g'|] eqn:E; [|reflexivity].
  inv H; [|now apply IH].
  unfold group_step in E. fold (group_key t) in E.
  match goal with H : group_key t = None |- _ => rewrite H in E end.
  discriminate E.
Qed.

Lemma flatten_insert g k (l : list obj) :
  flatten (<[k := l]> g) ≡ₚ l ++ flatten (delete k g).
Proof.
  unfold flatten. rewrite <- insert_delete_eq.
  rewrite map_to_list_insert by apply lookup_delete_eq.
  reflexivity.
Qed.

Lemma flatten_lookup g k :
  flatten g ≡ₚ default [] (g !! k) ++ flatten (delete k g).
Proof.
  destruct (g !! k) as [l|] eqn:E; simpl.
  - rewrite <- (flatten_insert g k l). now rewrite insert_id.
  - now rewrite delete_id.
Qed.

Lemma flatten_group_step g t k :
  flatten (<[k := default [] (g !! k) ++ [t]]> g) ≡ₚ flatten g ++ [t].
Proof.
  rewrite flatten_insert, (flatten_lookup g k).
  rewrite <- !app_assoc. apply Permutation_app_head, Permutation_app_comm.
Qed.

Lemma group_all_plain (tasks : list obj) : forall g,
  Forall plain_key tasks ->
  Forall (fun t => is_Some (group_key t)) tasks ->
  exists g',
    group_all g tasks = Some g' /\
    (forall k, default [] (g' !! k) = default [] (g !! k) ++ tagged k tasks) /\
    (forall k, is_Some (g' !! k) <-> is_Some (g !! k) \/ tagged k tasks <> []) /\
    flatten g' ≡ₚ flatten g ++ tasks.
Proof.
  induction tasks as [|t tasks IH]; intros g Hp Ht.
  - exists g. split; [reflexivity|]. split; [|split].
    + intros k. now rewrite app_nil_r.
    + intros k. simpl. tauto.
    + now rewrite app_nil_r.
  - apply Forall_cons in Hp as [Hp Hps]. apply Forall_cons in Ht as [[kt Hkt] Hts].
    cbn [group_all]. rewrite (group_step_plain g t kt Hkt Hp).
    destruct (IH (<[kt := default [] (g !! kt) ++ [t]]> g))
      as (g' & Hg' & Hk & Hs & Hf); [assumption..|].
    exists g'. split; [assumption|]. split; [|split].
    + intros k. rewrite Hk. unfold tagged. cbn [List.filter]. rewrite Hkt.
      destruct (decide (kt = k)) as [<-|Hne].
      * rewrite lookup_insert_eq, bool_decide_eq_true_2 by reflexivity.
        simpl. now rewrite <- app_assoc.
      * rewrite lookup_insert_ne, bool_decide_eq_false_2 by congruence.
        reflexivity.
    + intros k. rewrite Hs. unfold tagged. cbn [List.filter]. rewrite Hkt.
      destruct (decide (kt = k)) as [<-|Hne].
      * rewrite lookup_insert_eq, bool_decide_eq_true_2 by reflexivity.
        split; [intros _; right; discriminate|intros _; left; eauto].
      * rewrite lookup_insert_ne, bool_decide_eq_false_2 by congruence.
        reflexivity.
    + rewrite Hf, flatten_group_step. now rewrite <- app_assoc.
Qed.

(** When every tag has a text and none is a name inherited from
    [Object.prototype], the groups are the tasks of each tag in stored
    order, and together they are the stored tasks. *)
Lemma getTasksByTagGrouped_partitions (st : storage) :
  Forall plain_key (loadTasks st) ->
  Forall (fun t => is_Some (group_key t)) (loadTasks st) ->
  (forall k (l : list obj),
      getTasksByTagGrouped st !! k = Some l ->
      l = tagged k (loadTasks st) /\ l <> []) /\
  (forall t k, t ∈ loadTasks st -> group_key t = Some k ->
               getTasksByTagGrouped st !! k = Some (tagged k (loadTasks st))) /\
  flatten (getTasksByTagGrouped st) ≡ₚ loadTasks st.
Proof.
  intros Hp Ht. unfold getTasksByTagGrouped.
  destruct (group_all_plain (loadTasks st) ∅ Hp Ht) as (g & -> & Hk & Hs & Hf).
  cbn [default from_option id].
  assert (Hget : forall k l, g !! k = Some l ->
                             l = tagged k (loadTasks st) /\ l <> []).
  { intros k l Hl. specialize (Hk k). rewrite Hl, lookup_empty in Hk.
    simpl in Hk. split; [assumption|].
    assert (Hsome : is_Some (g !! k)) by eauto.
    apply Hs in Hsome as [Hsome|Hne]; [|congruence].
    rewrite lookup_empty in Hsome. now destruct Hsome. }
  split; [exact Hget|]. split.
  - intros t k Hin Hkt.
    assert (Hne : tagged k (loadTasks st) <> []).
    { intros E. apply list_elem_of_In in Hin.
      assert (Hin' : In t (tagged k (loadTasks st))).
      { unfold tagged. apply filter_In. split; [assumption|].
        now apply bool_decide_eq_true_2. }
      rewrite E in Hin'. exact Hin'. }
    destruct (proj2 (Hs k) (or_intror Hne)) as [l Hl].
    rewrite Hl. f_equal. now apply Hget.
  - rewrite Hf. unfold flatten. now rewrite map_to_list_empty.
Qed.

End Grouping.

(** C8 at a failing input.  ["constructor"] is a tag [validateTag] accepts;
    with a task of that tag in storage the grouping throws on the inherited
    member of that name, and [getTasksByTagGrouped] returns the empty
    object: no group holds any task. *)
Theorem getTasksByTagGrouped_loses_tasks_on_inherited_name :
  let t1 : obj := list_to_map [(k_id, VStr (lit "t1"));
                               (k_tag, VStr (lit "Academic"))] in
  let t2 : obj := list_to_map [(k_id, VStr (lit "t2"));
                               (k_tag, VStr (lit "constructor"))] in
  let st := {| tasks_item := Some [t1; t2]; settings_item := None;
               version_item := None |} in
  validateTag (get t2 k_tag) = Some accept /\
  getTasksByTagGrouped st = ∅ /\
  flatten (getTasksByTagGrouped st) = [] /\
  ~ flatten (getTasksByTagGrouped st) ≡ₚ loadTasks st.
Proof.
  cbn zeta. split; [vm_compute; reflexivity|].
  split; [vm_compute; reflexivity|].
  assert (E : flatten (getTasksByTagGrouped
                {| tasks_item := Some
                     [list_to_map [(k_id, VStr (lit "t1")); (k_tag, VStr (lit "Academic"))];
                      list_to_map [(k_id, VStr (lit "t2")); (k_tag, VStr (lit "constructor"))]];
                   settings_item := None; version_item := None |}) = [])
    by (vm_compute; reflexivity).
  split; [exact E|]. rewrite E. intros H.
  apply Permutation_nil_l in H. discriminate H.
Qed.

(** ** Sorting *)

Section StringOrder.

Lemma str_lt_irrefl (a : jsstring) : str_lt a a = false.
Proof.
  induction a as [|x a IH]; [reflexivity|]. simpl.
  rewrite N.ltb_irrefl, N.eqb_refl, IH. reflexivity.
Qed.

Lemma str_lt_trans (a b c : jsstring) :
  str_lt a b = true -> str_lt b c = true -> str_lt a c = true.
Proof.
  revert b c. induction a as [|x a IH]; intros [|y b] [|z c]; simpl;
    try discriminate; try reflexivity.
  rewrite !orb_true_iff, !andb_true_iff, !N.ltb_lt, !N.eqb_eq.
  intros [Hxy|[Hxy Hab]] [Hyz|[Hyz Hbc]]; try (left; lia).
  right. split; [lia|]. eapply IH; eassumption.
Qed.

Lemma str_lt_total (a b : jsstring) :
  a <> b -> str_lt a b = true \/ str_lt b a = true.
Proof.
  revert b. induction a as [|x a IH]; intros [|y b] Hne; simpl;
    try congruence; auto.
  rewrite !orb_true_iff, !andb_true_iff, !N.ltb_lt, !N.eqb_eq.
  destruct (N.lt_trichotomy x y) as [?|[->|?]]; try tauto.
  destruct (IH b) as [?|?]; [congruence| |]; tauto.
Qed.

End StringOrder.

Section SortFacts.

Import SortSpec.

Variable legacy_parse : jsstring -> option Z.
Variable toLowerCase : jsstring -> jsstring.

Local Abbreviation key_of := (SortSpec.key_of legacy_parse toLowerCase).
Local Abbreviation before := (SortSpec.before legacy_parse toLowerCase).
Local Abbreviation compareTasks := (Sort.compareTasks legacy_parse toLowerCase).

Lemma key_ltb_lt (a b : sort_key) : key_ltb a b = true <-> key_lt a b.
Proof.
  destruct a, b; simpl; try (split; [discriminate|tauto]);
    [apply Z.ltb_lt|tauto].
Qed.

Lemma key_lt_trans (a b c : sort_key) : key_lt a b -> key_lt b c -> key_lt a c.
Proof.
  destruct a, b, c; simpl; try tauto; [lia|apply str_lt_trans].
Qed.

Lemma key_lt_irrefl (a : sort_key) : ~ key_lt a a.
Proof.
  destruct a; simpl; [lia|]. rewrite str_lt_irrefl. discriminate.
Qed.

Lemma key_lt_total (a b : sort_key) : same_kind a b -> a <> b -> key_lt a b \/ key_lt b a.
Proof.
  destruct a as [x|x], b as [y|y]; simpl; try tauto; intros _ Hne.
  - assert (x <> y) by congruence. lia.
  - apply str_lt_total. congruence.
Qed.

Lemma key_of_same_kind (field : jsstring) (a b : obj) (ka kb : sort_key) :
  key_of field a = Some ka -> key_of field b = Some kb -> same_kind ka kb.
Proof.
  unfold SortSpec.key_of. repeat case_bool_decide; intros Ha Hb;
    repeat match goal with
           | H : _ <$> mjoin ?o = Some _ |- _ =>
               destruct o as [[?|]|]; simpl in H; simplify_eq
           | H : match ?v with _ => _ end = Some _ |- _ => destruct v; simplify_eq
           end; try exact I; discriminate.
Qed.

(** The comparator in terms of the keys. *)
Lemma compareTasks_keys (field order : jsstring) (a b : obj) (ka kb : sort_key) :
  key_of field a = Some ka -> key_of field b = Some kb ->
  compareTasks field order a b
  = Some (decide_order order (key_ltb kb ka) (key_ltb ka kb)).
Proof.
  unfold SortSpec.key_of, Sort.compareTasks, lower_title.
  repeat case_bool_decide; intros Ha Hb;
    repeat match goal with
           | H : _ <$> mjoin ?o = Some _ |- _ =>
               destruct o as [[?|]|]; simpl in H; simplify_eq
           | H : match ?v with _ => _ end = Some _ |- _ => destruct v; simplify_eq
           end; try reflexivity; discriminate.
Qed.

Lemma before_trans (field order : jsstring) (x y z : obj) :
  before field order x y -> before field order y z -> before field order x z.
Proof.
  intros (kx & ky & Hx & Hy & Hxy) (ky' & kz & Hy' & Hz & Hyz).
  rewrite Hy in Hy'. injection Hy' as <-.
  exists kx, kz. repeat split; try assumption.
  case_bool_decide; eauto using key_lt_trans.
Qed.

Lemma before_asym (field order : jsstring) (x y : obj) :
  before field order x y -> before field order y x -> False.
Proof.
  intros (kx & ky & Hx & Hy & Hxy) (ky' & kx' & Hy' & Hx' & Hyx).
  rewrite Hy in Hy'. rewrite Hx in Hx'. simplify_eq.
  case_bool_decide; eapply key_lt_irrefl; eapply key_lt_trans; eassumption.
Qed.

Lemma NoDup_fmap_inj_on {B C : Type} (f : B -> C) (l : list B) (x y : B) :
  NoDup (f <$> l) -> x ∈ l -> y ∈ l -> f x = f y -> x = y.
Proof.
  induction l as [|a l IH]; intros Hnd Hx Hy E; [now apply elem_of_nil in Hx|].
  cbn [fmap list_fmap] in Hnd. apply NoDup_cons in Hnd as [Ha Hnd].
  apply elem_of_cons in Hx as [->|Hx], Hy as [->|Hy]; try reflexivity.
  - exfalso. apply Ha. rewrite E. now apply list_elem_of_fmap_2.
  - exfalso. apply Ha. rewrite <- E. now apply list_elem_of_fmap_2.
  - now apply IH.
Qed.

(** On tasks with distinct keys the comparator decides [before]. *)
Lemma compareTasks_decides (field order : jsstring) (l : list obj) (x y : obj) :
  distinct_keys legacy_parse toLowerCase field l ->
  x ∈ l -> y ∈ l -> x <> y ->
  exists c, compareTasks field order x y = Some c /\
            ((c < 0 /\ before field order x y) \/
             (0 < c /\ before field order y x)).
Proof.
  intros [Hkeys Hnd] Hx Hy Hne.
  rewrite Forall_forall in Hkeys.
  destruct (Hkeys x Hx) as [kx Hkx]. destruct (Hkeys y Hy) as [ky Hky].
  assert (Hk : kx <> ky).
  { intros ->. apply Hne.
    apply (NoDup_fmap_inj_on (key_of field) l); try assumption. congruence. }
  pose proof (key_of_same_kind field x y kx ky Hkx Hky) as Hkind.
  rewrite (compareTasks_keys field order x y kx ky Hkx Hky).
  eexists. split; [reflexivity|].
  assert (Hno : key_ltb kx ky = true -> key_ltb ky kx = true -> False).
  { rewrite !key_ltb_lt. intros H1 H2.
    eapply key_lt_irrefl, key_lt_trans; eassumption. }
  destruct (key_lt_total kx ky Hkind Hk) as [Hlt|Hlt];
    pose proof (proj2 (key_ltb_lt _ _) Hlt) as Hb;
    unfold decide_order, SortSpec.before; case_bool_decide.
  - destruct (key_ltb ky kx) eqn:E; [now exfalso; apply Hno|].
    left. split; [lia|]. exists kx, ky. repeat split; assumption.
  - rewrite Hb. right. split; [lia|]. exists ky, kx. repeat split; assumption.
  - rewrite Hb. right. split; [lia|]. exists ky, kx. repeat split; assumption.
  - destruct (key_ltb kx ky) eqn:E; [now exfalso; apply Hno|].
    left. split; [lia|]. exists kx, ky. repeat split; assumption.
Qed.

Lemma filter_all_true {B : Type} (p : B -> bool) (l : list B) :
  Forall (fun x => p x = true) l -> List.filter p l = l.
Proof.
  induction 1 as [|x l Hx _ IH]; [reflexivity|].
  cbn [List.filter]. now rewrite Hx, IH.
Qed.

Lemma filter_satisfy {B : Type} (p : B -> bool) (l : list B) :
  Forall (fun x => p x = true) (List.filter p l).
Proof.
  apply Forall_forall. intros x Hx. apply list_elem_of_In, filter_In in Hx. tauto.
Qed.

End SortFacts.

(** ** The sort of V8 on distinct, consistently compared elements *)

Section V8Sort.

Context {A : Type}.
Variable comparefn : A -> A -> option Z.
Variable lt : A -> A -> Prop.
Variable universe : list A.

Hypothesis lt_trans : forall x y z, lt x y -> lt y z -> lt x z.
Hypothesis compare_ok :
  forall x y, x ∈ universe -> y ∈ universe -> x <> y ->
              exists c, comparefn x y = Some c /\
                        ((c < 0 /\ lt x y) \/ (0 < c /\ lt y x)).

Lemma run_order_trans d x y z :
  SortSpec.run_order lt d x y -> SortSpec.run_order lt d y z -> SortSpec.run_order lt d x z.
Proof. destruct d; simpl; eauto. Qed.

Lemma Sorted_strongly (R : A -> A -> Prop) (l : list A) :
  (forall x y z, R x y -> R y z -> R x z) -> Sorted R l -> StronglySorted R l.
Proof.
  intros HR. induction 1 as [|x l Hs IH Hx]; constructor; [assumption|].
  clear Hs. induction IH as [|y l Hl _ Hy]; [constructor|].
  inv Hx. constructor; [assumption|].
  match goal with H : R x y |- _ => rename H into Hxy end.
  apply Forall_forall. intros z Hz. rewrite Forall_forall in Hy. eauto.
Qed.

Lemma StronglySorted_rev (R : A -> A -> Prop) (l : list A) :
  StronglySorted (fun a b => R b a) l -> StronglySorted R (rev l).
Proof.
  induction 1 as [|x l Hl IH Hx]; [constructor|]. simpl.
  apply StronglySorted_app_2; [|assumption|repeat constructor].
  intros a b Ha Hb. apply list_elem_of_singleton in Hb as ->.
  rewrite Forall_forall in Hx. apply Hx.
  apply list_elem_of_In, in_rev, list_elem_of_In in Ha. exact Ha.
Qed.

Lemma run_rest_spec d (l : list A) : forall prev,
  NoDup (prev :: l) -> prev :: l ⊆ universe ->
  exists run rest,
    run_rest comparefn d prev l = Some (run, rest) /\
    l = run ++ rest /\ Sorted (SortSpec.run_order lt d) (prev :: run).
Proof.
  induction l as [|x l IH]; intros prev Hnd Hsub.
  - exists [], []. repeat split. repeat constructor.
  - apply NoDup_cons in Hnd as [Hprev Hnd].
    assert (Hx : x ∈ universe) by (apply Hsub; set_solver).
    assert (Hp : prev ∈ universe) by (apply Hsub; set_solver).
    assert (Hne : x <> prev) by (intros ->; apply Hprev; set_solver).
    destruct (compare_ok x prev Hx Hp Hne) as (c & Hc & Hord).
    cbn [run_rest]. rewrite Hc. cbn [mbind option_bind].
    assert (Hsub' : x :: l ⊆ universe)
      by (intros z Hz; apply Hsub, elem_of_cons; now right).
    destruct (IH x Hnd Hsub') as (run & rest & Hr & -> & Hs).
    destruct d.
    + destruct (Z.leb_spec 0 c).
      * exists [], (x :: run ++ rest). repeat split. repeat constructor.
      * rewrite Hr. cbn. exists (x :: run), rest. repeat split.
        constructor; [assumption|]. constructor. simpl.
        destruct Hord as [[_ Hlt]|[Hc0 _]]; [assumption|lia].
    + destruct (Z.ltb_spec c 0).
      * exists [], (x :: run ++ rest). repeat split. repeat constructor.
      * rewrite Hr. cbn. exists (x :: run), rest. repeat split.
        constructor; [assumption|]. constructor. simpl.
        destruct Hord as [[Hc0 _]|[_ Hlt]]; [lia|assumption].
Qed.

Lemma count_and_make_run_spec (l : list A) :
  NoDup l -> l ⊆ universe ->
  exists run rest,
    count_and_make_run comparefn l = Some (run, rest) /\
    run ++ rest ≡ₚ l /\ StronglySorted lt run.
Proof.
  intros Hnd Hsub. destruct l as [|low [|x l]].
  - exists [], []. repeat split; constructor.
  - exists [low], []. repeat split; repeat constructor.
  - pose proof Hnd as Hnd'. apply NoDup_cons in Hnd' as [Hlow Hnd'].
    assert (Hx : x ∈ universe) by (apply Hsub; set_solver).
    assert (Hl : low ∈ universe) by (apply Hsub; set_solver).
    assert (Hne : x <> low) by (intros ->; apply Hlow; set_solver).
    destruct (compare_ok x low Hx Hl Hne) as (c & Hc & Hord).
    assert (Hsub' : x :: l ⊆ universe)
      by (intros z Hz; apply Hsub, elem_of_cons; now right).
    destruct (run_rest_spec (c <? 0) l x Hnd' Hsub')
      as (run & rest & Hr & -> & Hs).
    cbn [count_and_make_run]. rewrite Hc. cbn [mbind option_bind].
    rewrite Hr. cbn [mbind option_bind].
    assert (Hall : StronglySorted (SortSpec.run_order lt (c <? 0)) (low :: x :: run)).
    { apply Sorted_strongly; [apply run_order_trans|].
      constructor; [assumption|]. constructor.
      destruct (Z.ltb_spec c 0); simpl; destruct Hord as [[Hc0 Hlt]|[Hc0 Hlt]];
        first [assumption|lia]. }
    eexists _, rest. split; [reflexivity|].
    destruct (c <? 0); split.
    + change (low :: x :: run ++ rest) with ((low :: x :: run) ++ rest).
      apply Permutation_app_tail. symmetry. apply Permutation_rev.
    + apply (StronglySorted_rev lt (low :: x :: run)). exact Hall.
    + reflexivity.
    + exact Hall.
Qed.

Lemma sorted_lookup_lt (s : list A) (i j : nat) (a b : A) :
  StronglySorted lt s -> s !! i = Some a -> s !! j = Some b -> (i < j)%nat ->
  lt a b.
Proof.
  intros Hs Hi Hj Hij.
  rewrite <- (take_drop j s) in Hs.
  apply (StronglySorted_app_1_elem_of _ _ _ a b Hs).
  - apply list_elem_of_lookup. exists i. rewrite lookup_take_lt by assumption.
    assumption.
  - apply list_elem_of_lookup. exists 0%nat. rewrite lookup_drop.
    now rewrite Nat.add_0_r.
Qed.

Lemma search_place_spec (pivot : A) (sorted : list A) (fuel : nat) :
  forall left right,
    StronglySorted lt sorted -> pivot ∈ universe -> sorted ⊆ universe ->
    pivot ∉ sorted ->
    (left <= right <= length sorted)%nat -> (right - left < fuel)%nat ->
    SortSpec.brackets lt pivot sorted left right ->
    exists place,
      search_place comparefn fuel pivot sorted left right = Some place /\
      (place <= length sorted)%nat /\ SortSpec.brackets lt pivot sorted place place.
Proof.
  induction fuel as [|fuel IH]; intros left right Hs Hp Hsub Hnot Hlr Hf Hb;
    [lia|].
  cbn [search_place].
  destruct (Nat.ltb_spec left right) as [Hlt|Hge].
  - set (mid := (left + (right - left) / 2)%nat).
    assert (Hmid : (left <= mid < right)%nat).
    { unfold mid. split; [lia|].
      assert ((right - left) / 2 < right - left)%nat
        by (apply Nat.div_lt; lia). lia. }
    destruct (lookup_lt_is_Some_2 sorted mid ltac:(lia)) as [x Hx].
    rewrite Hx.
    assert (Hxs : x ∈ sorted) by (apply list_elem_of_lookup; eauto).
    assert (Hne : pivot <> x) by (intros ->; contradiction).
    destruct (compare_ok pivot x Hp (Hsub x Hxs) Hne) as (c & Hc & Hord).
    rewrite Hc. cbn [mbind option_bind]. destruct Hb as [Hlo Hhi].
    destruct (Z.ltb_spec c 0).
    + assert (Hpx : lt pivot x) by (destruct Hord as [[_ ?]|[? _]]; [assumption|lia]).
      apply IH; try assumption; [lia|lia|].
      split; [assumption|]. intros i y Hy Hi.
      destruct (decide (i = mid)) as [->|Hne'].
      * rewrite Hx in Hy. now injection Hy as <-.
      * apply (lt_trans _ x); [assumption|].
        apply (sorted_lookup_lt sorted mid i); try assumption. lia.
    + assert (Hxp : lt x pivot) by (destruct Hord as [[? _]|[_ ?]]; [lia|assumption]).
      apply IH; try assumption; [lia|lia|].
      split; [|intros i y Hy Hi; apply (Hhi i y Hy); lia].
      intros i y Hy Hi.
      destruct (decide (i = mid)) as [->|Hne'].
      * rewrite Hx in Hy. now injection Hy as <-.
      * apply (lt_trans _ x); [|assumption].
        apply (sorted_lookup_lt sorted i mid); try assumption. lia.
  - exists left. split; [reflexivity|]. split; [lia|].
    destruct Hb as [Hlo Hhi]. split; [assumption|].
    intros i y Hy Hi. apply (Hhi i y Hy). lia.
Qed.

Lemma binary_insert_spec (sorted : list A) (pivot : A) :
  StronglySorted lt sorted -> pivot ∈ universe -> sorted ⊆ universe ->
  pivot ∉ sorted ->
  exists sorted',
    binary_insert comparefn sorted pivot = Some sorted' /\
    sorted' ≡ₚ pivot :: sorted /\ StronglySorted lt sorted'.
Proof.
  intros Hs Hp Hsub Hnot. unfold binary_insert.
  destruct (search_place_spec pivot sorted (S (length sorted)) 0 (length sorted))
    as (place & Hplace & Hlen & Hlo & Hhi); try assumption; [lia|lia| |].
  { split; [intros i x _ Hi; lia|].
    intros i x Hx Hi. apply lookup_lt_Some in Hx. lia. }
  rewrite Hplace. cbn [mbind option_bind]. eexists. split; [reflexivity|].
  split.
  - rewrite <- Permutation_middle. now rewrite take_drop.
  - rewrite <- (take_drop place sorted) in Hs.
    apply StronglySorted_app in Hs as (Hcross & Htake & Hdrop).
    apply StronglySorted_app_2; [|assumption|].
    + intros a b Ha Hb'. apply elem_of_cons in Hb' as [->|Hb'].
      * apply list_elem_of_lookup in Ha as [i Hi].
        pose proof (lookup_lt_Some _ _ _ Hi) as Hlt.
        rewrite length_take in Hlt.
        rewrite lookup_take_lt in Hi by lia. apply (Hlo i a Hi). lia.
      * now apply Hcross.
    + constructor; [assumption|]. apply Forall_forall. intros b Hb'.
      apply list_elem_of_lookup in Hb' as [i Hi]. rewrite lookup_drop in Hi.
      apply (Hhi _ b Hi). lia.
Qed.

Lemma insert_all_spec (rest : list A) : forall sorted,
  StronglySorted lt sorted -> NoDup (sorted ++ rest) ->
  sorted ++ rest ⊆ universe ->
  exists out,
    insert_all comparefn sorted rest = Some out /\
    out ≡ₚ sorted ++ rest /\ StronglySorted lt out.
Proof.
  induction rest as [|pivot rest IH]; intros sorted Hs Hnd Hsub.
  - exists sorted. rewrite app_nil_r. repeat split; [reflexivity|assumption].
  - assert (Hnot : pivot ∉ sorted).
    { apply NoDup_app in Hnd as (_ & Hd & _). intros Hin.
      apply (Hd pivot Hin). set_solver. }
    assert (Hp : pivot ∈ universe) by (apply Hsub; set_solver).
    assert (Hss : sorted ⊆ universe) by set_solver.
    destruct (binary_insert_spec sorted pivot Hs Hp Hss Hnot)
      as (sorted' & Hbi & Hperm & Hs').
    cbn [insert_all]. rewrite Hbi. cbn [mbind option_bind].
    assert (Hperm' : sorted' ++ rest ≡ₚ sorted ++ pivot :: rest).
    { rewrite Hperm. now rewrite <- Permutation_middle. }
    destruct (IH sorted' Hs') as (out & Hout & Hpo & Hso).
    + now rewrite Hperm'.
    + intros z Hz. apply Hsub. now rewrite <- Hperm'.
    + exists out. split; [assumption|]. split; [|assumption].
      now rewrite Hpo.
Qed.

Lemma v8_sort_spec (l : list A) :
  NoDup l -> l ⊆ universe ->
  exists out, v8_sort comparefn l = Some out /\ out ≡ₚ l /\ StronglySorted lt out.
Proof.
  intros Hnd Hsub. unfold v8_sort.
  destruct (count_and_make_run_spec l Hnd Hsub) as (run & rest & Hrun & Hperm & Hs).
  rewrite Hrun. cbn [mbind option_bind].
  destruct (insert_all_spec rest run Hs) as (out & Hout & Hpo & Hso).
  - now rewrite Hperm.
  - intros z Hz. apply Hsub. now rewrite <- Hperm.
  - exists out. split; [assumption|]. split; [|assumption]. now rewrite Hpo.
Qed.

End V8Sort.

(** The sort of V8 is one of the sorts the theorems below speak of. *)
Lemma v8_sort_sorts_distinct : SortSpec.sorts_distinct (@v8_sort obj).
Proof.
  intros comparefn lt l Hnd Htrans Hcmp.
  apply (v8_sort_spec comparefn lt l Htrans Hcmp l Hnd). set_solver.
Qed.

(** C7, as the code has it.  Under any engine sort that sorts distinct,
    consistently compared elements, and for the not completed tasks of a
    storage whose keys under the sort field exist and are pairwise distinct:
    [sortTasks] returns those tasks in the order asked for; when they are
    stored in that order already it returns them unchanged, and sorting its
    own result again changes nothing. *)
Theorem sortTasks_idempotent_on_distinct_keys :
  forall (legacy_parse : jsstring -> option Z)
         (toLowerCase : jsstring -> jsstring)
         (array_sort : (obj -> obj -> option Z) -> list obj -> option (list obj)),
    SortSpec.sorts_distinct array_sort ->
    forall (field order : jsstring) (st : storage),
      SortSpec.distinct_keys legacy_parse toLowerCase field
        (List.filter not_completed (loadTasks st)) ->
      exists sorted,
        sortTasks legacy_parse toLowerCase array_sort field (Some order) st
        = Some sorted /\
        sorted ≡ₚ List.filter not_completed (loadTasks st) /\
        StronglySorted (SortSpec.before legacy_parse toLowerCase field order) sorted /\
        (StronglySorted (SortSpec.before legacy_parse toLowerCase field order)
           (List.filter not_completed (loadTasks st)) ->
         sorted = List.filter not_completed (loadTasks st)) /\
        (forall st' : storage,
            loadTasks st' = sorted ->
            sortTasks legacy_parse toLowerCase array_sort field (Some order) st'
            = Some sorted).
Proof.
  intros lp lower array_sort Hsorts field order st.
  set (tasks := List.filter not_completed (loadTasks st)).
  set (R := SortSpec.before lp lower field order).
  assert (Hgen : forall l : list obj,
             SortSpec.distinct_keys lp lower field l ->
             exists out, array_sort (compareTasks lp lower field order) l = Some out /\
                         out ≡ₚ l /\ StronglySorted R out).
  { intros l Hd. apply Hsorts.
    - destruct Hd as [_ Hnd]. now apply NoDup_fmap_1 in Hnd.
    - intros x y z. apply before_trans.
    - intros x y Hx Hy Hne. now apply (compareTasks_decides lp lower field order l). }
  assert (Huniq : forall l1 l2 : list obj,
             StronglySorted R l1 -> StronglySorted R l2 -> l1 ≡ₚ l2 -> l1 = l2).
  { intros l1 l2. apply StronglySorted_unique_strong.
    intros x y _ _ Hxy Hyx. exfalso. eapply before_asym; eassumption. }
  intros Hd. destruct (Hgen tasks Hd) as (sorted & Hsort & Hperm & Hs).
  exists sorted. split; [exact Hsort|]. split; [exact Hperm|].
  split; [exact Hs|]. split.
  - intros Hts. now apply Huniq.
  - intros st' Hst'. unfold sortTasks. cbn [default from_option id].
    rewrite Hst'.
    assert (Hkeep : List.filter not_completed sorted = sorted).
    { apply filter_all_true. rewrite Hperm. apply filter_satisfy. }
    rewrite Hkeep.
    assert (Hd' : SortSpec.distinct_keys lp lower field sorted).
    { destruct Hd as [Hk Hnd]. split; rewrite Hperm; assumption. }
    destruct (Hgen sorted Hd') as (again & Hagain & Hperm' & Hs').
    rewrite Hagain. f_equal. now apply Huniq.
Qed.

Lemma sortTasks_idempotent_on_distinct_keys_witness :
  let tasks := [task_of "a" 30; task_of "b" 60; task_of "c" 90] in
  sortTasks (fun _ => None) ascii_lower (@v8_sort obj) k_duration
    (Some (lit "asc")) (storage_of tasks)
  = Some tasks.
Proof.
  intros tasks.
  destruct (sortTasks_idempotent_on_distinct_keys (fun _ => None) ascii_lower
              (@v8_sort obj) v8_sort_sorts_distinct k_duration (lit "asc")
              (storage_of tasks))
    as (sorted & Hsort & _ & _ & Hfix & _).
  - split.
    + repeat constructor; vm_compute; eauto.
    + vm_compute.
      repeat (constructor;
              [let H := fresh in
               intros H;
               repeat (apply elem_of_cons in H as [H|H]; [discriminate H|]);
               now apply elem_of_nil in H|]).
      constructor.
  - rewrite Hsort. f_equal. apply Hfix.
    change (List.filter not_completed (loadTasks (storage_of tasks))) with tasks.
    assert (Ka : SortSpec.key_of (fun _ => None) ascii_lower k_duration
                   (task_of "a" 30) = Some (SortSpec.KeyNum 30))
      by (vm_compute; reflexivity).
    assert (Kb : SortSpec.key_of (fun _ => None) ascii_lower k_duration
                   (task_of "b" 60) = Some (SortSpec.KeyNum 60))
      by (vm_compute; reflexivity).
    assert (Kc : SortSpec.key_of (fun _ => None) ascii_lower k_duration
                   (task_of "c" 90) = Some (SortSpec.KeyNum 90))
      by (vm_compute; reflexivity).
    assert (Hab : SortSpec.before (fun _ => None) ascii_lower k_duration (lit "asc")
                    (task_of "a" 30) (task_of "b" 60)).
    { exists (SortSpec.KeyNum 30), (SortSpec.KeyNum 60).
      split; [exact Ka|]. split; [exact Kb|]. vm_compute. reflexivity. }
    assert (Hac : SortSpec.before (fun _ => None) ascii_lower k_duration (lit "asc")
                    (task_of "a" 30) (task_of "c" 90)).
    { exists (SortSpec.KeyNum 30), (SortSpec.KeyNum 90).
      split; [exact Ka|]. split; [exact Kc|]. vm_compute. reflexivity. }
    assert (Hbc : SortSpec.before (fun _ => None) ascii_lower k_duration (lit "asc")
                    (task_of "b" 60) (task_of "c" 90)).
    { exists (SortSpec.KeyNum 60), (SortSpec.KeyNum 90).
      split; [exact Kb|]. split; [exact Kc|]. vm_compute. reflexivity. }
    unfold tasks. repeat constructor; assumption.
Defined.

(** C7, as stated, fails: the comparator never answers "equal", and V8
    takes two tasks of equal duration for a descending run and reverses
    them, each time the sort is applied. *)
Lemma sortTasks_swaps_equal_keys :
  let a := task_of "a" 60 in
  let b := task_of "b" 60 in
  let sort := sortTasks (fun _ => None) ascii_lower (@v8_sort obj) k_duration
                (Some (lit "asc")) in
  sort (storage_of [a; b]) = Some [b; a] /\
  sort (storage_of [b; a]) = Some [a; b] /\
  (fun t : obj => get t k_id) <$> [b; a] <> (fun t : obj => get t k_id) <$> [a; b].
Proof. repeat split; vm_compute; try reflexivity. discriminate. Qed.

(** * The rest of the storage module *)

Section SingleTasks.

Implicit Types (id : jsstring) (t : obj) (st : storage) (l : list obj).

Lemma findIndex_find id l :
  match findIndex id l with
  | Some i => exists t, l !! i = Some t /\ find (has_id id) l = Some t /\
                        has_id id t = true /\
                        Forall (fun t' => has_id id t' = false) (take i l)
  | None => find (has_id id) l = None /\ Forall (fun t' => has_id id t' = false) l
  end.
Proof.
  induction l as [|t l IH]; cbn [findIndex find].
  - split; [reflexivity|constructor].
  - fold (has_id id t). destruct (has_id id t) eqn:E.
    + exists t. repeat split; [assumption|constructor].
    + destruct (findIndex id l) as [i|]; cbn [fmap option_fmap option_map].
      * destruct IH as (t' & Hl & Hf & Ht & Hall).
        exists t'. repeat split; try assumption. cbn [take]. now constructor.
      * destruct IH as [Hf Hall]. split; [assumption|now constructor].
Qed.

Lemma has_id_inv id t : has_id id t = true -> get t k_id = VStr id.
Proof.
  unfold has_id, strict_eq_str. destruct (get t k_id); try discriminate.
  intros H. apply bool_decide_eq_true_1 in H. now subst.
Qed.

Lemma has_id_other id id' t : has_id id t = true -> id' <> id -> has_id id' t = false.
Proof.
  intros H Hne. apply has_id_inv in H. unfold has_id. rewrite H. cbn.
  apply bool_decide_eq_false_2. congruence.
Qed.

Lemma find_none_filter id l :
  find (has_id id) l = None -> List.filter (fun t => negb (has_id id t)) l = l.
Proof.
  induction l as [|t l IH]; cbn [find List.filter]; [reflexivity|].
  destruct (has_id id t); [discriminate|]. intros H. cbn. f_equal. auto.
Qed.

Lemma filter_length_lt id l t :
  find (has_id id) l = Some t ->
  (length (List.filter (fun t => negb (has_id id t)) l) < length l)%nat.
Proof.
  induction l as [|x l IH]; cbn [find List.filter]; [discriminate|].
  destruct (has_id id x); cbn [negb length].
  - intros _. pose proof (List.filter_length_le (fun t => negb (has_id id t)) l). lia.
  - intros H. apply IH in H. lia.
Qed.

Lemma find_filter_same id l :
  find (has_id id) (List.filter (fun t => negb (has_id id t)) l) = None.
Proof.
  induction l as [|x l IH]; cbn [find List.filter]; [reflexivity|].
  destruct (has_id id x) eqn:E; cbn [negb]; [assumption|].
  cbn [find]. now rewrite E.
Qed.

Lemma find_filter_other id id' l :
  id' <> id ->
  find (has_id id') (List.filter (fun t => negb (has_id id t)) l)
  = find (has_id id') l.
Proof.
  intros Hne. induction l as [|x l IH]; cbn [find List.filter]; [reflexivity|].
  destruct (has_id id x) eqn:E; cbn [negb].
  - rewrite (has_id_other id id' x E Hne). assumption.
  - cbn [find]. now rewrite IH.
Qed.

Lemma find_app_none (p : obj -> bool) l l' :
  find p l = None -> find p (l ++ l') = find p l'.
Proof.
  induction l as [|x l IH]; cbn [find app]; [reflexivity|].
  destruct (p x); [discriminate|auto].
Qed.

Lemma find_app_some (p : obj -> bool) l l' t :
  find p l = Some t -> find p (l ++ l') = Some t.
Proof.
  induction l as [|x l IH]; cbn [find app]; [discriminate|].
  destruct (p x); auto.
Qed.

Lemma find_insert_hit (p : obj -> bool) l (i : nat) (x y : obj) :
  l !! i = Some x -> p y = true ->
  Forall (fun t => p t = false) (take i l) ->
  find p (<[i := y]> l) = Some y.
Proof.
  revert i. induction l as [|z l IH]; intros [|i] Hl Hy Hall; try discriminate.
  - cbn. now rewrite Hy.
  - cbn in Hl. cbn [take] in Hall. inv Hall.
    change (<[S i := y]> (z :: l)) with (z :: <[i := y]> l).
    cbn [find]. match goal with H : p z = false |- _ => rewrite H end.
    now apply IH.
Qed.

Lemma find_insert_miss (p : obj -> bool) l (i : nat) (x y : obj) :
  l !! i = Some x -> p x = false -> p y = false ->
  find p (<[i := y]> l) = find p l.
Proof.
  revert i. induction l as [|z l IH]; intros [|i] Hl Hx Hy; try discriminate.
  - cbn in Hl. injection Hl as ->. cbn. now rewrite Hx, Hy.
  - cbn in Hl. change (<[S i := y]> (z :: l)) with (z :: <[i := y]> l).
    cbn [find]. destruct (p z); [reflexivity|]. now apply IH.
Qed.

Lemma has_id_through_JSON id t : has_id id (through_JSON_obj t) = has_id id t.
Proof.
  unfold has_id, strict_eq_str. rewrite get_through_JSON_obj.
  destruct (get t k_id) as [| | |n| | |]; try reflexivity.
  cbn. now destruct (_ =? _).
Qed.

(** A save that goes through: what is read back. *)
Lemma saveTasks_WriteOk l st :
  exists st',
    saveTasks WriteOk l st = (true, st') /\
    loadTasks st' = through_JSON_obj <$> l /\
    settings_item st' = settings_item st.
Proof.
  eexists. split; [reflexivity|]. split; [|reflexivity].
  exact (loadTasks_saveTasks WriteOk l st).
Qed.

Lemma Forall_filter_data (p : obj -> bool) l :
  Forall JSON_data l -> Forall JSON_data (List.filter p l).
Proof.
  rewrite !Forall_forall. intros H x Hx.
  apply list_elem_of_In, filter_In in Hx as [Hx _].
  now apply H, list_elem_of_In.
Qed.

Lemma merged_data (u : jsstring) (updates old : obj) :
  JSON_data updates -> JSON_data old ->
  JSON_data (<[k_updatedAt := VStr u]> (updates ∪ old)).
Proof.
  intros Hu Ho. apply JSON_data_insert; [apply JSON_value_str|].
  now apply JSON_data_union.
Qed.

Lemma new_task_data (id c u : jsstring) (d : obj) :
  JSON_data d -> JSON_data (new_task id c u d).
Proof.
  intros Hd. unfold new_task.
  repeat (apply JSON_data_insert;
          [first [apply JSON_value_str|apply JSON_value_bool|idtac]|]).
  - unfold or_else. destruct (truthy (get d k_status)) eqn:E;
      [|apply JSON_value_str].
    unfold get in *. destruct (d !! k_status) as [v|] eqn:Ev; [|discriminate E].
    now apply (JSON_data_lookup d k_status).
  - apply JSON_data_union; [assumption|].
    apply JSON_data_insert; [apply JSON_value_str|apply JSON_data_empty].
Qed.

(** What [updateTask] does on an id it finds: the first task of that id is
    replaced by the merge, as JSON keeps it. *)
Lemma updateTask_found (u id : jsstring) (updates old : obj) st :
  find (has_id id) (loadTasks st) = Some old ->
  exists i st',
    loadTasks st !! i = Some old /\
    Forall (fun t => has_id id t = false) (take i (loadTasks st)) /\
    let task := <[k_updatedAt := VStr u]> (updates ∪ old) in
    updateTask WriteOk u id updates st = (Some task, st') /\
    loadTasks st' = <[i := through_JSON_obj task]> (loadTasks st).
Proof.
  intros Hf. pose proof (findIndex_find id (loadTasks st)) as H.
  unfold updateTask. destruct (findIndex id (loadTasks st)) as [i|].
  - destruct H as (t & Hl & Hf' & Ht & Hall).
    assert (t = old) by congruence. subst t.
    destruct (saveTasks_WriteOk
                (<[i := <[k_updatedAt := VStr u]> (updates ∪ old)]> (loadTasks st)) st)
      as (st' & Hs & Hload & _).
    exists i, st'. rewrite Hl, Hs. repeat split; try assumption.
    rewrite Hload, list_fmap_insert.
    now rewrite (through_JSON_all_data _ (loadTasks_data st)).
  - destruct H as [H _]. congruence.
Qed.

Lemma updateTask_missing (w : write_outcome) (u id : jsstring) (updates : obj) st :
  find (has_id id) (loadTasks st) = None ->
  updateTask w u id updates st = (None, st).
Proof.
  intros Hf. pose proof (findIndex_find id (loadTasks st)) as H.
  unfold updateTask. destruct (findIndex id (loadTasks st)) as [i|]; [|reflexivity].
  destruct H as (t & _ & H & _). congruence.
Qed.

Lemma merged_id (u id : jsstring) (updates old : obj) :
  updates !! k_id = None -> has_id id old = true ->
  has_id id (<[k_updatedAt := VStr u]> (updates ∪ old)) = true.
Proof.
  intros Hu Ho. unfold has_id in *.
  rewrite get_insert_ne by (intros E; vm_compute in E; discriminate).
  now rewrite get_union_r.
Qed.

(** After a successful [updateTask] with updates that carry no [id]. *)
Lemma updateTask_effect (u id : jsstring) (updates old : obj) st :
  find (has_id id) (loadTasks st) = Some old ->
  updates !! k_id = None ->
  exists st',
    let task := <[k_updatedAt := VStr u]> (updates ∪ old) in
    updateTask WriteOk u id updates st = (Some task, st') /\
    find (has_id id) (loadTasks st') = Some (through_JSON_obj task) /\
    In (through_JSON_obj task) (loadTasks st') /\
    (JSON_data updates -> through_JSON_obj task = task) /\
    length (loadTasks st') = length (loadTasks st) /\
    (forall id', id' <> id ->
                 find (has_id id') (loadTasks st') = find (has_id id') (loadTasks st)).
Proof.
  intros Hf Hu.
  destruct (updateTask_found u id updates old st Hf) as (i & st' & Hl & Hall & Hup & Hload).
  cbn zeta in Hup. exists st'. cbn zeta. split; [exact Hup|]. rewrite Hload.
  assert (Hold : has_id id old = true).
  { apply find_some in Hf. tauto. }
  assert (Hid : has_id id (through_JSON_obj (<[k_updatedAt := VStr u]> (updates ∪ old)))
                = true).
  { rewrite has_id_through_JSON. now apply merged_id. }
  assert (Hhit : find (has_id id)
                   (<[i := through_JSON_obj (<[k_updatedAt := VStr u]> (updates ∪ old))]>
                      (loadTasks st))
                 = Some (through_JSON_obj (<[k_updatedAt := VStr u]> (updates ∪ old)))).
  { now apply (find_insert_hit _ _ i old). }
  split; [exact Hhit|]. split; [|split; [|split]].
  - apply find_some in Hhit. tauto.
  - intros Hd. apply merged_data; [assumption|].
    pose proof (loadTasks_data st) as Hst. rewrite Forall_lookup in Hst. eauto.
  - apply length_insert.
  - intros id' Hne.
    apply (find_insert_miss _ _ i old); [assumption| |].
    + now apply (has_id_other id).
    + now apply (has_id_other id).
Qed.

End SingleTasks.

(** X1.  An id that no stored task carries changes nothing: [updateTask],
    [completeTask], [uncompleteTask] and [deleteTask] report failure and
    leave the storage as it is, without attempting a write. *)
Theorem unknown_id_changes_nothing :
  forall (w : write_outcome) (c u id : jsstring) (updates : obj) (st : storage),
    getTask id st = None ->
    updateTask w u id updates st = (None, st) /\
    completeTask w c u id st = (None, st) /\
    uncompleteTask w u id st = (None, st) /\
    deleteTask w id st = (false, st).
Proof.
  intros w c u id updates st H. unfold getTask in H.
  split; [now apply updateTask_missing|].
  split; [now apply updateTask_missing|].
  split; [now apply updateTask_missing|].
  unfold deleteTask. rewrite (find_none_filter id _ H).
  now rewrite Nat.eqb_refl.
Qed.

Lemma unknown_id_changes_nothing_witness :
  deleteTask TasksWriteFails (lit "b") (storage_of [task_of "a" 30])
  = (false, storage_of [task_of "a" 30]).
Proof.
  apply (unknown_id_changes_nothing TasksWriteFails [] [] (lit "b") ∅
           (storage_of [task_of "a" 30])).
  vm_compute. reflexivity.
Defined.

(** X2.  [deleteTask] on a stored id, the write going through: every task of that
    id is removed, not only the first, the others stay in their order, and
    afterwards [getTask] finds the id no more and every other id as before. *)
Theorem deleteTask_removes_every_match :
  forall (id : jsstring) (st : storage),
    is_Some (getTask id st) ->
    exists st',
      deleteTask WriteOk id st = (true, st') /\
      loadTasks st'
      = List.filter (fun t => negb (has_id id t)) (loadTasks st) /\
      getTask id st' = None /\
      (forall id', id' <> id -> getTask id' st' = getTask id' st).
Proof.
  intros id st [t Ht]. unfold getTask in *.
  pose proof (filter_length_lt id _ t Ht) as Hlt.
  unfold deleteTask.
  destruct (Nat.eqb_spec
              (length (List.filter (fun t => negb (has_id id t)) (loadTasks st)))
              (length (loadTasks st))) as [E|_]; [lia|].
  destruct (saveTasks_WriteOk
              (List.filter (fun t => negb (has_id id t)) (loadTasks st)) st)
    as (st' & Hs & Hload & _).
  rewrite (through_JSON_all_data _
             (Forall_filter_data _ _ (loadTasks_data st))) in Hload.
  exists st'. split; [exact Hs|]. rewrite Hload.
  split; [reflexivity|]. split; [apply find_filter_same|].
  intros id' Hne. now apply find_filter_other.
Qed.

Lemma deleteTask_removes_every_match_witness :
  exists st',
    deleteTask WriteOk (lit "a")
      (storage_of [task_of "a" 30; task_of "b" 45; task_of "a" 60]) = (true, st') /\
    loadTasks st' = [task_of "b" 45].
Proof.
  destruct (deleteTask_removes_every_match (lit "a")
              (storage_of [task_of "a" 30; task_of "b" 45; task_of "a" 60]))
    as (st' & H & Hl & _).
  - exists (task_of "a" 30). vm_compute. reflexivity.
  - exists st'. split; [exact H|]. rewrite Hl. vm_compute. reflexivity.
Defined.

(** X3.  [addTask] then [getTask]: when the task data carries no [id] of its own
    and no stored task has the generated id, the new task is appended as
    JSON keeps it, that is what [getTask] finds under the generated id, and
    every other id is found as before.  When the task data is JSON data,
    what is stored and found is the task that [addTask] returned. *)
Theorem addTask_then_getTask :
  forall (id created updated : jsstring) (taskData : obj) (st : storage),
    taskData !! k_id = None ->
    getTask id st = None ->
    exists task st',
      addTask WriteOk id created updated taskData st = (Some task, st') /\
      loadTasks st' = loadTasks st ++ [through_JSON_obj task] /\
      getTask id st' = Some (through_JSON_obj task) /\
      (JSON_data taskData -> through_JSON_obj task = task) /\
      (forall id', id' <> id -> getTask id' st' = getTask id' st).
Proof.
  intros id c u d st Hd Hf. unfold getTask in *.
  destruct (saveTasks_WriteOk (loadTasks st ++ [new_task id c u d]) st)
    as (st' & Hs & Hload & _).
  rewrite fmap_app, (through_JSON_all_data _ (loadTasks_data st)) in Hload.
  cbn [fmap list_fmap] in Hload.
  exists (new_task id c u d), st'.
  split; [unfold addTask; now rewrite Hs|]. rewrite Hload.
  assert (Hid : has_id id (through_JSON_obj (new_task id c u d)) = true).
  { rewrite has_id_through_JSON. unfold has_id, new_task.
    rewrite !get_insert_ne by (intros E; vm_compute in E; discriminate).
    rewrite get_union_r by assumption.
    unfold get. rewrite lookup_singleton_eq. cbn.
    now apply bool_decide_eq_true_2. }
  split; [reflexivity|]. split; [|split].
  - rewrite (find_app_none _ _ _ Hf). cbn [find]. now rewrite Hid.
  - apply new_task_data.
  - intros id' Hne. destruct (find (has_id id') (loadTasks st)) as [t|] eqn:E.
    + now apply find_app_some.
    + rewrite (find_app_none _ _ _ E). cbn [find].
      now rewrite (has_id_other id id' _ Hid Hne).
Qed.

Lemma addTask_then_getTask_witness :
  exists task st',
    addTask WriteOk (lit "task_1_7") [] [] {[k_title := VStr (lit "Essay")]}
      empty_storage
    = (Some task, st') /\
    getTask (lit "task_1_7") st' = Some task.
Proof.
  destruct (addTask_then_getTask (lit "task_1_7") [] []
              {[k_title := VStr (lit "Essay")]} empty_storage)
    as (task & st' & H & _ & Hg & Hd & _).
  - vm_compute. reflexivity.
  - reflexivity.
  - exists task, st'. split; [exact H|]. rewrite Hg. f_equal. apply Hd.
    vm_compute. reflexivity.
Defined.



Ltac keys_differ := let H := fresh in intros H; vm_compute in H; discriminate.

Section Completion.

Lemma completed_flag_views (t : obj) (l : list obj) (b : bool) :
  In t l -> get t k_completed = VBool b ->
  (In t (List.filter (fun t => strict_eq_true (get t k_completed)) l) <-> b = true) /\
  (In t (List.filter not_completed l) <-> b = false).
Proof.
  intros Hin Hb. rewrite !filter_In. unfold not_completed. rewrite Hb.
  destruct b; cbn; intuition congruence.
Qed.

Lemma uncompleted_fields (c u1 u2 : jsstring) (old : obj) :
  <[k_updatedAt := VStr u2]>
    (<[k_completedAt := VNull]>
       (<[k_completed := VBool false]> {[k_status := VStr (lit "Todo")]})
     ∪ <[k_updatedAt := VStr u1]>
         (<[k_completedAt := VStr c]>
            (<[k_completed := VBool true]> {[k_status := VStr (lit "Completed")]})
          ∪ old))
  = <[k_updatedAt := VStr u2]>
      (<[k_completedAt := VNull]>
         (<[k_completed := VBool false]> (<[k_status := VStr (lit "Todo")]> old))).
Proof.
  rewrite <- !insert_union_l, <- !insert_union_singleton_l.
  apply map_eq. intros k.
  destruct (decide (k = k_updatedAt)) as [->|?];
    [now rewrite !lookup_insert_eq|rewrite !(lookup_insert_ne _ k_updatedAt) by congruence].
  destruct (decide (k = k_completedAt)) as [->|?];
    [now rewrite !lookup_insert_eq|rewrite !(lookup_insert_ne _ k_completedAt) by congruence].
  destruct (decide (k = k_completed)) as [->|?];
    [now rewrite !lookup_insert_eq|rewrite !(lookup_insert_ne _ k_completed) by congruence].
  destruct (decide (k = k_status)) as [->|?];
    [now rewrite !lookup_insert_eq|rewrite !(lookup_insert_ne _ k_status) by congruence].
  now rewrite !lookup_insert_ne by congruence.
Qed.

End Completion.

(** X5.  [completeTask] and then [uncompleteTask] on a stored id, the writes going
    through.  Completing moves the task from the active list to the completed
    one, undoing moves it back; the task that comes back is the original with
    [status] set to ["Todo"] whatever it was, [completed] false,
    [completedAt] null and a new [updatedAt]. *)
Theorem complete_then_uncomplete :
  forall (c u1 u2 id : jsstring) (old : obj) (st : storage),
    getTask id st = Some old ->
    exists done st1 active1 again st2 active2,
      completeTask WriteOk c u1 id st = (Some done, st1) /\
      In done (getCompletedTasks st1) /\
      filterTasksByRegex None st1 = Some active1 /\
      ~ In done active1 /\
      uncompleteTask WriteOk u2 id st1 = (Some again, st2) /\
      filterTasksByRegex None st2 = Some active2 /\
      In again active2 /\
      ~ In again (getCompletedTasks st2) /\
      getTask id st2 = Some again /\
      again = <[k_updatedAt := VStr u2]>
                (<[k_completedAt := VNull]>
                   (<[k_completed := VBool false]>
                      (<[k_status := VStr (lit "Todo")]> old))).
Proof.
  intros c u1 u2 id old st Hf. unfold getTask in *.
  destruct (updateTask_effect u1 id
              (<[k_completedAt := VStr c]>
                 (<[k_completed := VBool true]> {[k_status := VStr (lit "Completed")]}))
              old st Hf) as (st1 & Hup1 & Hg1 & Hin1 & Hd1 & _); [reflexivity|].
  cbn zeta in *.
  rewrite Hd1 in Hg1, Hin1 by (vm_compute; reflexivity).
  destruct (updateTask_effect u2 id
              (<[k_completedAt := VNull]>
                 (<[k_completed := VBool false]> {[k_status := VStr (lit "Todo")]}))
              _ st1 Hg1) as (st2 & Hup2 & Hg2 & Hin2 & Hd2 & _); [reflexivity|].
  cbn zeta in *.
  rewrite Hd2 in Hg2, Hin2 by (vm_compute; reflexivity).
  rewrite uncompleted_fields in Hup2, Hg2, Hin2.
  do 6 eexists. split; [exact Hup1|].
  pose proof (completed_flag_views _ _ true Hin1) as [Hc1 Ha1].
  { rewrite !get_insert_ne by keys_differ.
    apply get_union_l. reflexivity. }
  pose proof (completed_flag_views _ _ false Hin2) as [Hc2 Ha2].
  { rewrite !get_insert_ne by keys_differ. apply get_insert_eq. }
  split; [now apply Hc1|]. split; [reflexivity|].
  split; [intros H; apply Ha1 in H; discriminate|].
  split; [exact Hup2|]. split; [reflexivity|].
  split; [now apply Ha2|]. split; [intros H; apply Hc2 in H; discriminate|].
  split; [exact Hg2|reflexivity].
Qed.

Lemma complete_then_uncomplete_witness :
  exists done st1 again st2,
    completeTask WriteOk (lit "t1") (lit "t1") (lit "a")
      (storage_of [<[k_status := VStr (lit "In Progress")]> (task_of "a" 30)])
    = (Some done, st1) /\
    uncompleteTask WriteOk (lit "t2") (lit "a") st1 = (Some again, st2) /\
    get again k_status = VStr (lit "Todo").
Proof.
  destruct (complete_then_uncomplete (lit "t1") (lit "t1") (lit "t2") (lit "a")
              (<[k_status := VStr (lit "In Progress")]> (task_of "a" 30))
              (storage_of [<[k_status := VStr (lit "In Progress")]> (task_of "a" 30)]))
    as (done & st1 & a1 & again & st2 & a2 & H1 & _ & _ & _ & H2 & _ & _ & _ & _ & E).
  - vm_compute. reflexivity.
  - exists done, st1, again, st2. split; [exact H1|]. split; [exact H2|].
    rewrite E. vm_compute. reflexivity.
Defined.

(** * Queries and statistics *)

Section Views.

Lemma two_filters_cover {B : Type} (p q : B -> bool) (l : list B) :
  (forall x, q x = true -> p x = false) ->
  (length (List.filter p l) + length (List.filter q l) <= length l)%nat /\
  ((length (List.filter p l) + length (List.filter q l) = length l)%nat ->
   Forall (fun x => p x = false -> q x = true) l).
Proof.
  intros Hd. induction l as [|x l [IHle IHall]]; cbn [List.filter length].
  - split; [lia|constructor].
  - specialize (Hd x).
    destruct (p x) eqn:Ep, (q x) eqn:Eq; cbn [length];
      try (discriminate (Hd eq_refl)).
    + split; [lia|]. intros E. constructor; [rewrite Ep; discriminate|apply IHall; lia].
    + split; [lia|]. intros E. constructor; [now rewrite Eq|apply IHall; lia].
    + split; [lia|]. intros E. lia.
Qed.

Lemma two_filters_split {B : Type} (p q : B -> bool) (l : list B) :
  (forall x, q x = true -> p x = false) ->
  Forall (fun x => p x = false -> q x = true) l ->
  List.filter p l ++ List.filter q l ≡ₚ l.
Proof.
  intros Hd Hall. induction Hall as [|x l Hx _ IH]; cbn [List.filter]; [reflexivity|].
  specialize (Hd x). destruct (p x) eqn:Ep.
  - destruct (q x); [discriminate (Hd eq_refl)|]. cbn. now rewrite IH.
  - rewrite (Hx eq_refl). rewrite <- Permutation_middle. now rewrite IH.
Qed.

End Views.

(** X6.  The active list ([filterTasksByRegex] without a pattern, which
    returns the tasks whose [completed] is falsy) and [getCompletedTasks]
    (the tasks whose [completed] is [true]) are together all the stored
    tasks exactly when no task has a [completed] that is truthy without
    being [true]. *)
Theorem active_and_completed_partition :
  forall st : storage,
  exists active,
    filterTasksByRegex None st = Some active /\
    (active ++ getCompletedTasks st ≡ₚ loadTasks st <->
     Forall (fun t => truthy (get t k_completed) = true ->
                      get t k_completed = VBool true) (loadTasks st)).
Proof.
  intros st. eexists. split; [reflexivity|]. unfold getCompletedTasks.
  assert (Hd : forall t : obj, strict_eq_true (get t k_completed) = true ->
                               not_completed t = false).
  { intros t. unfold not_completed.
    destruct (get t k_completed) as [| |[|]| | | |]; now try discriminate. }
  assert (Hiff : forall t : obj,
             (not_completed t = false -> strict_eq_true (get t k_completed) = true)
             <-> (truthy (get t k_completed) = true -> get t k_completed = VBool true)).
  { intros t. unfold not_completed.
    destruct (get t k_completed) as [| |[|]|n|s|l|m]; cbn;
      try (destruct (n =? 0)); try (destruct (Nat.eqb (length s) 0)); cbn;
      split; intros H; try reflexivity; try discriminate;
      intros H'; try discriminate; try (specialize (H eq_refl); discriminate). }
  split.
  - intros Hp. apply Permutation_length in Hp. rewrite length_app in Hp.
    destruct (two_filters_cover not_completed
                (fun t => strict_eq_true (get t k_completed)) (loadTasks st) Hd)
      as [_ Hall].
    specialize (Hall Hp). eapply Forall_impl; [exact Hall|].
    intros t Ht. now apply Hiff.
  - intros Hall. apply two_filters_split; [exact Hd|].
    eapply Forall_impl; [exact Hall|]. intros t Ht. now apply Hiff.
Qed.

Section Counting.

Variable member_text : jsstring -> jsstring.

Implicit Types (counts : gmap jsstring value) (t : obj) (k : jsstring).

Lemma plus_one_num (n : Z) : plus_one (VNum n) = Some (VNum (n + 1)).
Proof.
  unfold plus_one, or_else. cbn [truthy].
  destruct (Z.eqb_spec n 0) as [->|_]; reflexivity.
Qed.

Lemma plus_one_countable (v : value) :
  countable v -> exists v', plus_one v = Some v' /\ countable v'.
Proof.
  intros [[n ->]|[s ->]].
  - rewrite plus_one_num. eexists. split; [reflexivity|left; eauto].
  - unfold plus_one, or_else. destruct (truthy (VStr s));
      eexists; (split; [reflexivity|]); [right|left]; eauto.
Qed.

Lemma has_text_cases (l : list obj) :
  Forall (fun t => is_Some (group_key t)) l \/
  Exists (fun t => group_key t = None) l.
Proof.
  induction l as [|t l [IH|IH]]; [left; constructor| |right; now right].
  destruct (group_key t) as [k|] eqn:E; [left|right; now left].
  constructor; [rewrite E; eauto|assumption].
Qed.

(** A tag that has no text ends the count, wherever it stands. *)
Lemma count_all_throws (l : list obj) : forall counts,
  Exists (fun t => group_key t = None) l ->
  count_all member_text counts l = None.
Proof.
  induction l as [|t l IH]; intros counts H; [inv H|].
  cbn [count_all].
  destruct (count_step member_text counts t) as [counts'|] eqn:E; [|reflexivity].
  inv H; [|now apply IH].
  unfold count_step in E. fold (group_key t) in E.
  match goal with H : group_key t = None |- _ => rewrite H in E end.
  discriminate E.
Qed.

(** One turn on a tag that has a text. *)
Lemma count_step_text counts t kt :
  group_key t = Some kt -> map_Forall (fun _ v => countable v) counts ->
  exists counts',
    count_step member_text counts t = Some counts' /\
    map_Forall (fun _ v => countable v) counts' /\
    (forall k, k <> kt -> counts' !! k = counts !! k) /\
    (forall n, counts !! kt = Some (VNum n) -> counts' !! kt = Some (VNum (n + 1))) /\
    (kt ∉ object_prototype_members -> counts !! kt = None ->
     counts' !! kt = Some (VNum 1)).
Proof.
  intros Hk Hc. unfold count_step. fold (group_key t). rewrite Hk.
  cbn [mbind option_bind].
  destruct (counts !! kt) as [v|] eqn:E.
  - destruct (plus_one_countable v (Hc kt v E)) as (v' & Hv & Hv').
    rewrite Hv. cbn [mbind option_bind]. eexists. split; [reflexivity|].
    split; [now apply map_Forall_insert_2|]. split; [|split].
    + intros k Hne. now rewrite lookup_insert_ne.
    + intros n [= ->]. rewrite plus_one_num in Hv. injection Hv as <-.
      now rewrite lookup_insert_eq.
    + discriminate.
  - case_bool_decide as Ep; [|case_bool_decide as Em].
    + eexists. split; [reflexivity|]. split; [assumption|].
      split; [reflexivity|]. split; [congruence|].
      intros Hm _. exfalso. apply Hm. rewrite Ep.
      refine (bool_decide_eq_true_1 _ _). vm_compute. reflexivity.
    + eexists. split; [reflexivity|].
      split; [apply map_Forall_insert_2; [right; eauto|assumption]|].
      split; [intros k Hne; now rewrite lookup_insert_ne|].
      split; [congruence|]. intros Hm. now contradiction Hm.
    + cbn [plus_one or_else truthy mbind option_bind]. eexists.
      split; [reflexivity|].
      split; [apply map_Forall_insert_2; [left; eauto|assumption]|].
      split; [intros k Hne; now rewrite lookup_insert_ne|].
      split; [congruence|]. intros _ _. now rewrite lookup_insert_eq.
Qed.

(** The whole count, on tags that all have a text. *)
Lemma count_all_text (l : list obj) : forall counts,
  Forall (fun t => is_Some (group_key t)) l ->
  map_Forall (fun _ v => countable v) counts ->
  exists counts',
    count_all member_text counts l = Some counts' /\
    (forall k, tagged k l = [] -> counts' !! k = counts !! k) /\
    (forall k n, counts !! k = Some (VNum n) ->
                 counts' !! k = Some (VNum (n + Z.of_nat (length (tagged k l))))) /\
    (forall k, k ∉ object_prototype_members -> counts !! k = None ->
               counts' !! k = match tagged k l with
                              | [] => None
                              | l' => Some (VNum (Z.of_nat (length l')))
                              end).
Proof.
  induction l as [|t l IH]; intros counts Ht Hc.
  - exists counts. split; [reflexivity|]. split; [reflexivity|]. split.
    + intros k n H. rewrite H. cbn. do 2 f_equal. lia.
    + intros k _ H. exact H.
  - apply Forall_cons in Ht as [[kt Hkt] Ht].
    destruct (count_step_text counts t kt Hkt Hc)
      as (c1 & Hs & Hc1 & Hother & Hmore & Hfirst).
    destruct (IH c1 Ht Hc1) as (c2 & Hall & Hun & Hsome & Hnone).
    exists c2. cbn [count_all]. rewrite Hs. split; [exact Hall|].
    unfold tagged in *. cbn [List.filter]. rewrite Hkt.
    split; [|split].
    + intros k. case_bool_decide as E; [discriminate|]. intros H.
      rewrite Hun by assumption. apply Hother. congruence.
    + intros k n H. case_bool_decide as E.
      * injection E as ->. rewrite (Hsome _ (n + 1)) by now apply Hmore.
        cbn [length]. do 2 f_equal. lia.
      * rewrite (Hsome _ n); [reflexivity|]. rewrite Hother by congruence. exact H.
    + intros k Hk H. case_bool_decide as E.
      * injection E as ->. rewrite (Hsome _ 1) by now apply Hfirst.
        do 2 f_equal. cbn [length]. lia.
      * apply Hnone; [assumption|]. rewrite Hother by congruence. exact H.
Qed.

End Counting.

Lemma getTaskCountsByTag_counts_aux (member_text : jsstring -> jsstring)
    (st : storage) (k : jsstring) :
  Forall (fun t => is_Some (group_key t)) (loadTasks st) ->
  (k ∉ object_prototype_members ->
   getTaskCountsByTag member_text st !! k
   = match tagged k (loadTasks st) with
     | [] => None
     | l => Some (VNum (Z.of_nat (length l)))
     end) /\
  (tagged k (loadTasks st) = [] -> getTaskCountsByTag member_text st !! k = None).
Proof.
  intros Ht. unfold getTaskCountsByTag.
  destruct (count_all_text member_text (loadTasks st) ∅ Ht (map_Forall_empty _))
    as (counts & -> & Hun & _ & Hnone).
  cbn [default from_option id]. split.
  - intros Hk. now apply Hnone.
  - intros E. now rewrite Hun.
Qed.

Lemma getTaskCountsByTag_throws (member_text : jsstring -> jsstring) (st : storage) :
  Exists (fun t => group_key t = None) (loadTasks st) ->
  getTaskCountsByTag member_text st = ∅.
Proof.
  intros H. unfold getTaskCountsByTag. now rewrite count_all_throws.
Qed.

(** X7.  [getTaskCountsByTag] under a name that is not inherited from
    [Object.prototype].  When every tag has a text, the entry is the number
    of stored tasks whose tag reads as that name, and there is no entry when
    there is none, whatever the other tags are.  When some tag has no text,
    the count is given up and the result is the empty object. *)
Theorem getTaskCountsByTag_counts :
  forall (member_text : jsstring -> jsstring) (st : storage) (k : jsstring),
    k ∉ object_prototype_members ->
    (Forall (fun t => is_Some (group_key t)) (loadTasks st) ->
     getTaskCountsByTag member_text st !! k
     = match tagged k (loadTasks st) with
       | [] => None
       | l => Some (VNum (Z.of_nat (length l)))
       end) /\
    (Exists (fun t => group_key t = None) (loadTasks st) ->
     getTaskCountsByTag member_text st = ∅).
Proof.
  intros member_text st k Hk. split.
  - intros Ht. now apply getTaskCountsByTag_counts_aux.
  - apply getTaskCountsByTag_throws.
Qed.

Lemma getTaskCountsByTag_counts_witness :
  getTaskCountsByTag (fun _ => lit "function")
    (storage_of [{[k_tag := VStr (lit "Academic")]};
                 {[k_tag := VStr (lit "constructor")]};
                 {[k_tag := VStr (lit "Academic")]}])
  !! lit "Academic" = Some (VNum 2).
Proof.
  assert (H : lit "Academic" ∉ object_prototype_members).
  { refine (bool_decide_eq_false_1 _ _). vm_compute. reflexivity. }
  rewrite (proj1 (getTaskCountsByTag_counts (fun _ => lit "function") _
                    (lit "Academic") H)).
  - vm_compute. reflexivity.
  - repeat constructor; vm_compute; eauto.
Defined.

Lemma group_lookup (st : storage) (k : jsstring) :
  Forall plain_key (loadTasks st) ->
  Forall (fun t => is_Some (group_key t)) (loadTasks st) ->
  getTasksByTagGrouped st !! k
  = match tagged k (loadTasks st) with
    | [] => None
    | l => Some l
    end.
Proof.
  intros Hp Hs. destruct (getTasksByTagGrouped_partitions st Hp Hs) as (Hget & Hin & _).
  destruct (tagged k (loadTasks st)) as [|t l] eqn:E.
  - destruct (getTasksByTagGrouped st !! k) as [l|] eqn:El; [|reflexivity].
    destruct (Hget k l El) as [-> Hne]. congruence.
  - assert (Ht : In t (tagged k (loadTasks st))) by (rewrite E; now left).
    unfold tagged in Ht. apply filter_In in Ht as [Ht Hk].
    apply bool_decide_eq_true_1 in Hk.
    rewrite <- E. apply (Hin t); [now apply list_elem_of_In|assumption].
Qed.

(** X8.  When no tag is a name inherited from [Object.prototype], the counts of
    [getTaskCountsByTag] are the sizes of the groups of
    [getTasksByTagGrouped]. *)
Theorem getTaskCountsByTag_sizes_of_groups :
  forall (member_text : jsstring -> jsstring) (st : storage),
    Forall plain_key (loadTasks st) ->
    getTaskCountsByTag member_text st
    = (fun l => VNum (Z.of_nat (length l))) <$> getTasksByTagGrouped st.
Proof.
  intros member_text st Hp.
  destruct (has_text_cases (loadTasks st)) as [Hs|Hs].
  - apply map_eq. intros k. rewrite lookup_fmap, (group_lookup st k Hp Hs).
    destruct (getTaskCountsByTag_counts_aux member_text st k Hs) as [Hin Hout].
    destruct (tagged k (loadTasks st)) as [|t l] eqn:E; [now apply Hout|].
    rewrite Hin; [reflexivity|].
    assert (Ht : In t (tagged k (loadTasks st))) by (rewrite E; now left).
    unfold tagged in Ht. apply filter_In in Ht as [Ht Hk].
    apply bool_decide_eq_true_1 in Hk.
    rewrite Forall_forall in Hp. apply (Hp t); [now apply list_elem_of_In|assumption].
  - rewrite getTaskCountsByTag_throws by assumption.
    unfold getTasksByTagGrouped. rewrite group_all_throws by assumption.
    cbn [default from_option id]. now rewrite fmap_empty.
Qed.

Lemma getTaskCountsByTag_sizes_of_groups_witness :
  getTaskCountsByTag (fun _ => lit "function")
    (storage_of [{[k_tag := VStr (lit "Academic")]};
                 {[k_tag := VStr (lit "Social")]};
                 {[k_tag := VStr (lit "Academic")]}])
  !! lit "Academic" = Some (VNum 2).
Proof.
  rewrite (getTaskCountsByTag_sizes_of_groups (fun _ => lit "function")).
  - vm_compute. reflexivity.
  - repeat first [apply Forall_nil_2|apply Forall_cons_2];
      intros k E; vm_compute in E; injection E as <-;
      refine (bool_decide_eq_false_1 _ _); vm_compute; reflexivity.
Defined.

(** X9.  When every tag is a string and none is a name inherited from
    [Object.prototype], the group of a tag in [getTasksByTagGrouped] is what
    [getTasksByTag] returns for it, and a tag without tasks has no group. *)
Theorem getTasksByTagGrouped_agrees_with_getTasksByTag :
  forall (st : storage) (k : jsstring),
    Forall plain_key (loadTasks st) ->
    Forall (fun t => is_string (get t k_tag) = true) (loadTasks st) ->
    getTasksByTagGrouped st !! k
    = match getTasksByTag k st with
      | [] => None
      | l => Some l
      end.
Proof.
  intros st k Hp Hs.
  assert (Ht : Forall (fun t => is_Some (group_key t)) (loadTasks st)).
  { eapply Forall_impl; [exact Hs|]. intros t. unfold group_key. cbn beta.
    destruct (get t k_tag); intros H; try discriminate H. cbn. now eexists. }
  rewrite (group_lookup st k Hp Ht).
  assert (E : tagged k (loadTasks st) = getTasksByTag k st).
  { unfold tagged, getTasksByTag. apply filter_ext_in_iff. intros t Hin.
    apply list_elem_of_In in Hin. rewrite Forall_forall in Hs.
    specialize (Hs t Hin). unfold group_key.
    destruct (get t k_tag); try discriminate. cbn.
    apply bool_decide_ext. split; congruence. }
  now rewrite E.
Qed.

Lemma getTasksByTagGrouped_agrees_with_getTasksByTag_witness :
  getTasksByTagGrouped
    (storage_of [{[k_tag := VStr (lit "Academic")]};
                 {[k_tag := VStr (lit "Social")]}])
  !! lit "Social" = Some [{[k_tag := VStr (lit "Social")]}].
Proof.
  rewrite getTasksByTagGrouped_agrees_with_getTasksByTag.
  - vm_compute. reflexivity.
  - repeat first [apply Forall_nil_2|apply Forall_cons_2];
      intros k E; vm_compute in E; injection E as <-;
      refine (bool_decide_eq_false_1 _ _); vm_compute; reflexivity.
  - repeat constructor.
Defined.

(** * Durations *)

Section Durations.

Lemma Lang_cls_inv p b s :
  Lang (Seq (Cls p) b) s -> exists c v, s = c :: v /\ p c = true /\ Lang b v.
Proof.
  intros H. apply Lang_seq_inv in H as (u & v & -> & Hu & Hv).
  inv Hu. eauto.
Qed.

Lemma Lang_rep_cls p s : Lang (Rep (Cls p)) s -> Forall (fun c => p c = true) s.
Proof.
  induction s as [|c s IH]; intros H; [constructor|].
  apply Lang_rep_cons in H as (u & v & -> & Hu & Hv).
  inv Hu. constructor; [assumption|]. now apply IH.
Qed.

Lemma trimStart_split (s : jsstring) :
  exists sp, s = sp ++ trimStart s /\ Forall (fun c => is_space c = true) sp.
Proof.
  induction s as [|c s (sp & E & Hsp)]; [exists []; split; [reflexivity|constructor]|].
  cbn [trimStart]. destruct (is_space c) eqn:Hc.
  - exists (c :: sp). split; [cbn; now f_equal|now constructor].
  - exists []. split; [reflexivity|constructor].
Qed.

Lemma trimEnd_split (s : jsstring) :
  exists sp, s = trimEnd s ++ sp /\ Forall (fun c => is_space c = true) sp.
Proof.
  unfold trimEnd. destruct (trimStart_split (rev s)) as (sp & E & Hsp).
  exists (rev sp). split.
  - rewrite <- rev_app_distr, <- E. now rewrite rev_involutive.
  - now apply Forall_rev.
Qed.

Lemma digit_not_space (c : N) : is_digit c = true -> is_space c = false.
Proof.
  unfold is_digit. rewrite andb_true_iff, !N.leb_le. intros [H1 H2].
  unfold is_space.
  repeat (match goal with
          | |- context [(?a <=? ?b)%N] => destruct (N.leb_spec a b)
          | |- context [(?a =? ?b)%N] => destruct (N.eqb_spec a b)
          end; try lia).
Qed.

Lemma take_digits_app (d r : jsstring) :
  Forall (fun c => is_digit c = true) d ->
  Forall (fun c => is_space c = true) r ->
  take_digits (d ++ r) = d.
Proof.
  intros Hd Hr. induction Hd as [|c d Hc _ IH]; cbn [app take_digits].
  - destruct Hr as [|c r Hc _]; [reflexivity|]. cbn [take_digits].
    destruct (is_digit c) eqn:E; [|reflexivity].
    apply digit_not_space in E. congruence.
  - now rewrite Hc, IH.
Qed.

(** A number that is read as at most 2^53 is the integer it was read
    from. *)
Lemma Number_of_exact (n : Z) : 0 <= n -> Number_of n < 2 ^ 53 -> Number_of n = n.
Proof.
  intros H0 H. destruct (Z.lt_ge_cases n (2 ^ 53)) as [Hn|Hn].
  - apply Number_of_small. lia.
  - apply Number_of_big in Hn. lia.
Qed.

(** The text of a duration that passes the pattern, as [parseInt] reads it
    with and without the radix. *)
Lemma duration_text_parses (s : jsstring) :
  full_match DURATION_REGEX (trim s) = true ->
  parseInt (VStr s) = Some (Some (Number_of (digits_value (trim s)))) /\
  parseInt10 (trim s) = Some (Number_of (digits_value (trim s))) /\
  trim s <> [].
Proof.
  intros H. apply full_match_Lang in H. unfold DURATION_REGEX in H.
  apply Lang_cls_inv in H as (c & v & E & Hc & Hv).
  apply Lang_rep_cls in Hv.
  assert (Hc' : is_digit c = true).
  { unfold is_digit. apply andb_true_iff in Hc as [H1 H2].
    apply N.leb_le in H1. rewrite H2, andb_true_r. apply N.leb_le. lia. }
  assert (Hd : Forall (fun c => is_digit c = true) (trim s)).
  { rewrite E. now constructor. }
  unfold trim in *. destruct (trimEnd_split (trimStart s)) as (sp & Es & Hsp).
  remember (trimEnd (trimStart s)) as d eqn:Ed. clear Ed.
  assert (Hcs : (c = 49 \/ c = 50 \/ c = 51 \/ c = 52 \/ c = 53 \/ c = 54 \/
                 c = 55 \/ c = 56 \/ c = 57)%N).
  { apply andb_true_iff in Hc as [H1 H2]. apply N.leb_le in H1, H2. lia. }
  assert (Htake : take_digits (d ++ sp) = d) by now apply take_digits_app.
  assert (Htake' : take_digits d = d).
  { rewrite <- (app_nil_r d) at 1. apply take_digits_app; [assumption|constructor]. }
  split; [|split].
  - unfold parseInt, parseInt_of_string. cbn [ToString mbind option_bind].
    rewrite Es. subst d.
    destruct Hcs as [->|[->|[->|[->|[->|[->|[->|[->| ->]]]]]]]];
      cbn [app] in *; cbv beta iota zeta; rewrite Htake; now rewrite Z.mul_1_l.
  - unfold parseInt10. rewrite (trimStart_id d).
    + subst d.
      destruct Hcs as [->|[->|[->|[->|[->|[->|[->|[->| ->]]]]]]]];
        cbv beta iota zeta; rewrite Htake'; now rewrite Z.mul_1_l.
    + rewrite E. cbn. now apply digit_not_space.
  - rewrite E. discriminate.
Qed.

Lemma parseInt_of_text (v : value) (s : jsstring) :
  ToString v = Some s -> parseInt v = parseInt (VStr s).
Proof. intros H. unfold parseInt. now rewrite H. Qed.

Lemma validateDuration_reads (v : value) :
  validateDuration v = Some accept ->
  exists n s,
    ToString v = Some s /\
    full_match DURATION_REGEX (trim s) = true /\
    parseInt v = Some (Some n) /\ parseInt10 (trim s) = Some n /\
    1 <= n <= 1440.
Proof.
  intros H.
  assert (Hv : exists n s,
             ToString v = Some s /\
             full_match DURATION_REGEX (trim s) = true /\
             parseInt10 (trim s) = Some n /\ 1 <= n <= 1440).
  { unfold validateDuration in H.
    assert (G : (ToString v ≫= fun text =>
                 trim_of (VStr text) ≫= fun durationStr =>
                 if negb (full_match DURATION_REGEX durationStr)
                 then Some (reject "Duration must be a positive number (e.g., 120)")
                 else match parseInt10 durationStr with
                      | None => Some (reject "Duration must be greater than 0")
                      | Some numValue =>
                          if numValue <=? 0
                          then Some (reject "Duration must be greater than 0")
                          else if 1440 <? numValue
                               then Some (reject "Duration cannot exceed 24 hours (1440 minutes)")
                               else Some accept
                      end) = Some accept).
    { destruct v as [| |b|n|[|c s]|l|m]; try discriminate H; exact H. }
    clear H. destruct (ToString v) as [s|]; [|discriminate G].
    cbn [trim_of mbind option_bind] in G.
    destruct (full_match DURATION_REGEX (trim s)) eqn:Em; [|discriminate G].
    cbn [negb] in G.
    destruct (parseInt10 (trim s)) as [n|] eqn:Ep; [|discriminate G].
    destruct (Z.leb_spec n 0); [discriminate G|].
    destruct (Z.ltb_spec 1440 n); [discriminate G|].
    exists n, s. repeat split; try reflexivity; try assumption; lia. }
  destruct Hv as (n & s & Hs & Hm & Hp & Hn).
  destruct (duration_text_parses s Hm) as (H1 & H2 & _).
  exists n, s. repeat split; try assumption; try lia.
  rewrite (parseInt_of_text v s Hs). congruence.
Qed.

Lemma total_bounds (l : list obj) : forall a : Z,
  Forall (fun t => validateDuration (get t k_duration) = Some accept) l ->
  exists n,
    add_durations (Some a) l = Some (Some n) /\
    a + Z.of_nat (length l) <= n <= a + 1440 * Z.of_nat (length l).
Proof.
  induction l as [|t l IH]; intros a Hall; cbn [add_durations length].
  - exists a. split; [reflexivity|lia].
  - inv Hall.
    match goal with H : validateDuration _ = _ |- _ =>
      apply validateDuration_reads in H as (d & s & _ & _ & -> & _ & Hd) end.
    cbn [mbind option_bind num_add].
    destruct (IH (a + d)) as (n & -> & Hn); [assumption|].
    exists n. split; [reflexivity|lia].
Qed.

(** A duration that has no text ends the sum, wherever it stands. *)
Lemma add_durations_throws (l : list obj) : forall acc : option Z,
  Exists (fun t => parseInt (get t k_duration) = None) l ->
  add_durations acc l = None.
Proof.
  induction l as [|t l IH]; intros acc H; [inv H|].
  cbn [add_durations]. inv H.
  - match goal with H : parseInt _ = None |- _ => now rewrite H end.
  - destruct (parseInt (get t k_duration)); [|reflexivity].
    cbn [mbind option_bind]. now apply IH.
Qed.

(** When every duration has a text, NaN stays NaN to the end. *)
Lemma add_durations_nan (l : list obj) : forall acc : option Z,
  Forall (fun t => is_Some (parseInt (get t k_duration))) l ->
  acc = None \/ Exists (fun t => parseInt (get t k_duration) = Some None) l ->
  add_durations acc l = Some None.
Proof.
  induction l as [|t l IH]; intros acc Hall H; cbn [add_durations].
  - destruct H as [->|H]; [reflexivity|inv H].
  - apply Forall_cons in Hall as [[d Hd] Hall]. rewrite Hd.
    cbn [mbind option_bind]. apply IH; [assumption|].
    destruct d as [d|]; [|left; now destruct acc].
    destruct H as [->|H]; [now left|].
    apply Exists_cons in H as [H|H]; [congruence|now right].
Qed.

End Durations.

(** X10.  A duration that [validateDuration] accepts is read by the statistics,
    which call [parseInt] without a radix on the stored value, as the integer
    the validator read from the trimmed text: one between 1 and 1440. *)
Theorem validateDuration_agrees_with_parseInt :
  forall v : value,
    validateDuration v = Some accept ->
    exists n s, ToString v = Some s /\
                parseInt v = Some (Some n) /\
                parseInt10 (trim s) = Some n /\
                1 <= n <= 1440.
Proof.
  intros v H.
  destruct (validateDuration_reads v H) as (n & s & Hs & _ & Hp & Hq & Hn).
  exists n, s. auto.
Qed.

Lemma validateDuration_agrees_with_parseInt_witness :
  exists n, parseInt (VStr (lit " 90 ")) = Some (Some n) /\ 1 <= n <= 1440.
Proof.
  destruct (validateDuration_agrees_with_parseInt (VStr (lit " 90 ")))
    as (n & s & _ & H & _ & Hn).
  - vm_compute. reflexivity.
  - exists n. split; assumption.
Defined.

(** X11.  [calculateTotalDuration] over tasks whose durations [validateDuration]
    accepts is a number, at least the number of tasks and at most 1440 times
    that number. *)
Theorem calculateTotalDuration_of_validated :
  forall (tasks : option (list obj)) (st : storage),
    let data := default (loadTasks st) tasks in
    Forall (fun t => validateDuration (get t k_duration) = Some accept) data ->
    exists n,
      calculateTotalDuration tasks st = Some n /\
      Z.of_nat (length data) <= n <= 1440 * Z.of_nat (length data).
Proof.
  intros tasks st data Hall.
  destruct (total_bounds data 0 Hall) as (n & Hn & Hb).
  exists n. unfold calculateTotalDuration. fold data. rewrite Hn.
  split; [reflexivity|lia].
Qed.

Lemma calculateTotalDuration_of_validated_witness :
  exists n,
    calculateTotalDuration None (storage_of [task_of "a" 30; task_of "b" 45])
    = Some n /\ 2 <= n <= 2880.
Proof.
  destruct (calculateTotalDuration_of_validated None
              (storage_of [task_of "a" 30; task_of "b" 45])) as (n & H & Hn).
  - repeat constructor.
  - exists n. split; [exact H|]. exact Hn.
Defined.

(** X12.  When every duration has a text, one task whose duration [parseInt]
    cannot read, one without a duration for instance, makes the total of
    [calculateTotalDuration] NaN, whatever the other durations are.  When
    some duration has no text, the sum is given up and the total is 0. *)
Theorem calculateTotalDuration_spoiled_by_one :
  forall (tasks : option (list obj)) (st : storage),
    let data := default (loadTasks st) tasks in
    (Forall (fun t => is_Some (parseInt (get t k_duration))) data ->
     Exists (fun t => parseInt (get t k_duration) = Some None) data ->
     calculateTotalDuration tasks st = None) /\
    (Exists (fun t => parseInt (get t k_duration) = None) data ->
     calculateTotalDuration tasks st = Some 0).
Proof.
  intros tasks st data. unfold calculateTotalDuration. fold data. split.
  - intros Hall H. rewrite add_durations_nan; [reflexivity|assumption|now right].
  - intros H. now rewrite add_durations_throws.
Qed.

Lemma calculateTotalDuration_spoiled_by_one_witness :
  calculateTotalDuration (Some [task_of "a" 30; {[k_title := VStr (lit "b")]}])
    empty_storage = None.
Proof.
  apply (calculateTotalDuration_spoiled_by_one
           (Some [task_of "a" 30; {[k_title := VStr (lit "b")]}]) empty_storage).
  - repeat constructor; vm_compute; eauto.
  - apply Exists_cons_tl, Exists_cons_hd. vm_compute. reflexivity.
Defined.

(** X13.  [getTasksByDateRange] returns stored tasks whose due date parses and lies
    between the two bounds, and nothing at all when a bound is an invalid
    date or the end lies before the start. *)
Theorem getTasksByDateRange_bounds :
  forall (legacy_parse : jsstring -> option Z) (startDate endDate : option Z)
         (st : storage),
    Forall (fun t => exists d s e,
                Date_of_value legacy_parse (get t k_dueDate) = Some (Some d) /\
                startDate = Some s /\ endDate = Some e /\ s <= d <= e)
           (getTasksByDateRange legacy_parse startDate endDate st) /\
    (getTasksByDateRange legacy_parse startDate endDate st <> [] ->
     exists s e, startDate = Some s /\ endDate = Some e /\ s <= e).
Proof.
  intros lp startDate endDate st.
  assert (H : Forall (fun t => exists d s e,
                Date_of_value lp (get t k_dueDate) = Some (Some d) /\
                startDate = Some s /\ endDate = Some e /\ s <= d <= e)
           (getTasksByDateRange lp startDate endDate st)).
  { apply Forall_forall. intros t Ht. unfold getTasksByDateRange in Ht.
    match type of Ht with
    | context [filter_throwing ?p ?l] =>
        destruct (filter_throwing p l) as [l'|] eqn:E
    end; [|now apply elem_of_nil in Ht].
    cbn [default from_option id] in Ht.
    apply list_elem_of_In in Ht. apply (filter_throwing_In _ _ _ t E) in Ht as [_ Ht].
    destruct (Date_of_value lp (get t k_dueDate)) as [taskDate|]; [|discriminate Ht].
    cbn [mbind option_bind] in Ht. injection Ht as Ht.
    apply andb_true_iff in Ht as [H1 H2]. unfold num_le in H1, H2.
    destruct startDate as [s|]; [|discriminate H1].
    destruct taskDate as [d|]; [|discriminate H1].
    destruct endDate as [e|]; [|discriminate H2].
    apply Z.leb_le in H1, H2. exists d, s, e. auto. }
  split; [exact H|]. intros Hne.
  destruct (getTasksByDateRange lp startDate endDate st) as [|t l]; [congruence|].
  apply Forall_cons in H as [(d & s & e & _ & Hs & He & Hd) _].
  exists s, e. repeat split; try assumption. lia.
Qed.

(** * Numbers as text *)

Section NumberText.

Lemma lit_inj (a b : string) : lit a = lit b -> a = b.
Proof.
  unfold lit. intros H.
  rewrite <- (string_of_list_ascii_of_string a), <- (string_of_list_ascii_of_string b).
  f_equal. revert H. generalize (list_ascii_of_string a) (list_ascii_of_string b).
  intros l. induction l as [|x l IH]; intros [|y l'] H; try discriminate; [reflexivity|].
  cbn in H. injection H as Hxy Hl. f_equal; [|now apply IH].
  rewrite <- (ascii_N_embedding x), <- (ascii_N_embedding y). now f_equal.
Qed.

Lemma number_to_string_plain (n : Z) :
  - 9007199254740992 < n < 9007199254740992 -> number_to_string n = decimal n.
Proof.
  intros H. apply number_to_string_small.
  change (2 ^ 53) with 9007199254740992. lia.
Qed.

Lemma decimal_inj (n m : Z) : decimal n = decimal m -> n = m.
Proof.
  unfold decimal. intros H. apply lit_inj in H.
  apply DecimalZ.to_int_inj.
  assert (Hd : forall z, NilZero.int_of_string (NilZero.string_of_int (Z.to_int z))
                         = Some (Z.to_int z)).
  { intros z. apply NilZero.isi; destruct z; cbn; try discriminate;
      intros E; injection E as E; now apply DecimalPos.Unsigned.to_uint_nonnil in E. }
  pose proof (Hd n) as Hn. rewrite H, Hd in Hn. congruence.
Qed.

Lemma uint_digits (d : Decimal.uint) :
  Forall (fun c => is_digit c = true) (lit (NilEmpty.string_of_uint d)).
Proof.
  induction d; cbn; constructor; (reflexivity || assumption).
Qed.

Lemma decimal_digits (n : Z) :
  0 <= n ->
  Forall (fun c => is_digit c = true) (decimal n) /\ decimal n <> [].
Proof.
  intros Hn. unfold decimal. destruct n as [|p|p]; [| |lia].
  - split; [repeat constructor|discriminate].
  - cbn [Z.to_int NilZero.string_of_int].
    pose proof (DecimalPos.Unsigned.to_uint_nonnil p) as Hp.
    unfold NilZero.string_of_uint. destruct (Pos.to_uint p) eqn:E; try congruence;
      (split; [rewrite <- E at 1; apply uint_digits|discriminate]).
Qed.

(** Two texts that start with digits and go on with a non-digit. *)
Lemma split_digits (u u' r r' : jsstring) (x x' : N) :
  Forall (fun c => is_digit c = true) u ->
  Forall (fun c => is_digit c = true) u' ->
  is_digit x = false -> is_digit x' = false ->
  u ++ x :: r = u' ++ x' :: r' -> u = u' /\ x = x' /\ r = r'.
Proof.
  intros Hu. revert u'. induction Hu as [|c u Hc _ IH]; intros u' Hu' Hx Hx' E.
  - destruct Hu' as [|c' u' Hc' _]; cbn in E.
    + injection E as -> ->. auto.
    + injection E as -> _. congruence.
  - destruct Hu' as [|c' u' Hc' Hu']; cbn in E.
    + injection E as -> _. congruence.
    + injection E as -> E. destruct (IH u' Hu' Hx Hx' E) as (-> & -> & ->). auto.
Qed.

End NumberText.

(** X14.  [generateId] gives different ids for different pairs of a timestamp and a
    random number, under one prefix: two ids made in the same millisecond are
    equal only when [Math.random] gave the same number of the ten thousand.
    The timestamp is a time value, the random number one below 10000. *)
Theorem generateId_injective :
  forall (prefix : option jsstring) (t1 r1 t2 r2 : Z),
    0 <= t1 <= 8640000000000000 -> 0 <= r1 < 10000 ->
    0 <= t2 <= 8640000000000000 -> 0 <= r2 < 10000 ->
    t1 <> t2 \/ r1 <> r2 ->
    generateId prefix t1 r1 <> generateId prefix t2 r2.
Proof.
  intros prefix t1 r1 t2 r2 Ht1 Hr1 Ht2 Hr2 Hne E. unfold generateId in E.
  rewrite !number_to_string_plain in E by lia.
  apply app_inv_head in E. change (lit "_") with [95%N] in E. cbn [app] in E.
  injection E as E.
  apply split_digits in E as (Et & _ & Er);
    try (apply decimal_digits; lia); try reflexivity.
  apply decimal_inj in Et, Er. tauto.
Qed.

Lemma generateId_injective_witness :
  (41 <> 42) /\
  generateId None 1700000000000 41 <> generateId None 1700000000000 42.
Proof.
  split; [lia|].
  apply (generateId_injective None 1700000000000 41 1700000000000 42); lia.
Defined.

Section Rendering.

Lemma minutes_parts (m : Z) :
  0 <= m -> 0 <= m / 60 /\ 0 <= Z.rem m 60 < 60 /\ m = 60 * (m / 60) + Z.rem m 60.
Proof.
  intros Hm. rewrite Z.rem_mod_nonneg by lia.
  pose proof (Z.div_mod m 60). pose proof (Z.mod_pos_bound m 60).
  pose proof (Z.div_pos m 60). lia.
Qed.

Ltac digits := first [now apply decimal_digits | reflexivity].

(** The three shapes of [minutesToHours] never read the same unless the
    hours and the minutes they show are the same. *)
Lemma minutesToHours_reads (h1 r1 h2 r2 : Z) :
  0 <= h1 -> 0 <= r1 -> 0 <= h2 -> 0 <= r2 ->
  (if h1 =? 0 then decimal r1 ++ lit "min"
   else if r1 =? 0 then decimal h1 ++ lit "h"
   else decimal h1 ++ lit "h " ++ decimal r1 ++ lit "min")
  = (if h2 =? 0 then decimal r2 ++ lit "min"
     else if r2 =? 0 then decimal h2 ++ lit "h"
     else decimal h2 ++ lit "h " ++ decimal r2 ++ lit "min") ->
  h1 = h2 /\ r1 = r2.
Proof.
  intros Hh1 Hr1 Hh2 Hr2.
  change (lit "min") with [109; 105; 110]%N.
  change (lit "h") with [104]%N. change (lit "h ") with [104; 32]%N.
  cbn [app].
  destruct (Z.eqb_spec h1 0) as [->|N1], (Z.eqb_spec h2 0) as [->|N2];
    [| destruct (Z.eqb_spec r2 0) as [->|M2]
     | destruct (Z.eqb_spec r1 0) as [->|M1]
     | destruct (Z.eqb_spec r1 0) as [->|M1], (Z.eqb_spec r2 0) as [->|M2] ];
    intros E; apply split_digits in E as (E1 & E2 & E3); try digits;
    try discriminate E2; try discriminate E3.
  - apply decimal_inj in E1. auto.
  - apply decimal_inj in E1. auto.
  - apply decimal_inj in E1. injection E3 as E3.
    apply split_digits in E3 as (E3 & _ & _); try digits.
    apply decimal_inj in E3. auto.
Qed.

End Rendering.

(** X15.  [minutesToHours] shows different durations differently: on whole
    minutes from 0 to 2^31 it is injective. *)
Theorem minutesToHours_injective :
  forall m1 m2 : Z,
    0 <= m1 <= 2147483648 -> 0 <= m2 <= 2147483648 -> m1 <> m2 ->
    minutesToHours m1 <> minutesToHours m2.
Proof.
  intros m1 m2 [H1 B1] [H2 B2] Hne E. unfold minutesToHours in E. cbn zeta in E.
  destruct (minutes_parts m1 H1) as (Hh1 & Hr1 & E1).
  destruct (minutes_parts m2 H2) as (Hh2 & Hr2 & E2).
  rewrite !number_to_string_plain in E by lia.
  apply minutesToHours_reads in E as [Eh Er]; lia.
Qed.

Lemma minutesToHours_injective_witness :
  90 <> 150 /\ minutesToHours 90 <> minutesToHours 150.
Proof. split; [lia|]. apply (minutesToHours_injective 90 150); lia. Defined.

(** * Sanitizing *)

Section Sanitize.

Lemma filter_sublist {B : Type} (p : B -> bool) (l : list B) :
  List.filter p l `sublist_of` l.
Proof.
  induction l as [|x l IH]; cbn [List.filter]; [constructor|].
  destruct (p x); now constructor.
Qed.

Lemma trim_sublist (s : jsstring) : trim s `sublist_of` s.
Proof.
  unfold trim.
  destruct (trimStart_split s) as (sp & E & _).
  destruct (trimEnd_split (trimStart s)) as (sp' & E' & _).
  rewrite E at 2. apply sublist_inserts_l.
  rewrite E' at 2. now apply sublist_inserts_r.
Qed.

End Sanitize.

(** X16.  [sanitizeInput] on a string: the result holds no [<] and no [>], is at
    most 200 code units long, and is made of code units of the input in
    their order; nothing is added. *)
Theorem sanitizeInput_bounds :
  forall s : jsstring,
    Forall (fun c => c <> 60%N /\ c <> 62%N) (sanitizeInput (VStr s)) /\
    (length (sanitizeInput (VStr s)) <= 200)%nat /\
    sanitizeInput (VStr s) `sublist_of` s.
Proof.
  intros s. cbn [sanitizeInput]. split; [|split].
  - apply Forall_take. apply Forall_forall. intros c Hc.
    apply list_elem_of_In, filter_In in Hc as [_ Hc].
    apply negb_true_iff, orb_false_iff in Hc as [H1 H2].
    apply N.eqb_neq in H1, H2. auto.
  - rewrite length_take. lia.
  - etransitivity; [apply sublist_take|].
    etransitivity; [apply filter_sublist|apply trim_sublist].
Qed.

(** * Whole tasks *)

Section WholeTask.

Lemma reasoned_cases (o : option result) :
  returns_reasoned o ->
  exists r, o = Some r /\
            ((valid r = true /\ r = accept) \/ (valid r = false /\ error r <> [])).
Proof.
  intros (r & -> & Hr). exists r. split; [reflexivity|].
  destruct r as [[|] e]; unfold reasoned in *; cbn in *.
  - left. split; [reflexivity|]. destruct e as [|c e]; [reflexivity|].
    assert (H : true = false) by (apply Hr; discriminate). discriminate H.
  - right. split; [reflexivity|]. now apply Hr.
Qed.

Lemma validateDuration_throws (v : value) :
  validateDuration v = None <-> ToString v = None.
Proof.
  split.
  - intros H. destruct (ToString v) as [s|] eqn:E; [|reflexivity].
    destruct (validateDuration_total v) as (r & Hr & _); [eauto|]. congruence.
  - intros H. destruct v as [| |[|]|n|s|l|m]; try discriminate H;
      unfold validateDuration; now rewrite H.
Qed.

(** [validateTask] on a task whose duration has a text. *)
Lemma validateTask_returns (tza t0 t1 t2 : Z) (task : obj) :
  is_Some (ToString (get task k_duration)) ->
  exists r,
    validateTask tza t0 t1 t2 task = Some r /\
    (Checked.valid r = true <-> Checked.errors r = []) /\
    (Checked.valid r = true <->
     validateTitle (get task k_title) = Some accept /\
     validateDuration (get task k_duration) = Some accept /\
     validateDueDateAt tza t0 t1 t2 (get task k_dueDate) = Some accept /\
     validateTag (get task k_tag) = Some accept /\
     (truthy (get task k_priority) = false \/
      validatePriority (get task k_priority) = Some accept)) /\
    (fst <$> Checked.errors r)
      `sublist_of` [k_title; k_duration; k_dueDate; k_tag; k_priority] /\
    Forall (fun e => snd e <> []) (Checked.errors r).
Proof.
  intros Hd. unfold validateTask, task_errors.
  destruct (reasoned_cases _ (validateTitle_total (get task k_title)))
    as (r1 & -> & H1).
  destruct (reasoned_cases _ (validateDuration_total (get task k_duration) Hd))
    as (r2 & -> & H2).
  destruct (reasoned_cases _
              (validateDueDateAt_total tza t0 t1 t2 (get task k_dueDate)))
    as (r3 & -> & H3).
  destruct (reasoned_cases _ (validateTag_total (get task k_tag)))
    as (r4 & -> & H4).
  destruct (reasoned_cases _ (validatePriority_total (get task k_priority)))
    as (r5 & -> & H5).
  assert (Q : forall r : result,
             (valid r = true /\ r = accept) \/ (valid r = false /\ error r <> []) ->
             (Some r = Some accept <-> valid r = true) /\
             (valid r = false -> error r <> [])).
  { intros r [[E R]|[E R]]; (split; [split|]); intros H; try congruence.
    injection H as ->. reflexivity. }
  destruct (Q r1 H1) as [I1 N1], (Q r2 H2) as [I2 N2], (Q r3 H3) as [I3 N3],
           (Q r4 H4) as [I4 N4], (Q r5 H5) as [I5 N5].
  setoid_rewrite I1. setoid_rewrite I2. setoid_rewrite I3. setoid_rewrite I4.
  setoid_rewrite I5. clear Q H1 H2 H3 H4 H5 I1 I2 I3 I4 I5.
  cbn [mbind option_bind]. unfold push_unless_valid.
  destruct (truthy (get task k_priority)); cbn [mbind option_bind];
    destruct (valid r1), (valid r2), (valid r3), (valid r4), (valid r5);
    cbn [app];
    (eexists; split; [reflexivity|]);
    cbn [Checked.valid Checked.errors length Nat.eqb fmap list_fmap fst snd];
    (split; [split; intros H; (reflexivity || discriminate H)|]);
    (split; [intuition congruence|]);
    (split;
     [repeat first [apply sublist_nil | apply sublist_skip | apply sublist_cons]
     |repeat constructor; auto]).
Qed.

Lemma validateTask_throws (tza t0 t1 t2 : Z) (task : obj) :
  ToString (get task k_duration) = None -> validateTask tza t0 t1 t2 task = None.
Proof.
  intros Hd. apply validateDuration_throws in Hd.
  unfold validateTask, task_errors. rewrite Hd.
  destruct (validateTitle_total (get task k_title)) as (r & -> & _). reflexivity.
Qed.

End WholeTask.

(** X17.  [validateTask] on a task object throws exactly when [String()]
    cannot render the duration, which is where [validateDuration] throws.
    When it returns, it reports the task valid exactly when it collected
    no error, which is exactly when the four field validators accept and
    the priority, when there is a truthy one, is accepted too.  The errors
    come in the order title, duration, due date, tag, priority, at most
    one per field, each with a reason. *)
Theorem validateTask_collects :
  forall (tza t0 t1 t2 : Z) (task : obj),
    (validateTask tza t0 t1 t2 task = None <->
     ToString (get task k_duration) = None) /\
    (ToString (get task k_duration) = None <->
     validateDuration (get task k_duration) = None) /\
    forall r,
      validateTask tza t0 t1 t2 task = Some r ->
      (Checked.valid r = true <-> Checked.errors r = []) /\
      (Checked.valid r = true <->
       validateTitle (get task k_title) = Some accept /\
       validateDuration (get task k_duration) = Some accept /\
       validateDueDateAt tza t0 t1 t2 (get task k_dueDate) = Some accept /\
       validateTag (get task k_tag) = Some accept /\
       (truthy (get task k_priority) = false \/
        validatePriority (get task k_priority) = Some accept)) /\
      (fst <$> Checked.errors r)
        `sublist_of` [k_title; k_duration; k_dueDate; k_tag; k_priority] /\
      Forall (fun e => snd e <> []) (Checked.errors r).
Proof.
  intros tza t0 t1 t2 task.
  split; [|split; [symmetry; apply validateDuration_throws|]].
  - split; [|apply validateTask_throws].
    intros H. destruct (ToString (get task k_duration)) as [s|] eqn:E; [|reflexivity].
    destruct (validateTask_returns tza t0 t1 t2 task) as (r & Hr & _);
      [rewrite E; eauto|congruence].
  - intros r Hr.
    destruct (ToString (get task k_duration)) as [s|] eqn:E.
    + destruct (validateTask_returns tza t0 t1 t2 task) as (r' & Hr' & H);
        [rewrite E; eauto|].
      assert (r' = r) by congruence. subst r'. exact H.
    + rewrite (validateTask_throws tza t0 t1 t2 task E) in Hr. discriminate Hr.
Qed.

(** * The tag filter *)

Section TagFilter.

Lemma Lang_rep_all (Q : N -> Prop) a s :
  Lang (Rep a) s -> (forall u, Lang a u -> Forall Q u) -> Forall Q s.
Proof.
  intros H Ha. remember (Rep a) as r eqn:Er.
  induction H as [| | | | | |a' u v Hu _ Hv IHv]; try discriminate; [constructor|].
  injection Er as ->. apply Forall_app. auto.
Qed.

Lemma Lang_plus_cls p s :
  Lang (Plus (Cls p)) s -> Forall (fun c => p c = true) s /\ s <> [].
Proof.
  intros H. apply Lang_cls_inv in H as (c & v & -> & Hc & Hv).
  apply Lang_rep_cls in Hv. split; [now constructor|discriminate].
Qed.

Lemma tag_shape (s : jsstring) :
  full_match TAG_REGEX s = true ->
  Forall (fun c => is_alpha c = true \/ c = 32%N \/ c = 45%N) s /\ s <> [].
Proof.
  intros H. apply full_match_Lang, Lang_seq_inv in H as (u & v & -> & Hu & Hv).
  apply Lang_plus_cls in Hu as [Hu Hne]. split.
  - apply Forall_app. split.
    + eapply Forall_impl; [exact Hu|]. cbn. auto.
    + apply (Lang_rep_all _ _ _ Hv). intros w Hw.
      apply Lang_cls_inv in Hw as (c & w' & -> & Hc & Hw').
      apply Lang_plus_cls in Hw' as [Hw' _]. constructor.
      * apply orb_true_iff in Hc as [Hc|Hc]; apply N.eqb_eq in Hc; auto.
      * eapply Forall_impl; [exact Hw'|]. cbn. auto.
  - destruct u; [congruence|discriminate].
Qed.

Lemma is_word_lower (c : N) :
  is_word (if is_upper c then (c + 32)%N else c) = is_word c.
Proof.
  destruct (is_upper c) eqn:E; [|reflexivity].
  unfold is_upper in E. apply andb_true_iff in E as [H1 H2].
  apply N.leb_le in H1, H2.
  unfold is_word, is_alpha, is_upper, is_lower, is_digit.
  repeat (match goal with
          | |- context [(?a <=? ?b)%N] => destruct (N.leb_spec a b)
          | |- context [(?a =? ?b)%N] => destruct (N.eqb_spec a b)
          end; try lia).
Qed.

Lemma lower_words (s w : jsstring) :
  ascii_lower s = ascii_lower w ->
  Forall (fun c => is_word c = true) w -> Forall (fun c => is_word c = true) s.
Proof.
  unfold ascii_lower. revert w. induction s as [|c s IH]; intros [|d w] E Hw;
    try discriminate; [constructor|].
  cbn in E. injection E as Ec Es. inv Hw. constructor; [|now apply (IH w)].
  rewrite <- is_word_lower, Ec, is_word_lower. assumption.
Qed.

Lemma alpha_is_word (c : N) : is_alpha c = true -> is_word c = true.
Proof. unfold is_word. now intros ->. Qed.

Lemma alpha_ascii (c : N) : is_alpha c = true -> (c < 128)%N.
Proof.
  unfold is_alpha, is_upper, is_lower.
  rewrite orb_true_iff, !andb_true_iff, !N.leb_le. lia.
Qed.

Lemma word_ascii (c : N) : is_word c = true -> (c < 128)%N.
Proof.
  unfold is_word, is_digit. rewrite !orb_true_iff, andb_true_iff, !N.leb_le, N.eqb_eq.
  intros [[H|H]|H]; [now apply alpha_ascii|lia|lia].
Qed.

End TagFilter.

(** X18.  The tag filter [@tag:...] finds a tag that [TAG_REGEX] allows exactly
    when the tag is made of letters only: the filter captures word
    characters, so no filter text matches a tag with a space or a hyphen.
    The engine's [toLowerCase] is only assumed to lower ASCII letters on
    ASCII text. *)
Theorem matchesTagFilter_finds_letter_tags_only :
  forall (toLowerCase : jsstring -> jsstring) (tag : jsstring) (task : obj),
    (forall s, Forall (fun c => (c < 128)%N) s -> toLowerCase s = ascii_lower s) ->
    get task k_tag = VStr tag ->
    full_match TAG_REGEX tag = true ->
    ((exists text, matchesTagFilter toLowerCase text task = Some true)
     <-> Forall (fun c => is_alpha c = true) tag).
Proof.
  intros toLowerCase tag task Hlow Htag Hre.
  destruct (tag_shape tag Hre) as [Hshape Hne].
  assert (Hascii : Forall (fun c => (c < 128)%N) tag).
  { eapply Forall_impl; [exact Hshape|]. cbn.
    intros c [H|[->| ->]]; [now apply alpha_ascii|reflexivity|reflexivity]. }
  split.
  - intros [text H]. unfold matchesTagFilter in H. rewrite Htag in H.
    destruct (TAG_FILTER_match text) as [w|] eqn:Ew; [|discriminate H].
    injection H as H. apply bool_decide_eq_true_1 in H.
    assert (Hw : Forall (fun c => is_word c = true) w).
    { unfold TAG_FILTER_match in Ew.
      do 5 (destruct text as [|? text]; try discriminate Ew).
      match type of Ew with (if ?c then _ else _) = _ => destruct c eqn:G end;
        [|discriminate Ew].
      injection Ew as <-. apply andb_true_iff in G as [_ G].
      clear -G. induction text as [|c text IH]; [constructor|].
      cbn in G. apply andb_true_iff in G as [G1 G2]. constructor; auto. }
    rewrite (Hlow tag Hascii) in H. rewrite Hlow in H.
    + pose proof (lower_words tag w H Hw) as Hall.
      rewrite Forall_forall in Hshape, Hall. apply Forall_forall. intros c Hc.
      destruct (Hshape c Hc) as [Ha|[->| ->]]; [assumption| |];
        specialize (Hall _ Hc); discriminate Hall.
    + eapply Forall_impl; [exact Hw|]. intros c. apply word_ascii.
  - intros Hall. exists (lit "@tag:" ++ tag).
    assert (Hm : TAG_FILTER_match (lit "@tag:" ++ tag) = Some tag).
    { assert (Hw : forallb is_word tag = true).
      { clear -Hall. induction Hall as [|c tag Hc _ IH]; [reflexivity|].
        cbn. now rewrite (alpha_is_word c Hc). }
      change (lit "@tag:" ++ tag) with (64 :: 116 :: 97 :: 103 :: 58 :: tag)%N.
      unfold TAG_FILTER_match. rewrite Hw.
      destruct tag as [|c tag]; [congruence|]. reflexivity. }
    unfold matchesTagFilter. rewrite Hm, Htag. cbn zeta.
    f_equal. now apply bool_decide_eq_true_2.
Qed.

Lemma matchesTagFilter_finds_letter_tags_only_witness :
  validateTag (VStr (lit "Study Group")) = Some accept /\
  ~ exists text,
      matchesTagFilter ascii_lower text {[k_tag := VStr (lit "Study Group")]}
      = Some true.
Proof.
  split; [vm_compute; reflexivity|]. intros H.
  apply (matchesTagFilter_finds_letter_tags_only ascii_lower (lit "Study Group")) in H.
  - do 5 (apply Forall_cons in H as [_ H]). apply Forall_cons in H as [H _].
    discriminate H.
  - reflexivity.
  - reflexivity.
  - vm_compute. reflexivity.
Defined.

(** * Time tokens and repeated words *)

Section Tokens.

Import TitleSpec.

Lemma digit_is_word (c : N) : is_digit c = true -> is_word c = true.
Proof. unfold is_word. intros ->. now rewrite orb_true_r. Qed.

Lemma time_token_at_iff (before : option N) (rest : jsstring) :
  time_token_at before rest = true <->
  exists d1 d2 d3 d4 r,
    rest = [d1; d2; 58%N; d3; d4] ++ r /\
    Forall (fun c => is_digit c = true) [d1; d2; d3; d4] /\
    from_option is_word false before = false /\
    from_option is_word false (head r) = false.
Proof.
  split.
  - intros H. do 5 (destruct rest as [|? rest]; try discriminate H).
    cbn [time_token_at] in H. rewrite !andb_true_iff in H.
    destruct H as ((((((Hb & H1) & H2) & Hc) & H3) & H4) & Ha).
    apply N.eqb_eq in Hc. subst.
    unfold at_boundary in Hb, Ha. cbn [from_option] in Hb, Ha.
    rewrite (digit_is_word _ H1) in Hb. rewrite (digit_is_word _ H4) in Ha.
    do 5 eexists. split; [reflexivity|]. split; [repeat constructor; assumption|].
    split.
    + destruct (from_option is_word false before); [discriminate Hb|reflexivity].
    + destruct (from_option is_word false (head rest)); [discriminate Ha|reflexivity].
  - intros (d1 & d2 & d3 & d4 & r & -> & Hd & Hb & Ha).
    inv Hd. inv H2. inv H4. inv H5. cbn [app time_token_at].
    unfold at_boundary. cbn [from_option].
    rewrite Hb, Ha, (digit_is_word d1), (digit_is_word d4) by assumption.
    rewrite H1, H3, H2, H4. reflexivity.
Qed.

Lemma time_token_from_sound (pre rest : jsstring) :
  time_token_from (last pre) rest = true -> time_token (pre ++ rest).
Proof.
  revert pre. induction rest as [|c rest IH]; intros pre H; cbn [time_token_from] in H.
  - rewrite orb_false_r in H. discriminate H.
  - apply orb_true_iff in H as [H|H].
    + apply time_token_at_iff in H as (d1 & d2 & d3 & d4 & r & E & H).
      exists pre, d1, d2, d3, d4, r. now rewrite <- E.
    + specialize (IH (pre ++ [c])). rewrite last_snoc in IH.
      rewrite <- app_assoc in IH. now apply IH.
Qed.

Lemma time_token_from_skip (rest p : jsstring) (b : option N) :
  time_token_at (before_of b p) rest = true ->
  time_token_from b (p ++ rest) = true.
Proof.
  revert b. induction p as [|c p IH]; intros b H; cbn [app].
  - unfold before_of in H. cbn [last] in H.
    destruct rest; cbn [time_token_from]; now rewrite H.
  - cbn [time_token_from]. apply orb_true_iff. right. apply IH.
    unfold before_of in *. destruct p as [|d p]; [assumption|].
    change (last (c :: d :: p)) with (last (d :: p)) in H.
    destruct (last (d :: p)) eqn:E; [assumption|].
    apply last_None in E. discriminate.
Qed.

Lemma hasTimeToken_iff (s : jsstring) :
  time_token_from None s = true <-> time_token s.
Proof.
  split; [apply (time_token_from_sound [])|].
  intros (p & d1 & d2 & d3 & d4 & r & -> & Hd & Hp & Hr).
  apply time_token_from_skip. apply time_token_at_iff.
  exists d1, d2, d3, d4, r. repeat split; try assumption.
  unfold before_of. now destruct (last p).
Qed.

End Tokens.

(** X19.  [hasTimeToken] answers true exactly when its argument has a text and
    the text holds two digits, a colon and two digits with no word
    character right before or right after; the digits are not read as a time
    of day. *)
Theorem hasTimeToken_finds_delimited_digits :
  forall v : value,
    hasTimeToken v = Some true <->
    exists s, ToString v = Some s /\ time_token s.
Proof.
  intros v. unfold hasTimeToken.
  destruct (ToString v) as [s|]; cbn [mbind option_bind].
  - split.
    + intros [= H]. exists s. split; [reflexivity|now apply hasTimeToken_iff].
    + intros (s' & [= <-] & H). apply hasTimeToken_iff in H. now rewrite H.
  - split; [discriminate|]. intros (s & E & _). discriminate E.
Qed.

(** X20.  A text in which [hasDuplicateWords] finds a repeated word holds a word, a
    run of spaces and the same word again up to case, and as a title it is
    rejected by [validateTitle]. *)
Theorem hasDuplicateWords_rejected_as_title :
  forall v : value,
    hasDuplicateWords v = Some true ->
    (exists s, ToString v = Some s /\ TitleSpec.repeated_word s) /\
    exists r, validateTitle v = Some r /\ valid r = false.
Proof.
  intros v H. unfold hasDuplicateWords in H.
  destruct (ToString v) as [s|] eqn:Es; [|discriminate H].
  cbn [mbind option_bind] in H. injection H as H.
  split; [exists s; split; [reflexivity|now apply DUPLICATE_WORD_test_iff]|].
  unfold validateTitle.
  destruct (negb (truthy v) || negb (is_string v)) eqn:G; [eexists; split; reflexivity|].
  destruct v as [| |b|n|t|l|m]; cbn in G; rewrite ?orb_true_r in G; try discriminate G.
  cbn [ToString] in Es. injection Es as ->.
  cbn [trim_of mbind option_bind ToString] in *. rewrite H.
  repeat case_match; eexists; split; reflexivity.
Qed.

Lemma hasDuplicateWords_rejected_as_title_witness :
  exists r, validateTitle (VStr (lit "Read the the book")) = Some r /\ valid r = false.
Proof.
  apply (hasDuplicateWords_rejected_as_title (VStr (lit "Read the the book"))).
  vm_compute. reflexivity.
Defined.

(** * Export, import and the application *)

Section ExportImport.

Lemma loadSettings_stable (st : storage) :
  loadSettings st ∪ defaults = loadSettings st.
Proof.
  unfold loadSettings. destruct (settings_item st) as [v|].
  - rewrite <- (assoc_L (∪)). now rewrite (idemp_L (∪) defaults).
  - apply (idemp_L (∪)).
Qed.

Lemma indexed_values (l : list value) (k : jsstring) (v : value) :
  indexed l !! k = Some v -> v ∈ l.
Proof.
  unfold indexed. intros H. apply elem_of_list_to_map_2 in H.
  apply elem_of_lookup_imap in H as (i & y & E & Hy). injection E as _ ->.
  now apply list_elem_of_lookup_2 in Hy.
Qed.

(** What the spread copies of a value read from a text is JSON data. *)
Lemma spread_data (v : value) : JSON_data (spread (through_JSON v)).
Proof.
  apply JSON_data_iff. intros k x Hk.
  destruct v as [| |b|n|s|l|m]; cbn [through_JSON spread] in Hk;
    try (rewrite lookup_empty in Hk; discriminate Hk).
  - destruct (_ =? _); cbn [spread] in Hk; rewrite lookup_empty in Hk;
      discriminate Hk.
  - apply indexed_values, list_elem_of_fmap in Hk as (c & -> & _).
    apply JSON_value_str.
  - apply indexed_values, list_elem_of_fmap in Hk as (e & -> & _).
    destruct e; try apply JSON_value_null; try apply JSON_value_through;
      discriminate.
  - now apply (JSON_data_lookup _ k x (JSON_data_through m)).
Qed.

Lemma loadSettings_data (st : storage) : JSON_data (loadSettings st).
Proof.
  unfold loadSettings. destruct (settings_item st) as [v|].
  - apply JSON_data_union; [apply spread_data|]. vm_compute. reflexivity.
  - vm_compute. reflexivity.
Qed.

Lemma exportData_importData (in_error_message : value -> jsstring) (ws : bool)
    (exportDate : jsstring) (st st0 : storage) :
  let r := importData in_error_message WriteOk ws (exportData exportDate st) st0 in
  (success (fst r) = true <-> Forall has_required (loadTasks st)) /\
  (Forall has_required (loadTasks st) ->
   loadTasks (snd r) = loadTasks st /\
   (ws = true -> loadSettings (snd r) = loadSettings st)) /\
  (~ Forall has_required (loadTasks st) -> snd r = st0).
Proof.
  unfold exportData.
  match goal with
  | |- context [importData _ _ _ (VObj ?m) _] =>
      pose proof (importData_of_objects in_error_message ws m (loadTasks st) st0
                    eq_refl) as (H1 & H2 & H3);
      assert (Hs : get m k_settings = VObj (loadSettings st)) by reflexivity
  end.
  cbv zeta in *. split; [exact H1|]. split.
  - intros Hreq. destruct (H2 Hreq) as [Hl Hset].
    rewrite (through_JSON_all_data _ (loadTasks_data st)) in Hl.
    split; [exact Hl|]. intros ->. unfold loadSettings at 1.
    rewrite Hset, Hs. cbn [truthy is_object andb].
    rewrite through_JSON_idemp. cbn [through_JSON spread].
    change (through_JSON_obj (loadSettings st) ∪ defaults = loadSettings st).
    rewrite (loadSettings_data st). apply loadSettings_stable.
  - intros Hno. now destruct (H3 Hno).
Qed.

End ExportImport.

(** X21.  [exportData] and then [importData], into any storage, the write of the
    tasks going through.  The import succeeds exactly when every exported
    task carries the five required fields; it then stores the exported
    tasks, and the exported settings when their write goes through too.
    When it fails it leaves the storage as it was. *)
Theorem exportData_imports_back :
  forall (in_error_message : value -> jsstring) (ws : bool)
         (exportDate : jsstring) (st st0 : storage),
    let r := importData in_error_message WriteOk ws (exportData exportDate st) st0 in
    (success (fst r) = true <-> Forall has_required (loadTasks st)) /\
    (Forall has_required (loadTasks st) ->
     loadTasks (snd r) = loadTasks st /\
     (ws = true -> loadSettings (snd r) = loadSettings st)) /\
    (~ Forall has_required (loadTasks st) -> snd r = st0).
Proof.
  intros msg ws date st st0. apply exportData_importData.
Qed.

Lemma exportData_imports_back_witness :
  loadTasks (snd (importData (fun _ => []) WriteOk true
                    (exportData [] (storage_of [unvalidated_task])) empty_storage))
  = [unvalidated_task].
Proof.
  refine (proj1 (proj1 (proj2 (exportData_imports_back (fun _ => []) true []
                                 (storage_of [unvalidated_task]) empty_storage)) _)).
  repeat constructor; vm_compute; eauto.
Defined.

Section FormFacts.

Variable tza : Z.

Lemma accepted_result (o : option result) (r : result) :
  returns_reasoned o -> o = Some r -> valid r = true -> o = Some accept.
Proof.
  intros Ho E Hv. apply reasoned_cases in Ho as (r' & E' & [[_ ->]|[Hf _]]);
    [assumption|congruence].
Qed.

(** No error collected: every validator accepted. *)
Lemma validateTaskForm_clean (t0 t1 t2 : Z) (data : obj) :
  validateTaskForm tza t0 t1 t2 data = Some [] ->
  validateTitle (get data k_title) = Some accept /\
  validateDuration (get data k_duration) = Some accept /\
  validateDueDateAt tza t0 t1 t2 (get data k_dueDate) = Some accept /\
  validateTag (get data k_tag) = Some accept.
Proof.
  unfold validateTaskForm, push_unless_valid. intros H.
  pose proof (validateTitle_total (get data k_title)) as T1.
  assert (T2 : returns_reasoned (validateDuration (get data k_duration))).
  { apply validateDuration_total.
    destruct (ToString (get data k_duration)) eqn:E; [eauto|].
    apply validateDuration_throws in E. rewrite E in H.
    destruct (validateTitle (get data k_title)); discriminate H. }
  pose proof (validateDueDateAt_total tza t0 t1 t2 (get data k_dueDate)) as T3.
  pose proof (validateTag_total (get data k_tag)) as T4.
  destruct (validateTitle (get data k_title)) as [r1|] eqn:E1; [|discriminate H].
  destruct (validateDuration (get data k_duration)) as [r2|] eqn:E2; [|discriminate H].
  destruct (validateDueDateAt tza t0 t1 t2 (get data k_dueDate)) as [r3|] eqn:E3;
    [|discriminate H].
  destruct (validateTag (get data k_tag)) as [r4|] eqn:E4; [|discriminate H].
  cbn [mbind option_bind] in H.
  assert (Hv : valid r1 = true /\ valid r2 = true /\ valid r3 = true /\ valid r4 = true).
  { destruct (valid r1), (valid r2), (valid r3), (valid r4); cbn [app] in H;
      try (repeat split; reflexivity);
      destruct (truthy (get data k_priority)); cbn [mbind option_bind] in H;
      try discriminate H;
      destruct (validatePriority (get data k_priority)) as [r5|];
      cbn [mbind option_bind] in H; try discriminate H;
      destruct (valid r5); discriminate H. }
  destruct Hv as (V1 & V2 & V3 & V4).
  repeat split; eapply accepted_result; eauto.
Qed.

Lemma formData_fields (f : form) :
  Forall (fun k => is_Some (formData f !! k)) [k_title; k_dueDate; k_duration; k_tag] /\
  formData f !! k_id = None /\
  formData f !! k_status = None /\
  formData f !! k_completed = None.
Proof.
  split; [|repeat split; reflexivity].
  repeat constructor; eexists; reflexivity.
Qed.

Lemma new_task_value (id c u : jsstring) (d : obj) (k : jsstring) (v : value) :
  k <> k_updatedAt -> k <> k_createdAt -> k <> k_completed -> k <> k_status ->
  d !! k = Some v -> get (new_task id c u d) k = v.
Proof.
  intros H1 H2 H3 H4 Hv. unfold new_task.
  rewrite !get_insert_ne by congruence. now apply get_union_l.
Qed.

Lemma new_task_dom (id c u : jsstring) (d : obj) (k : jsstring) :
  is_Some (d !! k) \/ k = k_id -> is_Some (new_task id c u d !! k).
Proof.
  intros H. unfold new_task. rewrite !lookup_insert_is_Some'.
  do 4 right. apply lookup_union_is_Some. destruct H as [H| ->]; [now left|].
  right. rewrite lookup_singleton_eq. eauto.
Qed.

Lemma merged_dom (u : jsstring) (updates old : obj) (k : jsstring) :
  is_Some (updates !! k) \/ is_Some (old !! k) ->
  is_Some ((<[k_updatedAt := VStr u]> (updates ∪ old)) !! k).
Proof.
  intros H. rewrite lookup_insert_is_Some'. right. now apply lookup_union_is_Some.
Qed.

Lemma merged_required (u : jsstring) (updates old : obj) :
  has_required old -> has_required (<[k_updatedAt := VStr u]> (updates ∪ old)).
Proof.
  unfold has_required. intros H. eapply Forall_impl; [exact H|].
  intros k Hk. apply merged_dom. now right.
Qed.

Lemma new_task_required (id c u : jsstring) (d : obj) :
  Forall (fun k => is_Some (d !! k)) [k_title; k_dueDate; k_duration; k_tag] ->
  has_required (new_task id c u d).
Proof.
  intros Hd. unfold has_required, requiredFields. constructor.
  - apply new_task_dom. now right.
  - eapply Forall_impl; [exact Hd|]. intros k Hk. apply new_task_dom. now left.
Qed.

Lemma guarded_snd (p : bool * storage) (task : obj) :
  snd (let '(saved, st') := p in if saved then (Some task, st') else (None, st'))
  = snd p.
Proof. now destruct p as [[|] s]. Qed.

Lemma guarded_fst (p : bool * storage) (task : obj) :
  fst (let '(saved, st') := p in if saved then (Some task, st') else (None, st'))
  = if fst p then Some task else None.
Proof. now destruct p as [[|] s]. Qed.

(** Data that JSON keeps is read back as it was saved. *)
Lemma saveTasks_loaded (w : write_outcome) (tasks : list obj) (st : storage) :
  Forall JSON_data tasks ->
  loadTasks (snd (saveTasks w tasks st))
  = match w with TasksWriteFails => loadTasks st | _ => tasks end.
Proof.
  intros H. rewrite loadTasks_saveTasks, (through_JSON_all_data _ H).
  reflexivity.
Qed.

Lemma formData_data (f : form) : JSON_data (formData f).
Proof.
  unfold formData. cbn [list_to_map foldr uncurry fst snd].
  repeat (apply JSON_data_insert; [apply JSON_value_str|]).
  apply JSON_data_empty.
Qed.

Lemma updateTask_required (w : write_outcome) (u id : jsstring) (updates : obj)
    (st : storage) :
  JSON_data updates ->
  Forall has_required (loadTasks st) ->
  Forall has_required (loadTasks (snd (updateTask w u id updates st))) /\
  (forall t, fst (updateTask w u id updates st) = Some t ->
             has_required t /\ In t (loadTasks (snd (updateTask w u id updates st))) /\
             exists old, In old (loadTasks st) /\
                         t = <[k_updatedAt := VStr u]> (updates ∪ old)).
Proof.
  intros Hu Hst. unfold updateTask.
  destruct (findIndex id (loadTasks st)) as [index|]; [|split; [assumption|discriminate]].
  destruct (loadTasks st !! index) as [old|] eqn:Hold;
    [|split; [assumption|discriminate]].
  assert (Hin : In old (loadTasks st)).
  { apply list_elem_of_In. eapply list_elem_of_lookup_2. eassumption. }
  assert (Hnew : has_required (<[k_updatedAt := VStr u]> (updates ∪ old))).
  { apply merged_required. rewrite Forall_forall in Hst. apply Hst.
    now apply list_elem_of_In. }
  assert (Hdata : JSON_data (<[k_updatedAt := VStr u]> (updates ∪ old))).
  { apply merged_data; [assumption|].
    pose proof (loadTasks_data st) as Hd. rewrite Forall_forall in Hd.
    now apply Hd, list_elem_of_In. }
  assert (Hall : Forall has_required
                   (<[index := <[k_updatedAt := VStr u]> (updates ∪ old)]> (loadTasks st))).
  { apply Forall_insert; assumption. }
  assert (HallD : Forall JSON_data
                   (<[index := <[k_updatedAt := VStr u]> (updates ∪ old)]> (loadTasks st))).
  { apply Forall_insert; [apply loadTasks_data|assumption]. }
  assert (Hmem : In (<[k_updatedAt := VStr u]> (updates ∪ old))
                   (<[index := <[k_updatedAt := VStr u]> (updates ∪ old)]> (loadTasks st))).
  { apply list_elem_of_In. eapply list_elem_of_lookup_2.
    apply list_lookup_insert_eq. eapply lookup_lt_Some. eassumption. }
  rewrite guarded_snd, guarded_fst, (saveTasks_loaded w _ st HallD).
  destruct w; cbn [saveTasks fst]; (split; [assumption|]); intros t E; simplify_eq;
    (split; [assumption|]); (split; [assumption|]); eauto.
Qed.

Lemma addTask_required (w : write_outcome) (id c u : jsstring) (d : obj)
    (st : storage) :
  JSON_data d ->
  Forall (fun k => is_Some (d !! k)) [k_title; k_dueDate; k_duration; k_tag] ->
  Forall has_required (loadTasks st) ->
  Forall has_required (loadTasks (snd (addTask w id c u d st))) /\
  (forall t, fst (addTask w id c u d st) = Some t ->
             t = new_task id c u d /\ In t (loadTasks (snd (addTask w id c u d st)))).
Proof.
  intros Hdd Hd Hst. pose proof (new_task_required id c u d Hd) as Hnew.
  assert (Hall : Forall has_required (loadTasks st ++ [new_task id c u d])).
  { apply Forall_app. split; [assumption|]. now constructor. }
  assert (HallD : Forall JSON_data (loadTasks st ++ [new_task id c u d])).
  { apply Forall_app. split; [apply loadTasks_data|].
    constructor; [now apply new_task_data|constructor]. }
  unfold addTask.
  rewrite guarded_snd, guarded_fst, (saveTasks_loaded w _ st HallD).
  destruct w; cbn [saveTasks fst]; (split; [assumption|]); intros t E; simplify_eq.
  split; [reflexivity|]. apply in_or_app. right. now left.
Qed.

Lemma formData_values (f : form) :
  formData f !! k_title = Some (VStr (trim (title_input f))) /\
  formData f !! k_dueDate = Some (VStr (trim (dueDate_input f))) /\
  formData f !! k_duration = Some (VStr (trim (duration_input f))) /\
  formData f !! k_tag = Some (VStr (tag_input f)).
Proof. repeat split; reflexivity. Qed.

(** What [handleTaskSubmit] saves: the form data, under fields the save
    leaves alone. *)
Lemma handleTaskSubmit_saved (t0 t1 t2 : Z) (w : write_outcome)
    (id c u : jsstring) (editingId : option jsstring) (f : form)
    (st st' : storage) (task : obj) :
  handleTaskSubmit tza t0 t1 t2 w id c u editingId f st = Some (TaskSaved task, st') ->
  validateTaskForm tza t0 t1 t2 (formData f) = Some [] /\
  In task (loadTasks st') /\
  (forall k v, formData f !! k = Some v -> k <> k_updatedAt -> k <> k_createdAt ->
               k <> k_completed -> k <> k_status -> get task k = v) /\
  (Forall has_required (loadTasks st) -> has_required task).
Proof.
  unfold handleTaskSubmit. intros H.
  destruct (validateTaskForm tza t0 t1 t2 (formData f)) as [errors|]; [|discriminate H].
  cbn [mbind option_bind] in H.
  destruct errors as [|e errors]; [|discriminate H]. cbn [length Nat.ltb Nat.leb] in H.
  split; [reflexivity|].
  assert (Hd := proj1 (formData_fields f)).
  assert (Hnew : forall id', addTask w id' c u (formData f) st = (Some task, st') ->
            In task (loadTasks st') /\
            (forall k v, formData f !! k = Some v -> k <> k_updatedAt ->
                         k <> k_createdAt -> k <> k_completed -> k <> k_status ->
                         get task k = v) /\
            (Forall has_required (loadTasks st) -> has_required task)).
  { intros id' E.
    assert (Hfst : fst (addTask w id' c u (formData f) st) = Some task) by now rewrite E.
    assert (Hsnd : snd (addTask w id' c u (formData f) st) = st') by now rewrite E.
    assert (Et : task = new_task id' c u (formData f)).
    { unfold addTask in Hfst. rewrite guarded_fst in Hfst.
      destruct (fst (saveTasks w _ st)); simplify_eq; reflexivity. }
    assert (Hin : In task (loadTasks st')).
    { rewrite <- Hsnd. clear E Hsnd. revert Hfst. subst task. unfold addTask.
      rewrite guarded_snd, guarded_fst, saveTasks_loaded.
      - destruct w; cbn [saveTasks fst]; try discriminate.
        intros _. apply in_or_app. right. now left.
      - apply Forall_app. split; [apply loadTasks_data|].
        constructor; [apply new_task_data, formData_data|constructor]. }
    split; [assumption|split].
    - intros k v Hk H1 H2 H3 H4. subst task. now apply new_task_value.
    - intros _. subst task. now apply new_task_required. }
  assert (Hedit : forall id', updateTask w u id' (formData f) st = (Some task, st') ->
            In task (loadTasks st') /\
            (forall k v, formData f !! k = Some v -> k <> k_updatedAt ->
                         k <> k_createdAt -> k <> k_completed -> k <> k_status ->
                         get task k = v) /\
            (Forall has_required (loadTasks st) -> has_required task)).
  { intros id' E.
    assert (Hfst : fst (updateTask w u id' (formData f) st) = Some task) by now rewrite E.
    assert (Hsnd : snd (updateTask w u id' (formData f) st) = st') by now rewrite E.
    assert (Hshape : In task (loadTasks st') /\
                     exists old, In old (loadTasks st) /\
                                 task = <[k_updatedAt := VStr u]> (formData f ∪ old)).
    { clear E. revert Hfst Hsnd. unfold updateTask.
      destruct (findIndex id' (loadTasks st)) as [index|]; [|discriminate].
      destruct (loadTasks st !! index) as [old|] eqn:Hold; [|discriminate].
      assert (Hin : In old (loadTasks st)).
      { apply list_elem_of_In. eapply list_elem_of_lookup_2. eassumption. }
      rewrite guarded_snd, guarded_fst. intros Hfst <-. rewrite saveTasks_loaded.
      - destruct w; cbn [saveTasks fst] in Hfst; simplify_eq.
        split; [|eauto].
        apply list_elem_of_In; eapply list_elem_of_lookup_2;
          apply list_lookup_insert_eq; eapply lookup_lt_Some; eassumption.
      - apply Forall_insert; [apply loadTasks_data|].
        apply merged_data; [apply formData_data|].
        pose proof (loadTasks_data st) as Hdt. rewrite Forall_forall in Hdt.
        now apply Hdt, list_elem_of_In. }
    destruct Hshape as [Hin (old & Hold & Et)].
    split; [assumption|split].
    - intros k v Hk H1 _ _ _. subst task.
      rewrite get_insert_ne by congruence. now apply get_union_l.
    - intros Hst. subst task. apply merged_required.
      rewrite Forall_forall in Hst. now apply Hst, list_elem_of_In. }
  destruct editingId as [[|ch e]|].
  - destruct (addTask w id c u (formData f) st) as [[t|] s1] eqn:E; simplify_eq.
    now apply (Hnew id).
  - destruct (updateTask w u (ch :: e) (formData f) st) as [[t|] s1] eqn:E; simplify_eq.
    now apply (Hedit (ch :: e)).
  - destruct (addTask w id c u (formData f) st) as [[t|] s1] eqn:E; simplify_eq.
    now apply (Hnew id).
Qed.

Lemma saveTasks_required (w : write_outcome) (tasks : list obj) (st : storage) :
  Forall JSON_data tasks ->
  Forall has_required tasks -> Forall has_required (loadTasks st) ->
  Forall has_required (loadTasks (snd (saveTasks w tasks st))).
Proof.
  intros Hd Ht Hst. rewrite (saveTasks_loaded w tasks st Hd).
  destruct w; assumption.
Qed.

(** The records of an array read from a text are data that JSON keeps. *)
Lemma as_objects_data (l : list value) :
  Forall JSON_data
    (as_objects ((fun e => match e with
                           | VUndef => VNull
                           | _ => through_JSON e
                           end) <$> l)).
Proof.
  induction l as [|e l IH]; [constructor|].
  rewrite fmap_cons. unfold as_objects in *. cbn [omap list_omap].
  destruct e as [| |b|n|s|l'|m]; cbn [through_JSON]; try exact IH.
  - destruct (_ =? _); exact IH.
  - constructor; [apply JSON_data_through|exact IH].
Qed.

Lemma importData_required (msg : value -> jsstring) (w : write_outcome) (ws : bool)
    (data : value) (st : storage) :
  Forall has_required (loadTasks st) ->
  Forall has_required (loadTasks (snd (importData msg w ws (through_JSON data) st))).
Proof.
  intros Hst.
  destruct data as [| |b|n|s|l|m]; cbn [through_JSON]; try assumption.
  { destruct (_ =? _); assumption. }
  change (VObj (omap _ m)) with (VObj (through_JSON_obj m)).
  unfold importData. rewrite (get_through_JSON_obj m k_tasks).
  destruct (get m k_tasks) as [| |b|n|s|tasks|m'] eqn:Et; cbn [through_JSON];
    try assumption.
  { destruct (_ =? _); assumption. }
  match goal with
  | |- context [check_tasks ?l] => set (read := l)
  end.
  destruct (check_tasks read) eqn:E; try assumption.
  pose proof (saveTasks_required w (as_objects read) st (as_objects_data tasks)
                (proj2 (check_tasks_required read E)) Hst) as Hsaved.
  destruct (saveTasks w (as_objects read) st) as [[|] st1]; cbn [snd] in *;
    [|assumption].
  destruct (truthy _ && is_object _); [|assumption].
  now rewrite saveSettings_keeps_tasks.
Qed.

Lemma deleteTask_required (w : write_outcome) (id : jsstring) (st : storage) :
  Forall has_required (loadTasks st) ->
  Forall has_required (loadTasks (snd (deleteTask w id st))).
Proof.
  intros Hst. unfold deleteTask.
  destruct (_ =? _)%nat; [assumption|].
  apply saveTasks_required; [apply Forall_filter_data, loadTasks_data| |assumption].
  apply Forall_forall. intros t Ht. rewrite Forall_forall in Hst. apply Hst.
  apply list_elem_of_In. apply list_elem_of_In, filter_In in Ht. tauto.
Qed.

Lemma lifecycle_updates_data (v : value) (c s : jsstring) (b : bool) :
  JSON_value v ->
  JSON_data (<[k_completedAt := v]> (<[k_completed := VBool b]> {[k_status := VStr s]})).
Proof.
  intros Hv. apply JSON_data_insert; [assumption|].
  apply JSON_data_insert; [apply JSON_value_bool|].
  rewrite <- insert_empty. apply JSON_data_insert; [apply JSON_value_str|].
  apply JSON_data_empty.
Qed.

Lemma react_required (e : event) (st : storage) :
  Forall has_required (loadTasks st) ->
  Forall has_required (loadTasks (react tza e st)).
Proof.
  intros Hst.
  destruct e as [t0 t1 t2 w id c u editingId f|w c u id|w u id|w id|
                |msg w ws data|ok timeUnit weeklyTarget];
    cbn [react].
  - unfold handleTaskSubmit.
    destruct (validateTaskForm tza t0 t1 t2 (formData f)) as [errors|]; [|assumption].
    cbn [mbind option_bind].
    destruct (0 <? length errors)%nat; [assumption|].
    assert (Hd := proj1 (formData_fields f)).
    assert (Hdd := formData_data f).
    destruct editingId as [[|ch e]|].
    + pose proof (proj1 (addTask_required w id c u (formData f) st Hdd Hd Hst)) as H.
      destruct (addTask w id c u (formData f) st) as [[t|] s1]; exact H.
    + pose proof (proj1 (updateTask_required w u (ch :: e) (formData f) st Hdd Hst)) as H.
      destruct (updateTask w u (ch :: e) (formData f) st) as [[t|] s1]; exact H.
    + pose proof (proj1 (addTask_required w id c u (formData f) st Hdd Hd Hst)) as H.
      destruct (addTask w id c u (formData f) st) as [[t|] s1]; exact H.
  - apply updateTask_required; [|assumption].
    apply (lifecycle_updates_data _ c), JSON_value_str.
  - apply updateTask_required; [|assumption].
    apply (lifecycle_updates_data _ u), JSON_value_null.
  - now apply deleteTask_required.
  - constructor.
  - now apply importData_required.
  - unfold saveSettingsData. now rewrite saveSettings_keeps_tasks.
Qed.

Lemma session_required (events : list event) (st : storage) :
  Forall has_required (loadTasks st) ->
  Forall has_required (loadTasks (session tza events st)).
Proof.
  revert st. induction events as [|e events IH]; intros st Hst; [assumption|].
  cbn [session fold_left]. apply IH. now apply react_required.
Qed.

End FormFacts.

(** X22.  Nothing is saved through the task form unless every field validator
    accepts what is saved: when [handleTaskSubmit] reports a saved task, new
    or edited, that task is in the storage, its title, duration, due date and
    tag are the ones the validators accepted at that moment, and it carries
    the five fields [importData] asks for provided the stored tasks did. *)
Theorem handleTaskSubmit_saves_validated :
  forall (tza t0 t1 t2 : Z) (w : write_outcome) (id created updated : jsstring)
         (editingId : option jsstring) (f : form) (st st' : storage) (task : obj),
    handleTaskSubmit tza t0 t1 t2 w id created updated editingId f st
    = Some (TaskSaved task, st') ->
    In task (loadTasks st') /\
    validateTitle (get task k_title) = Some accept /\
    validateDuration (get task k_duration) = Some accept /\
    validateDueDateAt tza t0 t1 t2 (get task k_dueDate) = Some accept /\
    validateTag (get task k_tag) = Some accept /\
    (Forall has_required (loadTasks st) -> has_required task).
Proof.
  intros tza t0 t1 t2 w id c u editingId f st st' task H.
  apply handleTaskSubmit_saved in H as (Hv & Hin & Hget & Hreq).
  apply validateTaskForm_clean in Hv as (V1 & V2 & V3 & V4).
  destruct (formData_values f) as (F1 & F2 & F3 & F4).
  split; [assumption|].
  rewrite (Hget _ _ F1), (Hget _ _ F2), (Hget _ _ F3), (Hget _ _ F4)
    by (intros E; vm_compute in E; discriminate).
  unfold get in V1, V2, V3, V4. rewrite F1 in V1. rewrite F3 in V2.
  rewrite F2 in V3. rewrite F4 in V4.
  repeat split; assumption.
Qed.

Lemma handleTaskSubmit_saves_validated_witness :
  let f := {| title_input := lit "Read chapter 4"; dueDate_input := lit "2026-12-01";
              duration_input := lit " 90"; tag_input := lit "Academic";
              priority_input := lit "High"; location_input := [] |} in
  exists task st',
    handleTaskSubmit two_hours_east t_2026_11_02 t_2026_11_02 t_2026_11_02 WriteOk
      (lit "task_1_7") (lit "t0") (lit "t0") None f empty_storage
    = Some (TaskSaved task, st') /\
    validateDuration (get task k_duration) = Some accept.
Proof.
  intros f.
  assert (E : exists task st',
             handleTaskSubmit two_hours_east t_2026_11_02 t_2026_11_02 t_2026_11_02
               WriteOk (lit "task_1_7") (lit "t0") (lit "t0") None f empty_storage
             = Some (TaskSaved task, st')).
  { vm_compute. do 2 eexists. reflexivity. }
  destruct E as (task & st' & E). exists task, st'. split; [exact E|].
  exact (proj1 (proj2 (proj2 (handleTaskSubmit_saves_validated _ _ _ _ _ _ _ _ _ _ _ _ _ E)))).
Defined.

(** X23.  Whatever the user does, starting from an empty storage (submitting the
    task form, completing, undoing, deleting, clearing, importing files,
    saving the settings, with writes that fail or not), every stored task
    carries the five fields [importData] asks for.  So what [exportData]
    returns can always be imported back. *)
Theorem session_export_can_be_imported :
  forall (tza : Z) (events : list event) (in_error_message : value -> jsstring)
         (ws : bool) (exportDate : jsstring) (st0 : storage),
    let st := session tza events empty_storage in
    Forall has_required (loadTasks st) /\
    success (fst (importData in_error_message WriteOk ws
                    (exportData exportDate st) st0)) = true /\
    loadTasks (snd (importData in_error_message WriteOk ws
                      (exportData exportDate st) st0)) = loadTasks st.
Proof.
  intros tza events msg ws date st0 st.
  assert (Hst : Forall has_required (loadTasks st)).
  { apply session_required. constructor. }
  destruct (exportData_importData msg ws date st st0) as (Hok & Hload & _).
  split; [assumption|]. split; [now apply Hok|]. now apply Hload.
Qed.

(** * What the task list shows *)

Section Shown.

Variable legacy_parse : jsstring -> option Z.
Variable toLowerCase : jsstring -> jsstring.
Variable array_sort : (obj -> obj -> option Z) -> list obj -> option (list obj).

Hypothesis engine_sorts : SortSpec.sorts_distinct array_sort.

Local Abbreviation by_date :=
  (SortSpec.before legacy_parse toLowerCase k_dueDate (lit "asc")).

Lemma due_date_key (t : obj) (k : SortSpec.sort_key) :
  SortSpec.key_of legacy_parse toLowerCase k_dueDate t = Some k ->
  exists d, Date_of_value legacy_parse (get t k_dueDate) = Some (Some d) /\
            k = SortSpec.KeyNum d.
Proof.
  unfold SortSpec.key_of. rewrite bool_decide_eq_true_2 by reflexivity.
  destruct (Date_of_value legacy_parse (get t k_dueDate)) as [[d|]|]; try discriminate.
  cbn. intros E. injection E as <-. eauto.
Qed.

Lemma by_due_date_decides (l : list obj) (x y : obj) :
  SortSpec.distinct_keys legacy_parse toLowerCase k_dueDate l ->
  x ∈ l -> y ∈ l -> x <> y ->
  exists c, by_due_date legacy_parse x y = Some c /\
            ((c < 0 /\ by_date x y) \/ (0 < c /\ by_date y x)).
Proof.
  intros [Hkeys Hnd] Hx Hy Hne. rewrite Forall_forall in Hkeys.
  destruct (Hkeys x Hx) as [kx Hkx]. destruct (Hkeys y Hy) as [ky Hky].
  assert (Hk : kx <> ky).
  { intros ->. apply Hne.
    apply (NoDup_fmap_inj_on (SortSpec.key_of legacy_parse toLowerCase k_dueDate) l);
      try assumption. congruence. }
  destruct (due_date_key x kx Hkx) as (dx & Ex & ->).
  destruct (due_date_key y ky Hky) as (dy & Ey & ->).
  unfold by_due_date. rewrite Ex, Ey. eexists. split; [reflexivity|].
  assert (Hd : dx <> dy) by congruence.
  destruct (Z.lt_total dx dy) as [Hlt|[Heq|Hgt]]; [left|congruence|right];
    (split; [lia|]); unfold SortSpec.before;
    [exists (SortSpec.KeyNum dx), (SortSpec.KeyNum dy)
    |exists (SortSpec.KeyNum dy), (SortSpec.KeyNum dx)];
    (split; [assumption|]); (split; [assumption|]);
    rewrite bool_decide_eq_true_2 by reflexivity; cbn; lia.
Qed.

(** Whatever order the tasks are given in, [renderTasks] shows them by due
    date. *)
Lemma renderTasks_given (l : list obj) (st : storage) :
  SortSpec.distinct_keys legacy_parse toLowerCase k_dueDate l ->
  exists shown,
    renderTasks legacy_parse array_sort (Some l) st = Some shown /\
    shown ≡ₚ l /\ StronglySorted by_date shown.
Proof.
  intros Hd. unfold renderTasks. cbn [default from_option].
  destruct l as [|t l]; [exists []; repeat split; constructor|].
  change (Datatypes.id (t :: l)) with (t :: l). cbn [length Nat.eqb].
  apply engine_sorts.
  - destruct Hd as [_ Hnd]. now apply NoDup_fmap_1 in Hnd.
  - intros x y z. apply before_trans.
  - intros x y Hx Hy Hne. now apply (by_due_date_decides (t :: l)).
Qed.

End Shown.

(** X24.  [renderTasks] sorts what it is given by due date, so the order that
    [sortTasks] computes does not reach the screen.  Under any engine sort
    that sorts distinct, consistently compared elements, and for tasks not
    completed whose keys under the sort field exist and are pairwise
    distinct and whose due dates are valid and pairwise distinct: the list
    shown after [sortTasks], in either direction, is the list [renderTasks]
    shows without it, in ascending order of due date. *)
Theorem renderTasks_undoes_sortTasks :
  forall (legacy_parse : jsstring -> option Z)
         (toLowerCase : jsstring -> jsstring)
         (array_sort : (obj -> obj -> option Z) -> list obj -> option (list obj)),
    SortSpec.sorts_distinct array_sort ->
    forall (field order : jsstring) (st : storage),
      SortSpec.distinct_keys legacy_parse toLowerCase field
        (List.filter not_completed (loadTasks st)) ->
      SortSpec.distinct_keys legacy_parse toLowerCase k_dueDate
        (List.filter not_completed (loadTasks st)) ->
      exists sorted shown,
        sortTasks legacy_parse toLowerCase array_sort field (Some order) st
        = Some sorted /\
        renderTasks legacy_parse array_sort (Some sorted) st = Some shown /\
        renderTasks legacy_parse array_sort None st = Some shown /\
        shown ≡ₚ List.filter not_completed (loadTasks st) /\
        StronglySorted
          (SortSpec.before legacy_parse toLowerCase k_dueDate (lit "asc")) shown.
Proof.
  intros lp lower array_sort Hsorts field order st Hfield Hdate.
  set (active := List.filter not_completed (loadTasks st)) in *.
  set (R := SortSpec.before lp lower k_dueDate (lit "asc")).
  assert (Hsorted : exists sorted,
             array_sort (compareTasks lp lower field order) active = Some sorted /\
             sorted ≡ₚ active).
  { destruct (Hsorts (compareTasks lp lower field order)
                (SortSpec.before lp lower field order) active)
      as (sorted & Hs & Hp & _).
    - destruct Hfield as [_ Hnd]. now apply NoDup_fmap_1 in Hnd.
    - intros x y z. apply before_trans.
    - intros x y Hx Hy Hne. now apply (compareTasks_decides lp lower field order active).
    - eauto. }
  destruct Hsorted as (sorted & Hsort & Hperm).
  assert (Hdate' : SortSpec.distinct_keys lp lower k_dueDate sorted).
  { destruct Hdate as [Hk Hnd]. split; rewrite Hperm; assumption. }
  destruct (renderTasks_given lp lower array_sort Hsorts sorted st Hdate')
    as (shown & Hshown & Hp & Hs).
  destruct (renderTasks_given lp lower array_sort Hsorts active st Hdate)
    as (shown' & Hshown' & Hp' & Hs').
  assert (E : shown' = shown).
  { apply (StronglySorted_unique_strong R); try assumption.
    - intros x y _ _ Hxy Hyx. exfalso. eapply before_asym; eassumption.
    - now rewrite Hp, Hp'. }
  subst shown'. exists sorted, shown.
  split; [exact Hsort|]. split; [exact Hshown|]. split; [exact Hshown'|].
  split; assumption.
Qed.

Lemma renderTasks_undoes_sortTasks_witness :
  let st := storage_of [quiz_task; essay_task] in
  sortTasks (fun _ => None) ascii_lower (@v8_sort obj) k_title (Some (lit "asc")) st
  = Some [essay_task; quiz_task] /\
  renderTasks (fun _ => None) (@v8_sort obj) (Some [essay_task; quiz_task]) st
  = renderTasks (fun _ => None) (@v8_sort obj) None st.
Proof.
  intros st.
  assert (Hnd : forall f,
             f quiz_task <> f essay_task ->
             NoDup (f <$> [quiz_task; essay_task] : list (option SortSpec.sort_key))).
  { intros f Hf. cbn [fmap list_fmap]. constructor.
    - intros H. apply elem_of_cons in H as [H|H]; [contradiction|].
      now apply elem_of_nil in H.
    - constructor; [apply not_elem_of_nil|constructor]. }
  destruct (renderTasks_undoes_sortTasks (fun _ => None) ascii_lower (@v8_sort obj)
              v8_sort_sorts_distinct k_title (lit "asc") st)
    as (sorted & shown & Hsort & Hshown & Hplain & _).
  - split.
    + repeat constructor; vm_compute; eauto.
    + apply Hnd. vm_compute. discriminate.
  - split.
    + repeat constructor; vm_compute; eauto.
    + apply Hnd. vm_compute. discriminate.
  - assert (E : sortTasks (fun _ => None) ascii_lower (@v8_sort obj) k_title
                  (Some (lit "asc")) st = Some [essay_task; quiz_task])
      by (vm_compute; reflexivity).
    split; [exact E|]. rewrite E in Hsort. injection Hsort as <-.
    now rewrite Hshown, Hplain.
Defined.

(** * Validators and what reads their fields *)

Section Accepted.

Lemma Lang_rep_of_all p (s : jsstring) :
  Forall (fun c => p c = true) s -> Lang (Rep (Cls p)) s.
Proof.
  induction 1 as [|c s Hc _ IH]; [constructor|].
  change (c :: s) with ([c] ++ s). constructor; [now constructor|assumption].
Qed.

Lemma duration_shape (t : jsstring) :
  full_match DURATION_REGEX t = true <->
  exists c r, t = c :: r /\ c <> 48%N /\ Forall (fun c => is_digit c = true) t.
Proof.
  rewrite full_match_Lang. unfold DURATION_REGEX. split.
  - intros H. apply Lang_cls_inv in H as (c & v & -> & Hc & Hv).
    apply Lang_rep_cls in Hv. apply andb_true_iff in Hc as [H1 H2].
    apply N.leb_le in H1. exists c, v. split; [reflexivity|]. split; [lia|].
    constructor; [|assumption]. unfold is_digit. rewrite H2, andb_true_r.
    apply N.leb_le. lia.
  - intros (c & r & -> & Hc & Hd). apply Forall_cons in Hd as [Hc0 Hd].
    apply Lang_cls_seq.
    + unfold is_digit in Hc0. apply andb_true_iff in Hc0 as [H1 H2].
      apply N.leb_le in H1. rewrite H2, andb_true_r. apply N.leb_le. lia.
    + now apply Lang_rep_of_all.
Qed.

Lemma digits_value_acc (s : jsstring) : forall a : Z,
  Forall (fun c => is_digit c = true) s -> 0 <= a ->
  a <= fold_left (fun acc c => 10 * acc + (Z.of_N c - 48)) s a.
Proof.
  induction s as [|c s IH]; intros a Hs Ha; cbn [fold_left]; [lia|].
  apply Forall_cons in Hs as [Hc Hs]. apply is_digit_Z in Hc.
  etransitivity; [|apply IH; [assumption|lia]]. lia.
Qed.

Lemma digits_value_positive (c : N) (r : jsstring) :
  c <> 48%N -> Forall (fun c => is_digit c = true) (c :: r) ->
  1 <= digits_value (c :: r).
Proof.
  intros Hc Hd. apply Forall_cons in Hd as [Hc0 Hd].
  unfold digits_value. cbn [fold_left]. apply is_digit_Z in Hc0.
  etransitivity; [|apply digits_value_acc; [assumption|lia]]. lia.
Qed.

Lemma digits_value_nonneg (s : jsstring) :
  Forall (fun c => is_digit c = true) s -> 0 <= digits_value s.
Proof. intros H. unfold digits_value. now apply digits_value_acc. Qed.

(** Rounding to a double does not move a number across a small bound. *)
Lemma Number_of_le (n b : Z) :
  0 <= n -> b < 2 ^ 53 -> (Number_of n <= b <-> n <= b).
Proof.
  intros Hn Hb. destruct (Z.lt_ge_cases n (2 ^ 53)) as [H|H].
  - rewrite Number_of_small by lia. reflexivity.
  - pose proof (Number_of_big n H). lia.
Qed.

End Accepted.

(** X25.  [validateDuration] accepts a string exactly when, once trimmed, it is a
    run of decimal digits that does not start with a zero and reads as at
    most 1440.  The check for a value that is not greater than zero never
    fires: no input gets that message. *)
Theorem validateDuration_accepts_iff :
  forall s : jsstring,
    (validateDuration (VStr s) = Some accept <->
     exists c r, trim s = c :: r /\ c <> 48%N /\
                 Forall (fun c => is_digit c = true) (trim s) /\
                 digits_value (trim s) <= 1440) /\
    (forall (v : value) (res : result),
        validateDuration v = Some res ->
        error res <> lit "Duration must be greater than 0").
Proof.
  intros s. split; [split|].
  - intros H. destruct (validateDuration_reads _ H) as (n & s' & Es & Hm & _ & Hn & Hb).
    injection Es as <-.
    destruct (duration_text_parses s Hm) as (_ & Hp & _).
    apply duration_shape in Hm as (c & r & E & Hc & Hd).
    exists c, r. repeat split; try assumption.
    rewrite Hp in Hn. injection Hn as Hn. subst n.
    apply (Number_of_le _ 1440); [now apply digits_value_nonneg|reflexivity|lia].
  - intros (c & r & E & Hc & Hd & Hle).
    assert (Hm : full_match DURATION_REGEX (trim s) = true).
    { apply duration_shape. exists c, r. auto. }
    destruct (duration_text_parses s Hm) as (_ & Hp & _).
    assert (Hpos : 1 <= digits_value (trim s)).
    { rewrite E in *. now apply digits_value_positive. }
    assert (Hex : Number_of (digits_value (trim s)) = digits_value (trim s)).
    { apply Number_of_small. change (2 ^ 53) with 9007199254740992. lia. }
    unfold validateDuration. destruct s as [|c' s]; [discriminate E|].
    cbn [ToString trim_of mbind option_bind]. rewrite Hm, Hp, Hex. cbn [negb].
    destruct (Z.leb_spec (digits_value (trim (c' :: s))) 0); [lia|].
    destruct (Z.ltb_spec 1440 (digits_value (trim (c' :: s)))); [lia|reflexivity].
  - intros v res H.
    assert (G : forall t : jsstring,
               (if negb (full_match DURATION_REGEX t)
                then Some (reject "Duration must be a positive number (e.g., 120)")
                else match parseInt10 t with
                     | None => Some (reject "Duration must be greater than 0")
                     | Some numValue =>
                         if numValue <=? 0
                         then Some (reject "Duration must be greater than 0")
                         else if 1440 <? numValue
                              then Some (reject "Duration cannot exceed 24 hours (1440 minutes)")
                              else Some accept
                     end) = Some res ->
               error res <> lit "Duration must be greater than 0").
    { intros t Ht. destruct (full_match DURATION_REGEX t) eqn:Hm; cbn [negb] in Ht.
      - assert (Hm' := Hm). apply duration_shape in Hm' as (c & r & -> & Hc & Hd).
        assert (Hp : parseInt10 (c :: r) = Some (Number_of (digits_value (c :: r)))).
        { assert (Ht' : trim (c :: r) = c :: r).
          { apply trim_id. split.
            - apply Forall_cons in Hd as [Hc0 _]. cbn. now apply digit_not_space.
            - destruct (last (c :: r)) as [x|] eqn:El; [|reflexivity]. cbn.
              apply digit_not_space.
              assert (Hin : x ∈ c :: r) by (eapply last_Some_elem_of; eassumption).
              rewrite Forall_forall in Hd. now apply Hd. }
          rewrite <- Ht' in Hm. destruct (duration_text_parses _ Hm) as (_ & Hp & _).
          now rewrite Ht' in Hp. }
        rewrite Hp in Ht.
        pose proof (digits_value_positive c r Hc Hd) as Hpos.
        assert (Hno : ~ Number_of (digits_value (c :: r)) <= 0).
        { rewrite Number_of_le; [lia|lia|reflexivity]. }
        destruct (Z.leb_spec (Number_of (digits_value (c :: r))) 0); [lia|].
        destruct (1440 <? Number_of (digits_value (c :: r))); injection Ht as <-;
          discriminate.
      - injection Ht as <-. discriminate. }
    unfold validateDuration in H.
    destruct v as [| |b|n|[|c t]|l|m];
      try (injection H as <-; discriminate);
      destruct (ToString _) as [text|]; try discriminate H;
      cbn [trim_of mbind option_bind] in H; now apply G in H.
Qed.

(** X26.  A due date that [validateDueDate] accepts is, once trimmed as the form
    stores it, read by [new Date] in the queries and the sort as midnight
    UTC of that calendar day; the engine's own date heuristics never come
    into play. *)
Theorem validateDueDate_accepted_reads_as_utc_midnight :
  forall (tza now : Z) (legacy_parse : jsstring -> option Z) (s : jsstring),
    validateDueDate tza now (VStr s) = Some accept ->
    exists y m d,
      parse_date_only (trim s) = Some (y, m, d) /\
      real_date y m d /\
      Date_of_value legacy_parse (VStr (trim s))
      = Some (Some (MakeDate (MakeDay y (m - 1) d) 0)).
Proof.
  intros tza now lp s H.
  destruct (validateDueDate_shape tza now s H) as (y & m & d & Hp & Hm & Hd).
  rewrite (validateDueDate_eval tza now s y m d Hp Hm Hd) in H.
  destruct (Z.leb_spec 100 y) as [Hy|Hy]; [|discriminate H].
  destruct (Z.leb_spec d (days_in_month y m)) as [Hdim|Hdim]; [|discriminate H].
  exists y, m, d. split; [assumption|]. split; [split; lia|].
  unfold Date_of_value, Date_parse. rewrite Hp.
  replace (real_dateb y m d) with true; [reflexivity|].
  symmetry. unfold real_dateb. rewrite !andb_true_iff, !Z.leb_le. lia.
Qed.

Lemma validateDueDate_accepted_reads_as_utc_midnight_witness :
  exists y m d,
    Date_of_value (fun _ => None) (VStr (lit "2026-12-01"))
    = Some (Some (MakeDate (MakeDay y (m - 1) d) 0)).
Proof.
  destruct (validateDueDate_accepted_reads_as_utc_midnight two_hours_east
              t_2026_11_02 (fun _ => None) (lit " 2026-12-01 "))
    as (y & m & d & _ & _ & H).
  - vm_compute. reflexivity.
  - exists y, m, d. exact H.
Defined.

(** X27.  After any run of the lifecycle operations that leave [status] and
    [completed] to [completeTask] and [uncompleteTask], the tasks
    [getCompletedTasks] returns are the tasks [getTasksByStatus] returns for
    ["Completed"]. *)
Theorem getCompletedTasks_agrees_with_status :
  forall ops : list op,
    Forall plain_op ops ->
    getCompletedTasks (run ops empty_storage)
    = getTasksByStatus (lit "Completed") (run ops empty_storage).
Proof.
  intros ops Hops.
  assert (Hst : coherent (run ops empty_storage)).
  { apply run_coherent; [assumption|constructor]. }
  unfold getCompletedTasks, getTasksByStatus. apply filter_ext_in_iff.
  intros t Ht. unfold coherent in Hst. rewrite Forall_forall in Hst.
  specialize (Hst t (proj2 (list_elem_of_In _ _) Ht)). unfold consistent in Hst.
  destruct (strict_eq_true (get t k_completed)) eqn:Ec.
  - assert (E : get t k_completed = VBool true).
    { destruct (get t k_completed) as [| |[|]| | | |]; now try discriminate. }
    apply Hst in E. rewrite E. cbn. symmetry. now apply bool_decide_eq_true_2.
  - destruct (strict_eq_str (get t k_status) (lit "Completed")) eqn:Es; [|reflexivity].
    assert (E : get t k_status = VStr (lit "Completed")).
    { unfold strict_eq_str in Es. destruct (get t k_status); try discriminate.
      apply bool_decide_eq_true_1 in Es. now subst. }
    apply Hst in E. rewrite E in Ec. discriminate Ec.
Qed.

Lemma getCompletedTasks_agrees_with_status_witness :
  let ops := [OpAdd WriteOk (lit "task_1") (lit "t0") (lit "t0")
                {[k_title := VStr (lit "Read chapter 4")]};
              OpComplete WriteOk (lit "t1") (lit "t1") (lit "task_1")] in
  length (getTasksByStatus (lit "Completed") (run ops empty_storage)) = 1%nat.
Proof.
  intros ops. rewrite <- (getCompletedTasks_agrees_with_status ops).
  - vm_compute. reflexivity.
  - repeat constructor. vm_compute. discriminate.
Defined.

(** * Tags *)

Section TagFacts.

Import TagSpec.

Let A := Cls is_alpha.
Let R := Rep (Seq (Cls is_separator) (Plus A)).

Lemma TAG_REGEX_shape : TAG_REGEX = Seq (Plus A) R.
Proof. reflexivity. Qed.

Lemma separator_not_alpha (c : N) : is_separator c = true -> is_alpha c = false.
Proof.
  unfold is_separator. rewrite orb_true_iff, !N.eqb_eq. intros [->| ->]; reflexivity.
Qed.

Lemma tag_scan_letters (u r : jsstring) (b : bool) :
  Forall (fun c => is_alpha c = true) u -> u <> [] ->
  tag_scan b (u ++ r) = tag_scan true r.
Proof.
  intros Hu. revert b. induction Hu as [|c u Hc Hu IH]; intros b Hne; [congruence|].
  cbn [app tag_scan]. rewrite Hc. destruct u as [|d u]; [reflexivity|].
  apply IH. discriminate.
Qed.

Lemma tag_scan_blocks (v : jsstring) : Lang R v -> tag_scan true v = true.
Proof.
  intros H. unfold R in H. remember (Rep (Seq (Cls is_separator) (Plus A))) as r eqn:Er.
  induction H as [| | | | | |a u v Hu _ Hv IHv]; try discriminate; [reflexivity|].
  injection Er as ->. specialize (IHv eq_refl).
  apply Lang_cls_inv in Hu as (c & w & -> & Hc & Hw).
  apply Lang_plus_cls in Hw as [Hw Hne].
  cbn [app tag_scan]. rewrite (separator_not_alpha c Hc), Hc. cbn [andb].
  now rewrite tag_scan_letters.
Qed.

Lemma tag_scan_Lang (t : jsstring) :
  (tag_scan false t = true -> Lang (Seq (Plus A) R) t) /\
  (tag_scan true t = true -> Lang (Seq (Rep A) R) t).
Proof.
  induction t as [|c t [IH1 IH2]]; cbn [tag_scan].
  - split; [discriminate|]. intros _.
    change (@nil N) with (@nil N ++ []). constructor; constructor.
  - destruct (is_alpha c) eqn:Hc.
    + assert (H : tag_scan true t = true ->
                  Lang (Seq (Plus A) R) (c :: t) /\ Lang (Seq (Rep A) R) (c :: t)).
      { intros H. apply IH2, Lang_seq_inv in H as (u & v & -> & Hu & Hv).
        change (c :: u ++ v) with ((c :: u) ++ v). split.
        - constructor; [|assumption]. apply Lang_cls_seq; assumption.
        - constructor; [|assumption].
          change (c :: u) with ([c] ++ u). apply L_rep_more; [now constructor|assumption]. }
      split; intros G; now apply H.
    + split; [rewrite andb_false_r; discriminate|]. intros H.
      rewrite andb_true_r in H. apply andb_true_iff in H as [Hs H].
      apply IH1, Lang_seq_inv in H as (u & v & -> & Hu & Hv).
      change (c :: u ++ v) with ([] ++ (([c] ++ u) ++ v)).
      constructor; [constructor|].
      apply L_rep_more; [|assumption].
      constructor; [now constructor|assumption].
Qed.

Lemma tag_regex_scan (t : jsstring) :
  full_match TAG_REGEX t = true <-> tag_scan false t = true.
Proof.
  rewrite full_match_Lang, TAG_REGEX_shape. split.
  - intros H. apply Lang_seq_inv in H as (u & v & -> & Hu & Hv).
    apply Lang_plus_cls in Hu as [Hu Hne].
    rewrite tag_scan_letters by assumption. now apply tag_scan_blocks.
  - apply tag_scan_Lang.
Qed.

Lemma tag_scan_text (t : jsstring) : forall b : bool,
  tag_scan b t = true <->
  Forall (fun c => is_alpha c = true \/ is_separator c = true) t /\
  (b = false -> from_option is_alpha false (head t) = true) /\
  from_option is_alpha b (last t) = true /\
  (forall i x y, t !! i = Some x -> t !! S i = Some y ->
                 is_separator x = true -> is_separator y = true -> False).
Proof.
  induction t as [|c t IH]; intros b; cbn [tag_scan].
  - split.
    + intros ->. repeat split; try constructor; try discriminate.
    + intros (_ & _ & H & _). exact H.
  - assert (Hlast : forall d : bool,
               from_option is_alpha d (last (c :: t))
               = from_option is_alpha (is_alpha c) (last t)).
    { intros d. destruct t as [|x t]; [reflexivity|].
      change (last (c :: x :: t)) with (last (x :: t)).
      destruct (last (x :: t)) eqn:E; [reflexivity|].
      apply last_None in E. discriminate. }
    destruct (is_alpha c) eqn:Hc.
    + rewrite (IH true). rewrite Hlast. split.
      * intros (Hall & _ & Hl & Hadj). repeat split.
        -- constructor; [now left|assumption].
        -- intros _. exact Hc.
        -- exact Hl.
        -- intros [|i] x y Hx Hy Sx Sy.
           ++ cbn in Hx. injection Hx as <-.
              rewrite (separator_not_alpha c Sx) in Hc. discriminate.
           ++ now apply (Hadj i x y).
      * intros (Hall & _ & Hl & Hadj). apply Forall_cons in Hall as [_ Hall].
        repeat split; try assumption; [discriminate|].
        intros i x y Hx Hy. now apply (Hadj (S i) x y).
    + rewrite Hlast. split.
      * intros H. apply andb_true_iff in H as [H Ht].
        apply andb_true_iff in H as [Hs ->].
        apply (IH false) in Ht as (Hall & Hh & Hl & Hadj). repeat split.
        -- constructor; [now right|assumption].
        -- discriminate.
        -- exact Hl.
        -- intros [|i] x y Hx Hy Sx Sy.
           ++ cbn in Hx, Hy. injection Hx as <-.
              destruct t as [|z t]; [discriminate Hy|]. cbn in Hy.
              injection Hy as E. subst z.
              specialize (Hh eq_refl). cbn in Hh.
              rewrite (separator_not_alpha y Sy) in Hh. discriminate.
           ++ now apply (Hadj i x y).
      * intros (Hall & Hh & Hl & Hadj). apply Forall_cons in Hall as [Hc' Hall].
        destruct Hc' as [Hc'|Hs]; [congruence|].
        destruct b; [|specialize (Hh eq_refl); cbn in Hh; congruence].
        rewrite Hs. cbn [andb]. apply (IH false). repeat split; try assumption.
        -- intros _. destruct t as [|z t]; [discriminate Hl|]. cbn.
           apply Forall_cons in Hall as [[Hz|Hz] _]; [assumption|].
           exfalso. now apply (Hadj 0%nat c z).
        -- intros i x y Hx Hy. now apply (Hadj (S i) x y).
Qed.

Lemma tag_regex_text (t : jsstring) :
  full_match TAG_REGEX t = true <-> tag_text t.
Proof.
  rewrite tag_regex_scan, (tag_scan_text t false). unfold tag_text.
  split; intros (H1 & H2 & H3 & H4); repeat split; auto.
Qed.

End TagFacts.

(** X28.  [validateTag] accepts a value exactly when it is a string that,
    once trimmed, has from 3 to 30 code units and is made of letters with
    single spaces or hyphens standing between letters. *)
Theorem validateTag_accepts_iff :
  forall v : value,
    validateTag v = Some accept <->
    exists s, v = VStr s /\
              (3 <= length (trim s) <= 30)%nat /\ TagSpec.tag_text (trim s).
Proof.
  intros v. unfold validateTag.
  destruct v as [| |b|n|s|l|m];
    try (cbn [truthy is_string negb orb]; rewrite ?orb_true_r;
         split; [discriminate|intros (s & E & _); discriminate E]).
  destruct s as [|c s].
  - cbn. split; [discriminate|]. intros (s & E & [G _] & _).
    injection E as <-. cbn in G. lia.
  - cbn [truthy length Nat.eqb negb is_string orb trim_of mbind option_bind].
    destruct (Nat.ltb_spec (length (trim (c :: s))) 3);
      [split; [discriminate|intros (s' & E & [G _] & _); injection E as <-; lia]|].
    destruct (Nat.ltb_spec 30 (length (trim (c :: s))));
      [split; [discriminate|intros (s' & E & [_ G] & _); injection E as <-; lia]|].
    destruct (full_match TAG_REGEX (trim (c :: s))) eqn:Hm; cbn [negb].
    + split; [|reflexivity]. intros _. exists (c :: s).
      split; [reflexivity|]. split; [lia|]. now apply tag_regex_text.
    + split; [discriminate|]. intros (s' & E & _ & G). injection E as <-.
      apply tag_regex_text in G. congruence.
Qed.

